(** * OnnxGraphQt: the graph translator of [onnx_node_graph.py]

    A shallow embedding of [src/onnxgraphqt/graph/onnx_node_graph.py]:
    the visual node graph (a NodeGraphQt graph holding ONNXInput,
    ONNXOutput and ONNXNode vertices), the import translator
    [ONNXtoNodeGraph], the export translator [NodeGraphtoONNX], the
    serialisation wrapper [to_onnx], the layout driver
    [auto_layout_nodes] and the lookup [get_node_by_name].

    Python exceptions are values of [exn] carried by the [result] monad.
    Dictionaries that are only looked up are [gmap]s; dictionaries whose
    iteration order is observable (OrderedDict attributes, [qt_edge]) are
    association lists in insertion order.  Objects whose identity matters
    (graphsurgeon tensors) carry an allocation number. *)

From stdpp Require Import gmap strings list.
From Stdlib Require Import ZArith QArith.

Set Warnings "-register-all".

Open Scope Z_scope.

(** ** Exceptions and the error monad *)

Inductive exn :=
| KeyError (k : string)
| IndexError
| ValueError
| TypeError
| AttributeError (a : string)
| PortError
| ExternalError (tag : string).

Inductive result (A : Type) :=
| Ok (a : A)
| Raise (e : exn).

Arguments Ok {A} a.
Arguments Raise {A} e.

#[global] Instance result_ret : MRet result := λ A, Ok.

#[global] Instance result_bind : MBind result :=
  λ A B f m, match m with Ok a => f a | Raise e => Raise e end.

Definition is_ok {A} (r : result A) : bool :=
  match r with Ok _ => true | Raise _ => false end.

(** [for x in l: acc = f acc x], stopping at the first exception. *)
Fixpoint foldM {A B} (f : A → B → result A) (l : list B) (a : A) : result A :=
  match l with
  | [] => Ok a
  | x :: l' => a' ← f a x; foldM f l' a'
  end.

(** [[f x for x in l]], stopping at the first exception. *)
Fixpoint mapM_r {A B} (f : A → result B) (l : list A) : result (list B) :=
  match l with
  | [] => Ok []
  | x :: l' => y ← f x; ys ← mapM_r f l'; Ok (y :: ys)
  end.

(** ** numpy dtypes *)

Inductive npdtype :=
  F16 | F32 | F64 | I8 | I16 | I32 | I64 | U8 | U16 | U32 | U64 | B1.

#[global] Instance npdtype_eq_dec : EqDecision npdtype.
Proof. solve_decision. Defined.

(** [str(np.dtype(...))] *)
Definition dtype_name (d : npdtype) : string :=
  match d with
  | F16 => "float16" | F32 => "float32" | F64 => "float64"
  | I8 => "int8" | I16 => "int16" | I32 => "int32" | I64 => "int64"
  | U8 => "uint8" | U16 => "uint16" | U32 => "uint32" | U64 => "uint64"
  | B1 => "bool"
  end.

Definition all_dtypes : list npdtype :=
  [F16; F32; F64; I8; I16; I32; I64; U8; U16; U32; U64; B1].

(** The short forms numpy reads for the same dtypes. *)
Definition dtype_aliases : list (string * npdtype) :=
  [("f2", F16); ("f4", F32); ("f8", F64);
   ("i1", I8); ("i2", I16); ("i4", I32); ("i8", I64);
   ("u1", U8); ("u2", U16); ("u4", U32); ("u8", U64);
   ("b1", B1); ("?", B1);
   ("half", F16); ("single", F32); ("double", F64); ("float", F64)].

(** [np.dtype(s)] for a string [s], over the real and integer dtypes: the
    name a dtype prints as, or one of its short forms.  [TypeError] stands
    for a string that names none of them; the further dtypes of numpy
    (complex, text, object, dates) are not part of the model. *)
Definition np_dtype_of_string (s : string) : result npdtype :=
  match List.find (λ d, bool_decide (dtype_name d = s)) all_dtypes with
  | Some d => Ok d
  | None =>
      match List.find (λ a : string * npdtype, bool_decide (a.1 = s)) dtype_aliases with
      | Some a => Ok a.2
      | None => Raise TypeError
      end
  end.

(** The table [NUMPY_TYPES_TO_ONNX_DTYPES]; the values are the codes of
    [onnx.TensorProto] (FLOAT = 1, DOUBLE = 11, INT32 = 6, INT64 = 7). *)
Definition NUMPY_TYPES_TO_ONNX_DTYPES (d : npdtype) : result Z :=
  match d with
  | F32 => Ok 1
  | F64 => Ok 11
  | I32 => Ok 6
  | I64 => Ok 7
  | _ => Raise (KeyError (dtype_name d))
  end.

(** What a [dtype] attribute may hold besides [None]: a numpy dtype object,
    or the string the export translator passes on. *)
Inductive pydtype :=
| DNp (d : npdtype)
| DStr (s : string).

#[global] Instance pydtype_eq_dec : EqDecision pydtype.
Proof. solve_decision. Defined.

(** [str(x)] for a dtype attribute; [str(None)] is ["None"]. *)
Definition py_str_dtype (d : option pydtype) : string :=
  match d with
  | None => "None"
  | Some (DNp d) => dtype_name d
  | Some (DStr s) => s
  end.

(** The integers a dtype holds exactly: the range of an integer dtype, the
    integers up to two to the number of significand bits of a float dtype,
    0 and 1 for bool.  Numeric payloads are integers in the model, and an
    array is taken to hold numbers of its dtype; what numpy does to a number
    outside this range (rounding, or [OverflowError]) is not modelled, and
    the statements about values are made inside it. *)
Definition holds_exactly (d : npdtype) (z : Z) : bool :=
  match d with
  | I8 => bool_decide (- 2 ^ 7 ≤ z < 2 ^ 7)
  | I16 => bool_decide (- 2 ^ 15 ≤ z < 2 ^ 15)
  | I32 => bool_decide (- 2 ^ 31 ≤ z < 2 ^ 31)
  | I64 => bool_decide (- 2 ^ 63 ≤ z < 2 ^ 63)
  | U8 => bool_decide (0 ≤ z < 2 ^ 8)
  | U16 => bool_decide (0 ≤ z < 2 ^ 16)
  | U32 => bool_decide (0 ≤ z < 2 ^ 32)
  | U64 => bool_decide (0 ≤ z < 2 ^ 64)
  | B1 => bool_decide (0 ≤ z ≤ 1)
  | F16 => bool_decide (- 2 ^ 11 ≤ z ≤ 2 ^ 11)
  | F32 => bool_decide (- 2 ^ 24 ≤ z ≤ 2 ^ 24)
  | F64 => bool_decide (- 2 ^ 53 ≤ z ≤ 2 ^ 53)
  end.

(** ** Shapes and arrays *)

(** A dimension of a tensor shape: a number or a symbolic name. *)
Inductive dim :=
| DimInt (z : Z)
| DimSym (s : string).

#[global] Instance dim_eq_dec : EqDecision dim.
Proof. solve_decision. Defined.

Definition shape := list dim.

(** A numpy array: element type, concrete shape, elements in row-major
    order.  Numeric payloads are integers, taken to be numbers the dtype
    holds (see [holds_exactly]). *)
Record ndarray := mk_ndarray {
  a_dtype : npdtype;
  a_shape : list nat;
  a_data : list Z;
}.

#[global] Instance ndarray_eq_dec : EqDecision ndarray.
Proof. solve_decision. Defined.

Definition shape_of_nats (s : list nat) : shape := map (λ n, DimInt (Z.of_nat n)) s.

Definition nprod (s : list nat) : nat := foldr Nat.mul 1%nat s.

(** ** Python values held in attributes and tensor payloads *)

Inductive pyval :=
| PNone
| PBool (b : bool)
| PNum (z : Z)
| PStr (s : string)
| PList (l : list pyval)
| PArray (a : ndarray)
| PTensor (name : string) (a : ndarray).

(** [copy.deepcopy]: rebuilds the value constructor by constructor. *)
Fixpoint deepcopy (v : pyval) : pyval :=
  match v with
  | PNone => PNone
  | PBool b => PBool b
  | PNum z => PNum z
  | PStr s => PStr s
  | PList l => PList (map deepcopy l)
  | PArray a => PArray (mk_ndarray (a_dtype a) (a_shape a) (a_data a))
  | PTensor n a => PTensor n (mk_ndarray (a_dtype a) (a_shape a) (a_data a))
  end.

(** An [OrderedDict] of attributes. *)
Definition attrs := list (string * pyval).

Definition deepcopy_attrs (d : attrs) : attrs :=
  map (λ kv, (kv.1, deepcopy kv.2)) d.

(** [d[k]] *)
Fixpoint dict_get {V} (d : list (string * V)) (k : string) : result V :=
  match d with
  | [] => Raise (KeyError k)
  | (k', v) :: d' => if decide (k' = k) then Ok v else dict_get d' k
  end.

(** Splits [l] into [n] consecutive runs of [sz] elements. *)
Fixpoint chunks {A} (n sz : nat) (l : list A) : list (list A) :=
  match n with
  | O => []
  | S n' => take sz l :: chunks n' sz (drop sz l)
  end.

(** [ndarray.tolist()]: one nesting level per dimension, a bare scalar for a
    0-d array. *)
Fixpoint tolist_aux (dims : list nat) (data : list Z) : pyval :=
  match dims with
  | [] => match data with x :: _ => PNum x | [] => PNone end
  | d :: ds => PList (map (tolist_aux ds) (chunks d (nprod ds) data))
  end.

Definition tolist (a : ndarray) : pyval := tolist_aux (a_shape a) (a_data a).

(** The contents of an array as one flat list. *)
Definition flat_list (a : ndarray) : pyval := PList (map PNum (a_data a)).

(** [np.array(v)]: shape and row-major elements of a scalar or a rectangular
    nesting of lists; [ValueError] for a ragged nesting, [TypeError] for
    anything that is not numeric. *)
Fixpoint np_array (v : pyval) : result (list nat * list Z) :=
  match v with
  | PNum z => Ok ([], [z])
  | PBool b => Ok ([], [if b then 1 else 0])
  | PArray a => Ok (a_shape a, a_data a)
  | PList l =>
      let fix go (l : list pyval) : result (list (list nat * list Z)) :=
        match l with
        | [] => Ok []
        | x :: l' => r ← np_array x; rs ← go l'; Ok (r :: rs)
        end in
      rs ← go l;
      match rs with
      | [] => Ok ([0%nat], [])
      | (s, _) :: _ =>
          if forallb (λ r, bool_decide (r.1 = s)) rs
          then Ok (length rs :: s, concat (map snd rs))
          else Raise ValueError
      end
  | _ => Raise TypeError
  end.

(** The integer dimensions of a shape; [TypeError] on a symbolic one. *)
Definition int_dims (s : shape) : result (list Z) :=
  mapM_r (λ d, match d with DimInt z => Ok z | DimSym _ => Raise TypeError end) s.

Definition zprod (l : list Z) : Z := foldr Z.mul 1 l.

(** [a.reshape(shape)] on an array of [size] elements with current shape
    [cur]: at most one dimension may be negative and is then inferred;
    otherwise the product of the dimensions must be the number of elements.
    [reshape(None)] leaves the shape as it is. *)
Definition np_reshape (cur : list nat) (size : nat) (s : option shape) : result (list nat) :=
  match s with
  | None => Ok cur
  | Some s =>
      ds ← int_dims s;
      let known := filter (λ z, 0 ≤ z) ds in
      let unknown := length (filter (λ z, z < 0) ds) in
      let p := zprod known in
      match unknown with
      | O => if bool_decide (p = Z.of_nat size)
             then Ok (map Z.to_nat ds) else Raise ValueError
      | S O => if bool_decide (0 < p ∧ (Z.of_nat size) `mod` p = 0)
               then Ok (map (λ z, if bool_decide (z < 0)
                                  then Z.to_nat (Z.of_nat size `div` p)
                                  else Z.to_nat z) ds)
               else Raise ValueError
      | _ => Raise ValueError
      end
  end.

(** [np.array(val, dtype=dtype).reshape(shape)] with [dtype] a string, for
    values the dtype holds. *)
Definition np_array_reshape (val : pyval) (dtype : string) (s : option shape) : result ndarray :=
  d ← np_dtype_of_string dtype;
  '(cur, data) ← np_array val;
  new ← np_reshape cur (length data) s;
  Ok (mk_ndarray d new data).

(** ** graphsurgeon objects *)

(** A tensor-like object, by its exact Python type.  [GsTensor] is an object
    whose type is exactly the base class [gs.Tensor], which both loops of
    [create_qtnode] test for first; the class refuses to be instantiated,
    and graphsurgeon builds [Variable] and [Constant] objects only.
    [_values] is [None] here when the object has no such attribute.
    [GsOther] stands for an object of any other type, of which only [name]
    is read. *)
Inductive gs_tensor :=
| GsTensor (name : string) (dtype : option pydtype) (shp : option shape)
           (_values : option ndarray)
| GsVariable (name : string) (dtype : option pydtype) (shp : option shape)
| GsConstant (name : string) (values : ndarray)
| GsOther (name : string).

#[global] Instance gs_tensor_eq_dec : EqDecision gs_tensor.
Proof. solve_decision. Defined.

Definition tensor_name (t : gs_tensor) : string :=
  match t with
  | GsTensor n _ _ _ | GsVariable n _ _ | GsConstant n _ | GsOther n => n
  end.

(** [t.dtype] *)
Definition tensor_dtype (t : gs_tensor) : result (option pydtype) :=
  match t with
  | GsTensor _ d _ _ | GsVariable _ d _ => Ok d
  | GsConstant _ a => Ok (Some (DNp (a_dtype a)))
  | GsOther _ => Raise (AttributeError "dtype")
  end.

(** [t.shape] *)
Definition tensor_shape (t : gs_tensor) : result (option shape) :=
  match t with
  | GsTensor _ _ s _ | GsVariable _ _ s => Ok s
  | GsConstant _ a => Ok (Some (shape_of_nats (a_shape a)))
  | GsOther _ => Raise (AttributeError "shape")
  end.

(** A tensor object together with its identity: two references denote the
    same Python object exactly when their [oid]s agree. *)
Record gs_ref := mk_ref {
  oid : nat;
  otensor : gs_tensor;
}.

#[global] Instance gs_ref_eq_dec : EqDecision gs_ref.
Proof. solve_decision. Defined.

Definition ref_name (r : gs_ref) : string := tensor_name (otensor r).

(** [gs.Node] *)
Record gs_node := mk_gs_node {
  gn_op : string;
  gn_name : string;
  gn_attrs : attrs;
  gn_inputs : list gs_ref;
  gn_outputs : list gs_ref;
}.

(** [gs.Graph] *)
Record gs_graph := mk_gs_graph {
  gg_nodes : list gs_node;
  gg_name : string;
  gg_opset : Z;
  gg_inputs : list gs_ref;
  gg_outputs : list gs_ref;
  gg_doc_string : string;
  gg_import_domains : string;
}.

(** ** The visual graph *)

(** [OnnxNodeIO(name, dtype, shape, values)]; [values] is [PNone] for
    [None]. *)
Record OnnxNodeIO := mk_io {
  io_name : string;
  io_dtype : option string;
  io_shape : option shape;
  io_values : pyval;
}.

Inductive node_type := ONNXInput | ONNXOutput | ONNXNode.

#[global] Instance node_type_eq_dec : EqDecision node_type.
Proof. solve_decision. Defined.

(** The identifier NodeGraphQt registers each class under. *)
Definition type_ (t : node_type) : string :=
  match t with
  | ONNXInput => "nodes.node.ONNXInput"
  | ONNXOutput => "nodes.node.ONNXOutput"
  | ONNXNode => "nodes.node.ONNXNode"
  end.

Record port := mk_port { p_locked : bool }.

(** A vertex.  [q_name] is NodeGraphQt's display name ([name()]); the other
    fields are those of the ONNX node classes.  Fields that no translation
    reads (colour, the peer-name lists of Input and Output vertices) are
    left out. *)
Record qtnode := mk_qtnode {
  q_type : node_type;
  q_name : string;
  q_node_name : string;
  q_op : string;
  q_attrs : attrs;
  q_onnx_inputs : list OnnxNodeIO;
  q_onnx_outputs : list OnnxNodeIO;
  q_dtype : option pydtype;
  q_shape : option shape;
  q_inputs : list port;
  q_outputs : list port;
  q_port_deletion_allowed : bool;
  q_pos : Q * Q;
}.

(** A pipe joins output port [(v, i)] to input port [(w, j)]. *)
Definition pipe : Type := (nat * nat) * (nat * nat).

(** What the graph does to its ports, its vertices and the undo stack, in
    the order it does it. *)
Inductive event :=
| EvCreate (v : nat)
| EvConnect (p : pipe)
| EvLock (v : nat) (is_input : bool) (i : nat)
| EvBeginUndo (label : string)
| EvEndUndo
| EvSetPos (v : nat).

(** [ONNXNodeGraph].  A vertex is identified by its position in [g_nodes],
    which is the order of [all_nodes()]. *)
Record node_graph := mk_graph {
  g_name : string;
  g_opset : Z;
  g_doc_string : string;
  g_import_domains : string;
  g_producer_name : string;
  g_producer_version : string;
  g_ir_version : Z;
  g_model_version : Z;
  g_nodes : list qtnode;
  g_pipes : list pipe;
  g_log : list event;
}.

Definition with_nodes (g : node_graph) (ns : list qtnode) : node_graph :=
  mk_graph (g_name g) (g_opset g) (g_doc_string g) (g_import_domains g)
    (g_producer_name g) (g_producer_version g) (g_ir_version g)
    (g_model_version g) ns (g_pipes g) (g_log g).

Definition with_pipes (g : node_graph) (ps : list pipe) : node_graph :=
  mk_graph (g_name g) (g_opset g) (g_doc_string g) (g_import_domains g)
    (g_producer_name g) (g_producer_version g) (g_ir_version g)
    (g_model_version g) (g_nodes g) ps (g_log g).

Definition emit (g : node_graph) (e : event) : node_graph :=
  mk_graph (g_name g) (g_opset g) (g_doc_string g) (g_import_domains g)
    (g_producer_name g) (g_producer_version g) (g_ir_version g)
    (g_model_version g) (g_nodes g) (g_pipes g) (g_log g ++ [e]).

(** ** [get_node_by_name] *)

(** The loop body: what one vertex, at position [i], appends to [ret]. *)
Definition name_hits (name : string) (i : nat) (n : qtnode) : list nat :=
  (if bool_decide (q_type n = ONNXNode)
   then (if bool_decide (q_node_name n = name) then [i] else [])
   else [])
  ++ (if bool_decide (q_name n = name) then [i] else []).

Fixpoint get_node_by_name_from (i : nat) (ns : list qtnode) (name : string) : list nat :=
  match ns with
  | [] => []
  | n :: ns' => name_hits name i n ++ get_node_by_name_from (S i) ns' name
  end.

Definition get_node_by_name (g : node_graph) (name : string) : list nat :=
  get_node_by_name_from 0 (g_nodes g) name.

(** ** NodeGraphQt operations on vertices and ports *)

(** Modelled from the spec: the constructors of [ONNXInput], [ONNXOutput] and
    [ONNXNode] live in [onnx_node.py], which is not part of the sources.  An
    Input vertex has a single output port, an Output vertex a single input
    port, an Operator vertex one (synthetic) input port and one output port;
    ports accept several connections. *)
Definition fresh_ports (t : node_type) : list port * list port :=
  match t with
  | ONNXInput => ([], [mk_port false])
  | ONNXOutput => ([mk_port false], [])
  | ONNXNode => ([mk_port false], [mk_port false])
  end.

Definition set_inputs (n : qtnode) (ps : list port) : qtnode :=
  mk_qtnode (q_type n) (q_name n) (q_node_name n) (q_op n) (q_attrs n)
    (q_onnx_inputs n) (q_onnx_outputs n) (q_dtype n) (q_shape n)
    ps (q_outputs n) (q_port_deletion_allowed n) (q_pos n).

Definition set_outputs (n : qtnode) (ps : list port) : qtnode :=
  mk_qtnode (q_type n) (q_name n) (q_node_name n) (q_op n) (q_attrs n)
    (q_onnx_inputs n) (q_onnx_outputs n) (q_dtype n) (q_shape n)
    (q_inputs n) ps (q_port_deletion_allowed n) (q_pos n).

Definition set_port_deletion_allowed (n : qtnode) (b : bool) : qtnode :=
  mk_qtnode (q_type n) (q_name n) (q_node_name n) (q_op n) (q_attrs n)
    (q_onnx_inputs n) (q_onnx_outputs n) (q_dtype n) (q_shape n)
    (q_inputs n) (q_outputs n) b (q_pos n).

Definition set_pos (n : qtnode) (p : Q * Q) : qtnode :=
  mk_qtnode (q_type n) (q_name n) (q_node_name n) (q_op n) (q_attrs n)
    (q_onnx_inputs n) (q_onnx_outputs n) (q_dtype n) (q_shape n)
    (q_inputs n) (q_outputs n) (q_port_deletion_allowed n) p.

(** [BaseNode.delete_input(i)]: nothing happens when there is no such port;
    otherwise deletion must be allowed and the port unlocked. *)
Definition delete_input (n : qtnode) (i : nat) : result qtnode :=
  match q_inputs n !! i with
  | None => Ok n
  | Some p =>
      if negb (q_port_deletion_allowed n) then Raise PortError
      else if p_locked p then Raise PortError
      else Ok (set_inputs n (delete i (q_inputs n)))
  end.

(** [node.input(i)] and [node.output(i)] index the port lists. *)
Definition input (n : qtnode) (i : nat) : result port :=
  match q_inputs n !! i with Some p => Ok p | None => Raise IndexError end.

Definition output (n : qtnode) (i : nat) : result port :=
  match q_outputs n !! i with Some p => Ok p | None => Raise IndexError end.

Definition get_node (g : node_graph) (v : nat) : result qtnode :=
  match g_nodes g !! v with Some n => Ok n | None => Raise IndexError end.

(** The input ports or the output ports of a vertex. *)
Definition port_side (is_input : bool) (n : qtnode) : list port :=
  if is_input then q_inputs n else q_outputs n.

(** Sets the lock flag of one port of a vertex. *)
Definition lock_in (is_input : bool) (i : nat) (n : qtnode) : qtnode :=
  if is_input
  then set_inputs n (<[i := mk_port true]> (q_inputs n))
  else set_outputs n (<[i := mk_port true]> (q_outputs n)).

Definition lock_port (g : node_graph) (v : nat) (is_input : bool) (i : nat) : node_graph :=
  with_nodes g (alter (lock_in is_input i) v (g_nodes g)).

(** The ports joined to a port by a pipe, in connection order. *)
Definition connected_ports (g : node_graph) (v : nat) (is_input : bool) (i : nat) : list (nat * nat) :=
  if is_input
  then map fst (filter (λ p : pipe, p.2 = (v, i)) (g_pipes g))
  else map snd (filter (λ p : pipe, p.1 = (v, i)) (g_pipes g)).

(** Locking one port, as the graph records it. *)
Definition lock_step (g : node_graph) (v : nat) (is_input : bool) (i : nat) : node_graph :=
  emit (lock_port g v is_input i) (EvLock v is_input i).

(** [port.set_locked(state=True, connected_ports=True)]: locks the port,
    then every port connected to it. *)
Definition set_locked (g : node_graph) (v : nat) (is_input : bool) (i : nat) : node_graph :=
  foldl (λ g' (q : nat * nat), lock_step g' q.1 (negb is_input) q.2)
        (lock_step g v is_input i) (connected_ports g v is_input i).

(** [src.output(0).connect_to(dst.input(0))]: both ports must exist; a
    connection that is already there is left alone; a locked end refuses.
    Ports are taken to accept several connections (see [fresh_ports]);
    NodeGraphQt's refusal of a connection that would close a cycle is not
    part of the model. *)
Definition connect_to (g : node_graph) (src dst : nat) : result node_graph :=
  sn ← get_node g src;
  sp ← output sn 0;
  dn ← get_node g dst;
  dp ← input dn 0;
  let p : pipe := ((src, 0%nat), (dst, 0%nat)) in
  let g' := emit g (EvConnect p) in
  if bool_decide (p ∈ g_pipes g) then Ok g'
  else if p_locked sp || p_locked dp then Raise PortError
  else Ok (with_pipes g' (g_pipes g ++ [p])).

(** ** Import: exchange graph to visual graph *)

(** The stored tensor reference of an operator input (lines 212-224). *)
Definition classify_input (t : gs_tensor) : result OnnxNodeIO :=
  match t with
  | GsTensor n d s _ => Ok (mk_io n (Some (py_str_dtype d)) s PNone)
  | GsConstant n a =>
      Ok (mk_io n (Some (dtype_name (a_dtype a)))
                (Some (shape_of_nats (a_shape a))) (tolist a))
  | GsVariable n d s =>
      match d with
      | None => Ok (mk_io n None None PNone)
      | Some _ => Ok (mk_io n (Some (py_str_dtype d)) s PNone)
      end
  | GsOther n => Ok (mk_io n None None PNone)
  end.

(** The stored tensor reference of an operator output (lines 226-238); the
    first branch reads [out._values.dtype]. *)
Definition classify_output (t : gs_tensor) : result OnnxNodeIO :=
  match t with
  | GsTensor n d s v =>
      match v with
      | None => Raise (AttributeError "_values")
      | Some a => Ok (mk_io n (Some (dtype_name (a_dtype a))) s PNone)
      end
  | GsConstant n a =>
      Ok (mk_io n (Some (dtype_name (a_dtype a)))
                (Some (shape_of_nats (a_shape a))) (tolist a))
  | GsVariable n d s =>
      match d with
      | None => Ok (mk_io n None None PNone)
      | Some _ => Ok (mk_io n (Some (py_str_dtype d)) s PNone)
      end
  | GsOther n => Ok (mk_io n None None PNone)
  end.

(** The attributes an Operator vertex stores (lines 245-252). *)
Definition import_attrs (op : string) (a : attrs) : result attrs :=
  if bool_decide (op ∈ ["Constant"]) then
    v ← dict_get a "value";
    match v with
    | PTensor _ arr =>
        Ok [("dtype", PStr (dtype_name (a_dtype arr))); ("values", tolist arr)]
    | _ => Raise (AttributeError "values")
    end
  else Ok (deepcopy_attrs a).

Section Importer.

(** NodeGraphQt's [get_unique_name]: the display name a new vertex gets,
    given the display names in use. *)
Variable get_unique_name : list string → string → string.

(** [NodeGraph.create_node]: appends a vertex of the given class. *)
Definition create_node (g : node_graph) (t : node_type) (name : string) : node_graph * nat :=
  let v := length (g_nodes g) in
  let n := mk_qtnode t (get_unique_name (map q_name (g_nodes g)) name)
             "" "" [] [] [] None None
             (fresh_ports t).1 (fresh_ports t).2 false (0%Q, 0%Q) in
  (emit (with_nodes g (g_nodes g ++ [n])) (EvCreate v), v).

Definition set_node (g : node_graph) (v : nat) (n : qtnode) : node_graph :=
  with_nodes g (<[v := n]> (g_nodes g)).

(** [create_qtinput] and [create_qtoutput] (lines 188-206), which differ in
    the class of the vertex only: the vertex takes the tensor's name, a copy
    of its shape, and its dtype. *)
Definition create_qtio (t : node_type) (g : node_graph) (x : gs_tensor) : result (node_graph * nat) :=
  let node_name := tensor_name x in
  let '(g1, v) := create_node g t node_name in
  n ← get_node g1 v;
  s ← tensor_shape x;
  d ← tensor_dtype x;
  let n' := mk_qtnode (q_type n) (q_name n) node_name (q_op n) (q_attrs n)
              (q_onnx_inputs n) (q_onnx_outputs n) d s
              (q_inputs n) (q_outputs n) (q_port_deletion_allowed n) (q_pos n) in
  Ok (set_node g1 v n', v).

Definition create_qtinput := create_qtio ONNXInput.

Definition create_qtoutput := create_qtio ONNXOutput.

(** [create_qtnode] (lines 208-259): classify the tensor references, store
    name, operator type and attributes, and delete the input port of a
    ["Constant"]. *)
Definition create_qtnode (g : node_graph) (x : gs_node) : result (node_graph * nat) :=
  let node_name := gn_name x in
  let '(g1, v) := create_node g ONNXNode node_name in
  n ← get_node g1 v;
  onnx_inputs ← mapM_r (λ r, classify_input (otensor r)) (gn_inputs x);
  onnx_outputs ← mapM_r (λ r, classify_output (otensor r)) (gn_outputs x);
  let op := gn_op x in
  a ← import_attrs op (gn_attrs x);
  let n1 := mk_qtnode (q_type n) (q_name n) node_name op a
              (if bool_decide (0 < length onnx_inputs)%nat
               then onnx_inputs else q_onnx_inputs n)
              (if bool_decide (0 < length onnx_outputs)%nat
               then onnx_outputs else q_onnx_outputs n)
              (q_dtype n) (q_shape n)
              (q_inputs n) (q_outputs n) (q_port_deletion_allowed n) (q_pos n) in
  n2 ← (if bool_decide (op ∈ ["Constant"]) then
          n' ← delete_input (set_port_deletion_allowed n1 true) 0;
          Ok (set_port_deletion_allowed n' false)
        else Ok n1);
  Ok (set_node g1 v n2, v).

(** The index [qt_edge]: tensor name to the names of the operators that
    consume it (["inputs"]) and produce it (["outputs"]), in insertion
    order. *)
Definition edge_index := list (string * (list string * list string)).

Fixpoint od_upsert {V} (d : list (string * V)) (k : string) (new : V) (upd : V → V)
  : list (string * V) :=
  match d with
  | [] => [(k, new)]
  | (k', v) :: d' =>
      if decide (k' = k) then (k', upd v) :: d'
      else (k', v) :: od_upsert d' k new upd
  end.

Definition index_node (e : edge_index) (x : gs_node) : edge_index :=
  let e1 := foldl (λ e (r : gs_ref),
                     od_upsert e (ref_name r) ([gn_name x], [])
                       (λ io, (io.1 ++ [gn_name x], io.2)))
                  e (gn_inputs x) in
  foldl (λ e (r : gs_ref),
           od_upsert e (ref_name r) ([], [gn_name x])
             (λ io, (io.1, io.2 ++ [gn_name x])))
        e1 (gn_outputs x).

Definition build_qt_edge (nodes : list gs_node) : edge_index :=
  foldl index_node [] nodes.

(** [d[k]] on a dictionary that is only looked up. *)
Definition map_get (m : gmap string nat) (k : string) : result nat :=
  match m !! k with Some v => Ok v | None => Raise (KeyError k) end.

(** The body of the connection loop for one entry of [qt_edge]. *)
Definition connect_entry (input_names output_names : list string)
    (qt_io_nodes qt_nodes : gmap string nat)
    (g : node_graph) (entry : string * (list string * list string)) : result node_graph :=
  let '(key, (node_inputs, node_outputs)) := entry in
  g1 ← (if bool_decide (key ∈ input_names) then
          foldM (λ g inp, s ← map_get qt_io_nodes key;
                          d ← map_get qt_nodes inp;
                          connect_to g s d) node_inputs g
        else Ok g);
  g2 ← (if bool_decide (key ∈ output_names) then
          foldM (λ g out, s ← map_get qt_nodes out;
                          d ← map_get qt_io_nodes key;
                          connect_to g s d) node_outputs g1
        else Ok g1);
  foldM (λ g inp,
           foldM (λ g out, s ← map_get qt_nodes out;
                           d ← map_get qt_nodes inp;
                           connect_to g s d) node_outputs g)
        node_inputs g2.

(** The locking loop for one vertex: its input ports, then its output
    ports. *)
Definition lock_node (g : node_graph) (v : nat) : node_graph :=
  match g_nodes g !! v with
  | None => g
  | Some n =>
      let g1 := foldl (λ g i, set_locked g v true i) g (seq 0 (length (q_inputs n))) in
      foldl (λ g i, set_locked g v false i) g1 (seq 0 (length (q_outputs n)))
  end.

Definition lock_all (g : node_graph) : node_graph :=
  foldl lock_node g (seq 0 (length (g_nodes g))).

(** The creation and wiring part of [ONNXtoNodeGraph] (lines 505-562). *)
Definition import_wire (x : gs_graph) (g : node_graph) : result node_graph :=
  '(g1, qt_io_nodes) ←
    foldM (λ '(g, m) (r : gs_ref),
             '(g', v) ← create_qtinput g (otensor r);
             Ok (g', <[ref_name r := v]> m))
          (gg_inputs x) (g, (∅ : gmap string nat));
  '(g2, qt_io_nodes) ←
    foldM (λ '(g, m) (r : gs_ref),
             '(g', v) ← create_qtoutput g (otensor r);
             Ok (g', <[ref_name r := v]> m))
          (gg_outputs x) (g1, qt_io_nodes);
  '(g3, qt_nodes) ←
    foldM (λ '(g, m) (nd : gs_node),
             '(g', v) ← create_qtnode g nd;
             Ok (g', <[gn_name nd := v]> m))
          (gg_nodes x) (g2, (∅ : gmap string nat));
  let qt_edge := build_qt_edge (gg_nodes x) in
  let input_names := map ref_name (gg_inputs x) in
  let output_names := map ref_name (gg_outputs x) in
  foldM (connect_entry input_names output_names qt_io_nodes qt_nodes) qt_edge g3.

(** [ONNXtoNodeGraph]: create, wire, then lock (lines 563-568). *)
Definition ONNXtoNodeGraph (x : gs_graph) (g : node_graph) : result node_graph :=
  g' ← import_wire x g;
  Ok (lock_all g').

Definition load_onnx_graph (g : node_graph) (x : gs_graph) : result node_graph :=
  ONNXtoNodeGraph x g.

End Importer.

(** ** Export: visual graph to exchange graph *)

(** The translator's bookkeeping: [gs_variables_all], and the number the
    next tensor object created will carry. *)
Record export_state := mk_state {
  gs_variables_all : gmap string gs_ref;
  next_oid : nat;
}.

(** Creates a tensor object. *)
Definition new_tensor (st : export_state) (t : gs_tensor) : gs_ref * export_state :=
  (mk_ref (next_oid st) t, mk_state (gs_variables_all st) (S (next_oid st))).

(** Creates a tensor object and files it under its name. *)
Definition new_shared (st : export_state) (t : gs_tensor) : gs_ref * export_state :=
  let r := mk_ref (next_oid st) t in
  (r, mk_state (<[tensor_name t := r]> (gs_variables_all st)) (S (next_oid st))).

(** [val == -1 or val is None].  An array compares elementwise, and its
    truth value is an error unless it has exactly one element. *)
Definition is_unset (val : pyval) : result bool :=
  match val with
  | PNone => Ok true
  | PNum z => Ok (bool_decide (z = -1))
  | PArray a =>
      match a_data a with
      | [z] => Ok (bool_decide (z = -1))
      | _ => Raise ValueError
      end
  | _ => Ok false
  end.

(** The body of the loops over [n.onnx_inputs] and [n.onnx_outputs]
    (lines 379-392 and 394-407, which are the same). *)
Definition resolve (st : export_state) (io : OnnxNodeIO) : result (gs_ref * export_state) :=
  let name := io_name io in
  match gs_variables_all st !! name with
  | Some v => Ok (v, st)
  | None =>
      match io_dtype io with
      | None => Ok (new_shared st (GsVariable name None None))
      | Some dtype =>
          unset ← is_unset (io_values io);
          if unset : bool
          then Ok (new_shared st (GsVariable name (Some (DStr dtype)) (io_shape io)))
          else
            arr ← np_array_reshape (io_values io) dtype (io_shape io);
            Ok (new_shared st (GsConstant name arr))
      end
  end.

Fixpoint resolve_list (st : export_state) (ios : list OnnxNodeIO)
  : result (list gs_ref * export_state) :=
  match ios with
  | [] => Ok ([], st)
  | io :: ios' =>
      '(v, st1) ← resolve st io;
      '(vs, st2) ← resolve_list st1 ios';
      Ok (v :: vs, st2)
  end.

(** [onnx.helper.make_tensor(name, data_type, dims, vals)]: the values are
    read as an array and flattened, and there must be as many as the product
    of [dims].  (Releases of onnx that do not flatten a nested list refuse
    it.)  The values are taken to be numbers the element type holds. *)
Definition make_tensor (d : npdtype) (dims : list nat) (vals : pyval) : result ndarray :=
  '(_, data) ← np_array vals;
  if bool_decide (length data = nprod dims)
  then Ok (mk_ndarray d dims data) else Raise ValueError.

(** [np.dtype(x)] for an attribute value; [np.dtype(None)] is float64. *)
Definition np_dtype_of_pyval (v : pyval) : result npdtype :=
  match v with
  | PStr s => np_dtype_of_string s
  | PNone => Ok F64
  | _ => Raise TypeError
  end.

Definition is_constant_op (op : string) : bool :=
  bool_decide (op ∈ ["Constant"; "ConstantOfShape"]).

(** Node generation for a constant-producing vertex (lines 423-451 and
    464-472).  Only the name of the first output reaches
    [onnx.helper.make_node]; [gs.import_onnx] then builds the record from the
    one-node model: no inputs, the attribute [value], and one output
    variable of its own with the type and shape of [value_info]. *)
Definition constant_node (st : export_state) (n : qtnode) (output_gs_variables : list gs_ref)
  : result (gs_node * export_state) :=
  dtype ← dict_get (q_attrs n) "dtype";
  d ← np_dtype_of_pyval dtype;
  code ← NUMPY_TYPES_TO_ONNX_DTYPES d;
  attr_values ← dict_get (q_attrs n) "values";
  let '(shp, vals) :=
    match attr_values with
    | PList l => ([length l], attr_values)
    | PArray a => (a_shape a, attr_values)
    | _ => ([1%nat], PList [attr_values])
    end in
  constant_name ← match map ref_name output_gs_variables with
                  | c :: _ => Ok c
                  | [] => Raise IndexError
                  end;
  value ← make_tensor d shp vals;
  let '(out, st1) := new_tensor st (GsVariable constant_name (Some (DNp d))
                                      (Some (shape_of_nats shp))) in
  Ok (mk_gs_node (q_op n) (q_node_name n) [("value", PTensor "value" value)] [] [out],
      st1).

(** What the loop over the Operator vertices has produced so far: the
    state, [nodes], and for every vertex visited its
    [input_gs_variables] and [output_gs_variables]. *)
Record export_acc := mk_acc {
  x_state : export_state;
  x_nodes : list gs_node;
  x_resolved : list (list gs_ref * list gs_ref);
}.

(** The body of the loop over the Operator vertices (lines 375-474). *)
Definition export_vertex (acc : export_acc) (n : qtnode) : result export_acc :=
  '(input_gs_variables, st1) ← resolve_list (x_state acc) (q_onnx_inputs n);
  '(output_gs_variables, st2) ← resolve_list st1 (q_onnx_outputs n);
  '(node, st3) ←
    (if negb (is_constant_op (q_op n))
     then Ok (mk_gs_node (q_op n) (q_node_name n) (q_attrs n)
                input_gs_variables output_gs_variables, st2)
     else constant_node st2 n output_gs_variables);
  Ok (mk_acc st3 (x_nodes acc ++ [node])
        (x_resolved acc ++ [(input_gs_variables, output_gs_variables)])).

(** [graph.get_nodes_by_type(t)] *)
Definition get_nodes_by_type (g : node_graph) (t : node_type) : list qtnode :=
  filter (λ n, q_type n = t) (g_nodes g).

(** The loops over the Input and the Output vertices (lines 362-372): one
    variable per vertex, filed under the vertex's display name. *)
Definition export_io (st : export_state) (ns : list qtnode) : list gs_ref * export_state :=
  foldl (λ '(vs, st) n,
           let '(v, st') := new_shared st (GsVariable (q_name n) (q_dtype n) (q_shape n)) in
           (vs ++ [v], st'))
        ([], st) ns.

(** The whole export pass, with its bookkeeping. *)
Definition export_run (g : node_graph) : result (list gs_ref * list gs_ref * export_acc) :=
  let '(input_variables, st1) :=
    export_io (mk_state ∅ 0) (get_nodes_by_type g ONNXInput) in
  let '(output_variables, st2) :=
    export_io st1 (get_nodes_by_type g ONNXOutput) in
  acc ← foldM export_vertex (get_nodes_by_type g ONNXNode) (mk_acc st2 [] []);
  Ok (input_variables, output_variables, acc).

(** [NodeGraphtoONNX] (lines 355-485): the graph assembled from the records
    and the variables of the Input and Output vertices. *)
Definition NodeGraphtoONNX (g : node_graph) : result gs_graph :=
  '(input_variables, output_variables, acc) ← export_run g;
  Ok (mk_gs_graph (x_nodes acc) (g_name g) (g_opset g)
        input_variables output_variables (g_doc_string g) (g_import_domains g)).

Definition to_onnx_gs := NodeGraphtoONNX.

(** ** Serialisation *)

(** [onnx.ModelProto]: the exported graph and the stamped metadata. *)
Record ModelProto := mk_model {
  m_graph : gs_graph;
  m_producer_name : string;
  m_producer_version : string;
  m_ir_version : Z;
  m_model_version : Z;
}.

Section Serialise.

(** [gs.export_onnx(graph, do_type_check=True)] and
    [onnx.checker.check_model(model, full_check=False)]. *)
Variable export_onnx : gs_graph → result ModelProto.
Variable check_model : ModelProto → result unit.

(** The model after the four assignments of lines 272-275. *)
Definition stamp (g : node_graph) (m : ModelProto) : ModelProto :=
  mk_model (m_graph m) (g_producer_name g) (g_producer_version g)
    (g_ir_version g) (g_model_version g).

(** The model after the two producer assignments, and after the assignment
    of [ir_version] as well. *)
Definition stamp_producer (g : node_graph) (m : ModelProto) : ModelProto :=
  mk_model (m_graph m) (g_producer_name g) (g_producer_version g)
    (m_ir_version m) (m_model_version m).

Definition stamp_ir_version (g : node_graph) (m : ModelProto) : ModelProto :=
  mk_model (m_graph m) (g_producer_name g) (g_producer_version g)
    (g_ir_version g) (m_model_version m).

(** [ir_version] and [model_version] are int64 fields of the protobuf
    message: assigning a number outside the range raises. *)
Definition int64_range (z : Z) : bool := bool_decide (- 2 ^ 63 ≤ z < 2 ^ 63).

(** The [try] block of [to_onnx] (lines 271-279), started with [ret] as
    given: the value of [ret] when the block is left, and how it is left.
    The assignments change the model [ret] names, one field after the
    other, so a failing assignment leaves the fields before it set. *)
Definition to_onnx_try (g : node_graph) (graph : gs_graph) (ret : option ModelProto)
  : option ModelProto * result unit :=
  match export_onnx graph with
  | Raise e => (ret, Raise e)
  | Ok m =>
      if negb (int64_range (g_ir_version g))
      then (Some (stamp_producer g m), Raise ValueError)
      else if negb (int64_range (g_model_version g))
      then (Some (stamp_ir_version g m), Raise ValueError)
      else (Some (stamp g m), check_model (stamp g m))
  end.

(** [to_onnx]: the graph is translated outside the [try]; whatever the
    block raises is swallowed and [ret] is returned. *)
Definition to_onnx (g : node_graph) : result (option ModelProto) :=
  graph ← to_onnx_gs g;
  let '(ret, _) := to_onnx_try g graph None in
  Ok ret.

End Serialise.

(** ** Layout *)

(** [n.connected_input_nodes()]: for every input port, the vertices joined
    to it. *)
Definition connected_input_nodes (g : node_graph) (v : nat) (n : qtnode) : list (list nat) :=
  map (λ i, map fst (connected_ports g v true i)) (seq 0 (length (q_inputs n))).

(** [l.index(x)] *)
Fixpoint list_index (x : string) (l : list string) : result nat :=
  match l with
  | [] => Raise ValueError
  | y :: l' => if decide (y = x) then Ok 0%nat else i ← list_index x l'; Ok (S i)
  end.

Definition enumerate {A} (l : list A) : list (nat * A) := imap (λ i x, (i, x)) l.

(** [NodeGraphToEdges]: pairs of positions in the (reversed) vertex order. *)
Definition NodeGraphToEdges (g : node_graph) (reverse_order : bool) : result (list (nat * nat)) :=
  let all_nodes := enumerate (g_nodes g) in
  let order := if reverse_order then reverse all_nodes else all_nodes in
  let node_names := map (λ vn : nat * qtnode, q_name vn.2) order in
  foldM (λ ret '(i, (v, n)),
           foldM (λ ret inp,
                    m ← get_node g inp;
                    input_index ← list_index (q_name m) node_names;
                    Ok (ret ++ [if reverse_order then (i, input_index)
                                else (input_index, i)]))
                 (concat (connected_input_nodes g v n)) ret)
        (enumerate order) [].

(** Two positions are the same pair of numbers. *)
Definition same_pos (p q : Q * Q) : bool := Qeq_bool p.1 q.1 && Qeq_bool p.2 q.2.

(** [node.set_property('pos', p, push_undo)]: NodeGraphQt returns at once
    when the property already has this value, and nothing is recorded;
    otherwise the position is changed.  A coordinate is a number written as
    a fraction: in the first case the vertex keeps its position, written as
    [p] is. *)
Definition set_property_pos (g : node_graph) (v : nat) (p : Q * Q) : node_graph :=
  let g' := with_nodes g (alter (λ n, set_pos n p) v (g_nodes g)) in
  match g_nodes g !! v with
  | Some m => if same_pos (q_pos m) p then g' else emit g' (EvSetPos v)
  | None => g'
  end.

Section Layout.

(** igraph's [Graph(edges, directed=True).layout_sugiyama(hgap=2, ...)]:
    the coordinates, one pair per vertex of the igraph graph. *)
Variable layout_sugiyama : list (nat * nat) → result (list (Q * Q)).

(** [auto_layout_nodes] (lines 487-501). *)
Definition auto_layout_nodes (g : node_graph) (push_undo : bool) : result node_graph :=
  let g1 := if push_undo then emit g (EvBeginUndo "Auto Layout Nodes") else g in
  edges ← NodeGraphToEdges g1 true;
  if bool_decide (length edges = 0%nat) then Ok g1
  else
    coords ← layout_sugiyama edges;
    g2 ← foldM (λ g '(i, (v, n)),
                  match coords !! i with
                  | None => Raise IndexError
                  | Some (x, y) =>
                      Ok (set_property_pos g v ((- x * 240)%Q, (- y * 120)%Q))
                  end)
               (enumerate (reverse (enumerate (g_nodes g1)))) g1;
    Ok (if push_undo then emit g2 EvEndUndo else g2).

Definition auto_layout := auto_layout_nodes.

End Layout.

(** ** Sample graphs, and statements of the specification *)

Definition relu_vertex : qtnode :=
  mk_qtnode ONNXNode "relu" "relu" "Relu" []
    [mk_io "x" (Some "float32") (Some [DimInt 1; DimInt 3]) PNone]
    [mk_io "y" (Some "float32") (Some [DimInt 1; DimInt 3]) PNone]
    None None [mk_port false] [mk_port false] false (0%Q, 0%Q).

Definition graph_of (ns : list qtnode) (ps : list pipe) : node_graph :=
  mk_graph "g" 13 "" "" "OnnxGraphQt" "1" 8 1 ns ps [].

(** What the spec promises for [to_onnx]: whenever something is raised
    inside the [try] block, the result is null. *)
Definition null_on_any_failure
    (export_onnx : gs_graph → result ModelProto)
    (check_model : ModelProto → result unit) (g : node_graph) : Prop :=
  ∀ graph, to_onnx_gs g = Ok graph →
    is_ok (to_onnx_try export_onnx check_model g graph None).2 = false →
    to_onnx export_onnx check_model g = Ok None.

Definition default_model (graph : gs_graph) : ModelProto :=
  mk_model graph "" "" 0 0.

(** The exchange graph of the lone Relu vertex. *)
Definition exported_relu : gs_graph :=
  match NodeGraphtoONNX (graph_of [relu_vertex] []) with
  | Ok x => x
  | Raise _ => mk_gs_graph [] "" 0 [] [] "" ""
  end.


(** A tensor reference whose type is exactly the base class, as the first
    branch of the classification takes it: without a [_values] attribute,
    and with one whose element type differs from [dtype]. *)
Definition base_tensor : gs_tensor :=
  GsTensor "t" (Some (DNp F32)) (Some [DimInt 1; DimInt 3]) None.

Definition base_tensor_with_values : gs_tensor :=
  GsTensor "t" (Some (DNp F32)) (Some [DimInt 2])
    (Some (mk_ndarray I64 [2%nat] [7; 8])).

(** A Constant operator record whose value is a 2 by 2 tensor. *)
Definition constant_2x2 : gs_node :=
  mk_gs_node "Constant" "c0"
    [("value", PTensor "value" (mk_ndarray I64 [2%nat; 2%nat] [1; 2; 3; 4]))]
    [] [mk_ref 0 (GsVariable "k" None None)].

Definition keep_name (used : list string) (name : string) : string := name.

(** The graph after importing [constant_2x2] alone. *)
Definition imported_constant : node_graph :=
  match create_qtnode keep_name (graph_of [] []) constant_2x2 with
  | Ok (g', _) => g'
  | Raise _ => graph_of [] []
  end.

(** A tensor reference carrying six values and the shape 2 by 3, and one
    whose shape asks for four. *)
Definition io_2x3 : OnnxNodeIO :=
  mk_io "w" (Some "int64") (Some [DimInt 2; DimInt 3])
    (PList [PNum 1; PNum 2; PNum 3; PNum 4; PNum 5; PNum 6]).

Definition io_mismatch : OnnxNodeIO :=
  mk_io "w" (Some "int64") (Some [DimInt 2; DimInt 2])
    (PList [PNum 1; PNum 2; PNum 3; PNum 4; PNum 5; PNum 6]).

Definition mismatch_vertex : qtnode :=
  mk_qtnode ONNXNode "add" "add" "Add" [] [io_mismatch]
    [mk_io "y" None None PNone]
    None None [mk_port false] [mk_port false] false (0%Q, 0%Q).

(** Port [i] on one side of vertex [v] is locked, if there is such a port. *)
Definition locked_at (g : node_graph) (v : nat) (is_input : bool) (i : nat) : Prop :=
  ∀ n p, g_nodes g !! v = Some n → port_side is_input n !! i = Some p →
         p_locked p = true.

(** Every port of every vertex is locked. *)
Definition all_ports_locked (g : node_graph) : Prop :=
  ∀ v n p, g_nodes g !! v = Some n → p ∈ q_inputs n ++ q_outputs n →
           p_locked p = true.

Definition port_counts (n : qtnode) : nat * nat :=
  (length (q_inputs n), length (q_outputs n)).

Definition is_lock_event (e : event) : bool :=
  match e with EvLock _ _ _ => true | _ => false end.

Definition is_connect_event (e : event) : bool :=
  match e with EvConnect _ => true | _ => false end.

(** The log of [g'] continues the log of [g] with events that satisfy [P]. *)
Definition log_extends (P : event → Prop) (g g' : node_graph) : Prop :=
  ∃ evs, g_log g' = g_log g ++ evs ∧ Forall P evs.

(** An exchange graph: input [x], a Relu operator, output [y]. *)
Definition relu_model : gs_graph :=
  let x := mk_ref 0 (GsVariable "x" (Some (DNp F32)) (Some [DimInt 1; DimInt 3])) in
  let y := mk_ref 1 (GsVariable "y" (Some (DNp F32)) (Some [DimInt 1; DimInt 3])) in
  mk_gs_graph [mk_gs_node "Relu" "relu" [] [x] [y]] "g" 13 [x] [y] "" "".

Definition imported_relu : node_graph :=
  match ONNXtoNodeGraph keep_name relu_model (graph_of [] []) with
  | Ok g => g
  | Raise _ => graph_of [] []
  end.

(** An exchange graph with a ConstantOfShape operator fed by the graph
    input [s]. *)
Definition constant_of_shape_model : gs_graph :=
  let s := mk_ref 0 (GsVariable "s" (Some (DNp I64)) (Some [DimInt 1])) in
  let o := mk_ref 1 (GsVariable "o" (Some (DNp F32)) None) in
  mk_gs_graph
    [mk_gs_node "ConstantOfShape" "fill"
       [("value", PTensor "value" (mk_ndarray F32 [1%nat] [0]))] [s] [o]]
    "g" 13 [s] [o] "" "".

Definition imported_constant_of_shape : node_graph :=
  match ONNXtoNodeGraph keep_name constant_of_shape_model (graph_of [] []) with
  | Ok g => g
  | Raise _ => graph_of [] []
  end.

(** A Constant vertex in canonical form, and a graph in which a Relu
    vertex consumes what it produces. *)
Definition constant_vertex : qtnode :=
  mk_qtnode ONNXNode "c0" "c0" "Constant"
    [("dtype", PStr "int64"); ("values", PList [PNum 1; PNum 2; PNum 3])]
    [] [mk_io "k" (Some "int64") (Some [DimInt 3]) PNone]
    None None [] [mk_port false] false (0%Q, 0%Q).

Definition relu_after_constant : qtnode :=
  mk_qtnode ONNXNode "relu" "relu" "Relu" []
    [mk_io "k" (Some "int64") (Some [DimInt 3]) PNone]
    [mk_io "y" (Some "int64") (Some [DimInt 3]) PNone]
    None None [mk_port false] [mk_port false] false (0%Q, 0%Q).

Definition constant_relu_graph : node_graph :=
  graph_of [constant_vertex; relu_after_constant] [((0%nat, 0%nat), (1%nat, 0%nat))].

Definition exported_constant_relu : gs_graph :=
  match NodeGraphtoONNX constant_relu_graph with
  | Ok x => x
  | Raise _ => mk_gs_graph [] "" 0 [] [] "" ""
  end.

(** The objects the translator resolved the tensor references of the
    Operator vertices to. *)
Definition resolved_refs (acc : export_acc) : list gs_ref :=
  concat (map (λ p : list gs_ref * list gs_ref, p.1 ++ p.2) (x_resolved acc)).

(** Every object in the map is filed under its own name. *)
Definition wf_state (st : export_state) : Prop :=
  ∀ k r, gs_variables_all st !! k = Some r → ref_name r = k.

(** The exchange graph made of [constant_2x2] alone, and its import. *)
Definition constant_model : gs_graph :=
  mk_gs_graph [constant_2x2] "g" 13 [] [] "" "".

Definition imported_constant_model : node_graph :=
  match ONNXtoNodeGraph keep_name constant_model (graph_of [] []) with
  | Ok g => g
  | Raise _ => graph_of [] []
  end.

Definition constant_relu_run : list gs_ref * list gs_ref * export_acc :=
  match export_run constant_relu_graph with
  | Ok r => r
  | Raise _ => ([], [], mk_acc (mk_state ∅ 0) [] [])
  end.

(** ** The round trip *)

(** A tensor object as the export translator creates them. *)
Definition plain (t : gs_tensor) : Prop :=
  match t with
  | GsVariable _ _ _ | GsConstant _ _ => True
  | _ => False
  end.

Definition plain_state (st : export_state) : Prop :=
  ∀ k r, gs_variables_all st !! k = Some r → plain (otensor r).

(** The vertices in the order the export reads them, which is the order
    the import creates them in: Inputs, Outputs, Operators. *)
Definition export_order (g : node_graph) : list qtnode :=
  get_nodes_by_type g ONNXInput ++ get_nodes_by_type g ONNXOutput
  ++ get_nodes_by_type g ONNXNode.

(** A Constant vertex in the canonical form the import gives it: the two
    attributes [dtype], one of the four dtypes of
    [NUMPY_TYPES_TO_ONNX_DTYPES], and [values], a flat list of numbers that
    this dtype holds exactly; no input tensor reference and one output
    tensor reference. *)
Definition canonical_constant (n : qtnode) : bool :=
  match q_attrs n with
  | [(k1, PStr s); (k2, PList l)] =>
      bool_decide (k1 = "dtype") && bool_decide (k2 = "values")
      && existsb (λ d, bool_decide (s = dtype_name d)
                       && forallb (λ v, match v with
                                        | PNum z => holds_exactly d z
                                        | _ => false
                                        end) l)
           [F32; F64; I32; I64]
  | _ => false
  end
  && bool_decide (q_onnx_inputs n = [])
  && bool_decide (length (q_onnx_outputs n) = 1%nat).

#[global] Instance io_eq_dec_nil (l : list OnnxNodeIO) : Decision (l = []).
Proof. destruct l; [left|right]; done. Defined.

(** An Operator vertex the round trip supports: not a ConstantOfShape, and
    canonical if it is a Constant. *)
Definition supported_op (n : qtnode) : bool :=
  bool_decide (q_op n ≠ "ConstantOfShape")
  && (if bool_decide (q_op n = "Constant") then canonical_constant n else true).

(** A graph the round trip supports: the display names of the Input and
    Output vertices are pairwise distinct, so are the node names of the
    Operator vertices, and every Operator vertex is supported. *)
Definition supported (g : node_graph) : bool :=
  bool_decide (NoDup (map q_name (get_nodes_by_type g ONNXInput
                                  ++ get_nodes_by_type g ONNXOutput)))
  && bool_decide (NoDup (map q_node_name (get_nodes_by_type g ONNXNode)))
  && forallb supported_op (get_nodes_by_type g ONNXNode).

(** What the round trip keeps of a vertex: of an Input or Output vertex the
    display name, dtype and shape; of an Operator vertex the node name, the
    operator type, the attributes and the names of its input and output
    tensor references, in order. *)
Definition same_vertex (n n' : qtnode) : Prop :=
  q_type n' = q_type n
  ∧ match q_type n with
    | ONNXNode =>
        q_node_name n' = q_node_name n
        ∧ q_op n' = q_op n
        ∧ q_attrs n' = q_attrs n
        ∧ map io_name (q_onnx_inputs n') = map io_name (q_onnx_inputs n)
        ∧ map io_name (q_onnx_outputs n') = map io_name (q_onnx_outputs n)
    | _ =>
        q_name n' = q_name n ∧ q_dtype n' = q_dtype n ∧ q_shape n' = q_shape n
    end.

(** Vertex [v] of [ns] produces, or consumes, the tensor name [t]. *)
Definition produces (ns : list qtnode) (v : nat) (t : string) : Prop :=
  ∃ n, ns !! v = Some n
     ∧ ((q_type n = ONNXInput ∧ q_name n = t)
        ∨ (q_type n = ONNXNode ∧ t ∈ map io_name (q_onnx_outputs n))).

Definition consumes (ns : list qtnode) (v : nat) (t : string) : Prop :=
  ∃ n, ns !! v = Some n
     ∧ ((q_type n = ONNXOutput ∧ q_name n = t)
        ∨ (q_type n = ONNXNode ∧ t ∈ map io_name (q_onnx_inputs n))).

(** The edges the data model derives: port 0 to port 0, between a vertex
    that produces a tensor name and a vertex that consumes it. *)
Definition name_edge (ns : list qtnode) (p : pipe) : Prop :=
  ∃ s d t, p = ((s, 0%nat), (d, 0%nat)) ∧ produces ns s t ∧ consumes ns d t.

(** The edges by tensor name close no cycle: the vertices can be ranked so
    that every edge goes up.  (NodeGraphQt leaves out a connection that
    would close a cycle.) *)
Definition acyclic_by_name (ns : list qtnode) : Prop :=
  ∃ rank : nat → nat, ∀ p : pipe, name_edge ns p → (rank p.1.1 < rank p.2.1)%nat.

(** The operator record [nd] is what the export makes of the vertex [n], as
    far as the import reads it. *)
Definition node_matches (n : qtnode) (nd : gs_node) : Prop :=
  gn_name nd = q_node_name n
  ∧ gn_op nd = q_op n
  ∧ map ref_name (gn_inputs nd) = map io_name (q_onnx_inputs n)
  ∧ map ref_name (gn_outputs nd) = map io_name (q_onnx_outputs n)
  ∧ Forall (λ r, plain (otensor r)) (gn_inputs nd ++ gn_outputs nd)
  ∧ import_attrs (gn_op nd) (gn_attrs nd) = Ok (q_attrs n).

(** The fields of a vertex other than its ports and its position. *)
Definition vertex_fields (n : qtnode) :=
  (q_type n, q_name n, q_node_name n, q_op n, q_attrs n,
   q_onnx_inputs n, q_onnx_outputs n, q_dtype n, q_shape n).

(** [get_unique_name] returns the display name of an Input or Output
    vertex of [g] unchanged when no vertex has it, as NodeGraphQt does for a
    name without surplus white space. *)
Definition keeps_names_of (uniq : list string → string → string) (g : node_graph) : Prop :=
  ∀ used n,
    n ∈ get_nodes_by_type g ONNXInput ++ get_nodes_by_type g ONNXOutput →
    q_name n ∉ used → uniq used (q_name n) = q_name n.

(** The vertex [n] is what [create_qtinput] or [create_qtoutput] makes of
    the tensor [x]. *)
Definition io_created (t : node_type) (x : gs_tensor) (n : qtnode) : Prop :=
  q_type n = t
  ∧ q_name n = tensor_name x
  ∧ tensor_dtype x = Ok (q_dtype n)
  ∧ tensor_shape x = Ok (q_shape n)
  ∧ q_inputs n = (fresh_ports t).1
  ∧ q_outputs n = (fresh_ports t).2.

(** The vertex [n] is what [create_qtnode] makes of the record [nd]. *)
Definition op_created (nd : gs_node) (n : qtnode) : Prop :=
  q_type n = ONNXNode
  ∧ q_node_name n = gn_name nd
  ∧ q_op n = gn_op nd
  ∧ import_attrs (gn_op nd) (gn_attrs nd) = Ok (q_attrs n)
  ∧ map io_name (q_onnx_inputs n) = map ref_name (gn_inputs nd)
  ∧ map io_name (q_onnx_outputs n) = map ref_name (gn_outputs nd)
  ∧ q_inputs n = (if bool_decide (gn_op nd ∈ ["Constant"]) then [] else [mk_port false])
  ∧ q_outputs n = [mk_port false].

(** The dictionary [m] sends the [i]-th name of [names] to the vertex
    [base + i], and knows no other name. *)
Definition names_from (m : gmap string nat) (names : list string) (base : nat) : Prop :=
  ∀ t v, m !! t = Some v ↔ ∃ i, v = (base + i)%nat ∧ names !! i = Some t.

(** The index [e'] has every entry of [e], possibly with more names. *)
Definition index_le (e e' : edge_index) : Prop :=
  ∀ key I O, (key, (I, O)) ∈ e →
    ∃ I' O', (key, (I', O')) ∈ e' ∧ I ⊆ I' ∧ O ⊆ O'.

(** The operator named [name] consumes, or produces, the tensor [key]. *)
Definition consumer_of (nodes : list gs_node) (key name : string) : Prop :=
  ∃ nd, nd ∈ nodes ∧ gn_name nd = name ∧ key ∈ map ref_name (gn_inputs nd).

Definition producer_of (nodes : list gs_node) (key name : string) : Prop :=
  ∃ nd, nd ∈ nodes ∧ gn_name nd = name ∧ key ∈ map ref_name (gn_outputs nd).

(** Every name the index lists is the name of a consumer, or producer. *)
Definition index_sound (nodes : list gs_node) (e : edge_index) : Prop :=
  ∀ key I O, (key, (I, O)) ∈ e →
    (∀ inp, inp ∈ I → consumer_of nodes key inp)
    ∧ (∀ out, out ∈ O → producer_of nodes key out).

(** The pipes the connection loop asks for on one entry of the index. *)
Definition entry_pipes (input_names output_names : list string)
    (qt_io_nodes qt_nodes : gmap string nat)
    (entry : string * (list string * list string)) (p : pipe) : Prop :=
  let '(key, (node_inputs, node_outputs)) := entry in
  (key ∈ input_names
   ∧ ∃ inp s d, inp ∈ node_inputs ∧ qt_io_nodes !! key = Some s
              ∧ qt_nodes !! inp = Some d ∧ p = ((s, 0%nat), (d, 0%nat)))
  ∨ (key ∈ output_names
     ∧ ∃ out s d, out ∈ node_outputs ∧ qt_nodes !! out = Some s
                ∧ qt_io_nodes !! key = Some d ∧ p = ((s, 0%nat), (d, 0%nat)))
  ∨ (∃ inp out s d, inp ∈ node_inputs ∧ out ∈ node_outputs
                  ∧ qt_nodes !! out = Some s ∧ qt_nodes !! inp = Some d
                  ∧ p = ((s, 0%nat), (d, 0%nat))).

(** Vertex [v] has a single, unlocked, output (input) port. *)
Definition has_out (ns : list qtnode) (v : nat) : Prop :=
  ∃ n, ns !! v = Some n ∧ q_outputs n = [mk_port false].

Definition has_in (ns : list qtnode) (v : nat) : Prop :=
  ∃ n, ns !! v = Some n ∧ q_inputs n = [mk_port false].

(** Recording a consumer, or a producer, in the index. *)
Definition add_input (name : string) (e : edge_index) (r : gs_ref) : edge_index :=
  od_upsert e (ref_name r) ([name], []) (λ io, (io.1 ++ [name], io.2)).

Definition add_output (name : string) (e : edge_index) (r : gs_ref) : edge_index :=
  od_upsert e (ref_name r) ([], [name]) (λ io, (io.1, io.2 ++ [name])).

(** The index lists [name] among the consumers, or producers, of [key]. *)
Definition listed_in (e : edge_index) (key name : string) : Prop :=
  ∃ I O, (key, (I, O)) ∈ e ∧ name ∈ I.

Definition listed_out (e : edge_index) (key name : string) : Prop :=
  ∃ I O, (key, (I, O)) ∈ e ∧ name ∈ O.

(** A ConstantOfShape vertex carrying the canonical attributes. *)
Definition constant_of_shape_vertex : qtnode :=
  mk_qtnode ONNXNode "fill" "fill" "ConstantOfShape"
    [("dtype", PStr "int64"); ("values", PList [PNum 1; PNum 2; PNum 3])]
    [] [mk_io "o" (Some "int64") (Some [DimInt 3]) PNone]
    None None [mk_port false] [mk_port false] false (0%Q, 0%Q).

(** A supported graph: input [x], output [y], a Constant producing [k] and
    an Add consuming [x] and [k] and producing [y]. *)
Definition input_x : qtnode :=
  mk_qtnode ONNXInput "x" "x" "" [] [] []
    (Some (DNp I64)) (Some [DimInt 3]) [] [mk_port false] false (0%Q, 0%Q).

Definition output_y : qtnode :=
  mk_qtnode ONNXOutput "y" "y" "" [] [] []
    (Some (DNp I64)) (Some [DimInt 3]) [mk_port false] [] false (0%Q, 0%Q).

Definition add_vertex : qtnode :=
  mk_qtnode ONNXNode "add" "add" "Add" [("axis", PNum 0)]
    [mk_io "x" (Some "int64") (Some [DimInt 3]) PNone;
     mk_io "k" (Some "int64") (Some [DimInt 3]) PNone]
    [mk_io "y" (Some "int64") (Some [DimInt 3]) PNone]
    None None [mk_port false] [mk_port false] false (0%Q, 0%Q).

Definition add_graph : node_graph :=
  graph_of [input_x; output_y; constant_vertex; add_vertex]
    [((0%nat, 0%nat), (3%nat, 0%nat)); ((3%nat, 0%nat), (1%nat, 0%nat));
     ((2%nat, 0%nat), (3%nat, 0%nat))].

Definition exported_add_graph : gs_graph :=
  match NodeGraphtoONNX add_graph with
  | Ok x => x
  | Raise _ => mk_gs_graph [] "" 0 [] [] "" ""
  end.

(** Input [x] and a Relu that names [x] as its input, with no pipe between
    them. *)
Definition unwired_graph : node_graph :=
  graph_of [input_x; set_inputs relu_vertex [mk_port false]] [].

(** ** Further operations of [ONNXNodeGraph] *)

(** [node_count] (lines 185-186). *)
Definition node_count (g : node_graph) : nat := length (g_nodes g).

(** ** What the import leaves of a tensor and of an operator record *)

(** The vertex [n] stores what [create_qtinput] or [create_qtoutput] reads
    of the tensor [x]. *)
Definition made_from_tensor (t : node_type) (x : gs_tensor) (n : qtnode) : Prop :=
  q_type n = t
  ∧ q_node_name n = tensor_name x
  ∧ tensor_dtype x = Ok (q_dtype n)
  ∧ tensor_shape x = Ok (q_shape n).

(** The vertex [n] stores what [create_qtnode] reads of the record [nd]. *)
Definition made_from_node (nd : gs_node) (n : qtnode) : Prop :=
  q_type n = ONNXNode
  ∧ q_node_name n = gn_name nd
  ∧ q_op n = gn_op nd
  ∧ import_attrs (gn_op nd) (gn_attrs nd) = Ok (q_attrs n)
  ∧ mapM_r (λ r, classify_input (otensor r)) (gn_inputs nd) = Ok (q_onnx_inputs n)
  ∧ mapM_r (λ r, classify_output (otensor r)) (gn_outputs nd) = Ok (q_onnx_outputs n).

(** The class and the stored name of the vertices an import creates, in
    the order it creates them. *)
Definition created_by (x : gs_graph) : list (node_type * string) :=
  map (λ r, (ONNXInput, ref_name r)) (gg_inputs x)
  ++ map (λ r, (ONNXOutput, ref_name r)) (gg_outputs x)
  ++ map (λ nd, (ONNXNode, gn_name nd)) (gg_nodes x).

(** The numbers of input and output ports of the vertices an import
    creates, in the order it creates them: an Input vertex has its output
    port, an Output vertex its input port, an Operator vertex an output
    port and, unless its type is ["Constant"], an input port. *)
Definition ports_created_by (x : gs_graph) : list (nat * nat) :=
  map (λ _, (0%nat, 1%nat)) (gg_inputs x)
  ++ map (λ _, (1%nat, 0%nat)) (gg_outputs x)
  ++ map (λ nd, (if bool_decide (gn_op nd ∈ ["Constant"]) then 0%nat else 1%nat, 1%nat))
       (gg_nodes x).

(** The event [e] was recorded after the graph was as [g0] is. *)
Definition logged_since (g0 : node_graph) (e : event) (g : node_graph) : Prop :=
  ∃ evs, g_log g = g_log g0 ++ evs ∧ e ∈ evs.

(** Every pipe joins two vertices of the graph. *)
Definition pipes_in_graph (g : node_graph) : Prop :=
  ∀ p : pipe, p ∈ g_pipes g →
    (p.1.1 < node_count g)%nat ∧ (p.2.1 < node_count g)%nat.

(** An exchange graph whose operator reads its one input twice, and its
    import. *)
Definition square_model : gs_graph :=
  let x := mk_ref 0 (GsVariable "x" (Some (DNp F32)) (Some [DimInt 2])) in
  let y := mk_ref 1 (GsVariable "y" (Some (DNp F32)) (Some [DimInt 2])) in
  mk_gs_graph [mk_gs_node "Mul" "square" [] [x; x] [y]] "g" 13 [x] [y] "" "".

Definition imported_square : node_graph :=
  match ONNXtoNodeGraph keep_name square_model (graph_of [] []) with
  | Ok g => g
  | Raise _ => graph_of [] []
  end.

(** A Constant record holding three float16 values, the exchange graph made
    of it, and its import. *)
Definition constant_half : gs_node :=
  mk_gs_node "Constant" "h0"
    [("value", PTensor "value" (mk_ndarray F16 [3%nat] [1; 2; 3]))]
    [] [mk_ref 0 (GsVariable "h" None None)].

Definition half_model : gs_graph :=
  mk_gs_graph [constant_half] "g" 13 [] [] "" "".

Definition imported_half_model : node_graph :=
  match ONNXtoNodeGraph keep_name half_model (graph_of [] []) with
  | Ok g => g
  | Raise _ => graph_of [] []
  end.

(** ** The edge list of the layout *)

(** The vertices, each with its position in [all_nodes()], in the order
    [NodeGraphToEdges] walks them, and their display names in that order. *)
Definition walk (g : node_graph) (reverse_order : bool) : list (nat * qtnode) :=
  if reverse_order then reverse (enumerate (g_nodes g)) else enumerate (g_nodes g).

Definition walk_names (g : node_graph) (reverse_order : bool) : list string :=
  map (λ vn : nat * qtnode, q_name vn.2) (walk g reverse_order).

(** The place of vertex [v] in the walk over [n] vertices. *)
Definition place (reverse_order : bool) (n v : nat) : nat :=
  if reverse_order then (n - 1 - v)%nat else v.

(** The pair appended for the vertex at place [i] and one vertex [inp]
    connected to an input of it (lines 343-344 and 350-351). *)
Definition edge_of (g : node_graph) (reverse_order : bool) (i inp : nat)
  : result (nat * nat) :=
  m ← get_node g inp;
  input_index ← list_index (q_name m) (walk_names g reverse_order);
  Ok (if reverse_order then (i, input_index) else (input_index, i)).

(** The pairs appended for one vertex of the walk. *)
Definition edges_of_vertex (g : node_graph) (reverse_order : bool)
    (ivn : nat * (nat * qtnode)) : result (list (nat * nat)) :=
  mapM_r (edge_of g reverse_order ivn.1)
    (concat (connected_input_nodes g ivn.2.1 ivn.2.2)).

(** The pair that stands for a pipe: from the place of the consumer to the
    place of the producer in the reversed walk, from producer to consumer
    otherwise. *)
Definition edge_of_pipe (g : node_graph) (reverse_order : bool) (p : pipe) : nat * nat :=
  let s := place reverse_order (node_count g) p.1.1 in
  let d := place reverse_order (node_count g) p.2.1 in
  if reverse_order then (d, s) else (s, d).

(** The pipe starts at a vertex of the graph and ends in an input port of a
    vertex of the graph. *)
Definition feeds_input (g : node_graph) (p : pipe) : Prop :=
  (p.1.1 < node_count g)%nat
  ∧ ∃ n, g_nodes g !! p.2.1 = Some n ∧ (p.2.2 < length (q_inputs n))%nat.

(** The edge list of [add_graph], in the reversed walk. *)
Definition add_graph_edges : list (nat * nat) :=
  match NodeGraphToEdges add_graph true with
  | Ok es => es
  | Raise _ => []
  end.

(** ** Layout *)

(** Everything a vertex holds except its position. *)
Definition vertex_but_pos (n : qtnode) :=
  (vertex_fields n, q_inputs n, q_outputs n, q_port_deletion_allowed n).

(** The coordinates of a sample layout, and [add_graph] laid out with
    them. *)
Definition sample_coords : list (Q * Q) :=
  [(0%Q, 0%Q); (1%Q, 0%Q); (0%Q, 1%Q); (1%Q, 1%Q)].

Definition sample_layout (edges : list (nat * nat)) : result (list (Q * Q)) :=
  Ok sample_coords.

Definition laid_out_add_graph : node_graph :=
  match auto_layout_nodes sample_layout add_graph true with
  | Ok g => g
  | Raise _ => add_graph
  end.

(** The body of the loop of [auto_layout_nodes] (lines 496-498), for the
    vertex [v] at place [i] of the reversed walk. *)
Definition place_vertex (coords : list (Q * Q)) (g : node_graph)
    (ivn : nat * (nat * qtnode)) : result node_graph :=
  let '(i, (v, n)) := ivn in
  match coords !! i with
  | None => Raise IndexError
  | Some (x, y) => Ok (set_property_pos g v ((- x * 240)%Q, (- y * 120)%Q))
  end.

(** The layout moves vertex [v]: its position is not already the one the
    coordinates give it. *)
Definition moves (g : node_graph) (coords : list (Q * Q)) (v : nat) : bool :=
  match g_nodes g !! v, coords !! (node_count g - 1 - v)%nat with
  | Some m, Some (x, y) => negb (same_pos (q_pos m) ((- x * 240)%Q, (- y * 120)%Q))
  | _, _ => false
  end.

(** ** [to_data] *)

(** [OnnxGraph] (lines 65-70).  The four dictionaries are read by key; a
    vertex is given by its position in [all_nodes()]. *)
Record OnnxGraph := mk_data {
  og_inputs : gmap string nat;
  og_outputs : gmap string nat;
  og_nodes : gmap string nat;
  og_node_inputs : gmap string OnnxNodeIO;
}.

(** The body of the loop of [to_data] (lines 291-298). *)
Definition to_data_step (d : OnnxGraph) (vn : nat * qtnode) : OnnxGraph :=
  let '(v, n) := vn in
  match q_type n with
  | ONNXNode =>
      mk_data (og_inputs d) (og_outputs d) (<[q_name n := v]> (og_nodes d))
        (foldl (λ m inp, <[io_name inp := inp]> m) (og_node_inputs d) (q_onnx_inputs n))
  | ONNXInput =>
      mk_data (<[q_name n := v]> (og_inputs d)) (og_outputs d) (og_nodes d)
        (og_node_inputs d)
  | ONNXOutput =>
      mk_data (og_inputs d) (<[q_name n := v]> (og_outputs d)) (og_nodes d)
        (og_node_inputs d)
  end.

(** [to_data] (lines 285-299). *)
Definition to_data (g : node_graph) : OnnxGraph :=
  foldl to_data_step (mk_data ∅ ∅ ∅ ∅) (enumerate (g_nodes g)).

(** The dictionary of [OnnxGraph] that holds the vertices of one class. *)
Definition og_of (t : node_type) (d : OnnxGraph) : gmap string nat :=
  match t with
  | ONNXInput => og_inputs d
  | ONNXOutput => og_outputs d
  | ONNXNode => og_nodes d
  end.

(** Vertex [v] of [ns] is the last vertex of class [t] with the display
    name [s]. *)
Definition last_named (ns : list qtnode) (t : node_type) (s : string) (v : nat) : Prop :=
  (∃ n, ns !! v = Some n ∧ q_type n = t ∧ q_name n = s)
  ∧ ∀ w m, (v < w)%nat → ns !! w = Some m → ¬ (q_type m = t ∧ q_name m = s).

(** ** [export] *)

Section Saving.

Variable export_onnx : gs_graph → result ModelProto.
Variable check_model : ModelProto → result unit.

(** [onnx.save(proto, f)] *)
Variable save : option ModelProto → string → result unit.

(** [export] (lines 302-310): what [to_onnx] returns is handed to
    [onnx.save]; the handler raises again what it caught. *)
Definition export (g : node_graph) (file_path : string) : result unit :=
  match (m ← to_onnx export_onnx check_model g; save m file_path) with
  | Ok u => Ok u
  | Raise e => Raise e
  end.

End Saving.

(** The record exported for [add_vertex], its first input, and the first
    input of the exported graph. *)
Definition add_record : gs_node :=
  match gg_nodes exported_add_graph with
  | [_; nd] => nd
  | _ => mk_gs_node "" "" [] [] []
  end.

Definition add_first_input : gs_ref :=
  match gn_inputs add_record with
  | r :: _ => r
  | [] => mk_ref 0 (GsOther "")
  end.

Definition graph_input_x : gs_ref :=
  match gg_inputs exported_add_graph with
  | r :: _ => r
  | [] => mk_ref 1 (GsOther "")
  end.

(** ** Selection *)

(** A vertex together with NodeGraphQt's [selected] property; a graph's
    vertices are listed in the order of [all_nodes()]. *)
Record selectable := mk_sel {
  s_node : qtnode;
  s_selected : bool;
}.

(** [node.set_property("selected", b, push_undo=False)] *)
Definition set_selected (b : bool) (n : selectable) : selectable :=
  mk_sel (s_node n) b.

(** [reset_selection] (lines 125-128): one vertex after the other. *)
Definition reset_selection (ns : list selectable) : list selectable :=
  foldl (λ ns v, alter (set_selected false) v ns) ns (seq 0 (length ns)).

(** [fit_to_selection_node] (lines 130-134), for the vertex at position
    [v]; the zoom of the viewer is not part of the model. *)
Definition fit_to_selection_node (ns : list selectable) (v : nat) : list selectable :=
  alter (set_selected true) v (reset_selection ns).

(** [get_selected_node_names] (lines 136-137). *)
Definition get_selected_node_names (ns : list selectable) : list string :=
  map (λ n, q_name (s_node n)) (filter (λ n, s_selected n = true) ns).
(** * Auxiliary facts on arrays and lists *)

Lemma np_array_PList (l : list pyval) :
  np_array (PList l)
  = (rs ← mapM_r np_array l;
     match rs with
     | [] => Ok ([0%nat], [])
     | (s, _) :: _ =>
         if forallb (λ r, bool_decide (r.1 = s)) rs
         then Ok (length rs :: s, concat (map snd rs))
         else Raise ValueError
     end).
Proof.
  cbn [np_array].
  match goal with
  | |- (?go l ≫= _) = _ => assert (∀ l', go l' = mapM_r np_array l') as ->
  end; [|done].
  induction l' as [|x l' IH]; [done|]. cbn [mapM_r]. by rewrite <- IH.
Qed.

Lemma mapM_r_map_ok {A B C} (f : B → result C) (h : A → B) (k : A → C) (l : list A) :
  Forall (λ x, f (h x) = Ok (k x)) l → mapM_r f (map h l) = Ok (map k l).
Proof.
  induction 1 as [|x l Hx _ IH]; simpl; [done|]. by rewrite Hx, IH.
Qed.

Lemma chunks_length {A} (n sz : nat) (l : list A) : length (chunks n sz l) = n.
Proof. revert l. induction n as [|n IH]; intros l; simpl; [done|]. by rewrite IH. Qed.

Lemma chunks_each {A} (n sz : nat) (l : list A) :
  length l = (n * sz)%nat → Forall (λ c, length c = sz) (chunks n sz l).
Proof.
  revert l. induction n as [|n IH]; intros l Hl; simpl; constructor.
  - rewrite length_take. lia.
  - apply IH. rewrite length_drop. lia.
Qed.

Lemma concat_chunks {A} (n sz : nat) (l : list A) :
  length l = (n * sz)%nat → concat (chunks n sz l) = l.
Proof.
  revert l. induction n as [|n IH]; intros l Hl; simpl.
  - by destruct l.
  - rewrite IH by (rewrite length_drop; lia). apply take_drop.
Qed.

(** Listing an array and reading the listing back gives the elements in
    their order again; the shape read back depends on the dimensions only. *)
Lemma np_array_tolist (dims : list nat) :
  ∃ cur, ∀ data, length data = nprod dims →
    np_array (tolist_aux dims data) = Ok (cur, data).
Proof.
  induction dims as [|d ds [cur IH]].
  - exists []. intros [|x [|y data]]; try done.
  - exists (match d with O => [0%nat] | S _ => d :: cur end).
    intros data Hlen. change (nprod (d :: ds)) with (d * nprod ds)%nat in Hlen.
    cbn [tolist_aux]. rewrite np_array_PList.
    rewrite (mapM_r_map_ok np_array (tolist_aux ds) (λ c, (cur, c))).
    2:{ eapply Forall_impl; [by apply chunks_each|]. simpl. intros c Hc. by apply IH. }
    pose proof (concat_chunks d (nprod ds) data Hlen) as Hcat.
    pose proof (chunks_length d (nprod ds) data) as Hn.
    destruct (chunks d (nprod ds) data) as [|c cs] eqn:Ec; simpl.
    + simpl in Hn, Hcat. by subst.
    + rewrite bool_decide_eq_true_2 by done. simpl.
      assert (forallb (λ r : list nat * list Z, bool_decide (r.1 = cur))
                (map (λ c, (cur, c)) cs) = true) as ->.
      { apply forallb_forall. intros r Hr. apply in_map_iff in Hr as (c' & <- & _).
        by apply bool_decide_eq_true_2. }
      simpl in Hn. destruct d as [|d]; [done|].
      rewrite length_map. injection Hn as ->.
      rewrite map_map. simpl. rewrite map_id. simpl in Hcat. by rewrite Hcat.
Qed.

Lemma is_unset_tolist (a : ndarray) :
  length (a_data a) = nprod (a_shape a) →
  (a_shape a = [] → a_data a ≠ [-1]) →
  is_unset (tolist a) = Ok false.
Proof.
  unfold tolist. destruct (a_shape a) as [|d ds]; [|done].
  destruct (a_data a) as [|x [|y data]]; try done.
  intros _ H. simpl. rewrite bool_decide_eq_false_2; [done|].
  intros ->. by apply H.
Qed.

Lemma np_dtype_of_string_name (d : npdtype) : np_dtype_of_string (dtype_name d) = Ok d.
Proof. by destruct d. Qed.

Lemma zprod_of_nats (s : list nat) : zprod (map Z.of_nat s) = Z.of_nat (nprod s).
Proof.
  induction s as [|n s IH]; [done|].
  change (Z.of_nat n * zprod (map Z.of_nat s) = Z.of_nat (n * nprod s)). lia.
Qed.

Lemma to_nat_of_nats (s : list nat) : map Z.to_nat (map Z.of_nat s) = s.
Proof. induction s as [|n s IH]; simpl; [done|]. by rewrite Nat2Z.id, IH. Qed.


(** * Properties *)

(** ** Lookup by name *)

Lemma name_hits_other name i n j :
  i ≠ j → count_occ Nat.eq_dec (name_hits name i n) j = 0%nat.
Proof.
  intros Hne. unfold name_hits. rewrite count_occ_app.
  repeat case_bool_decide;
    rewrite ?(count_occ_cons_neq Nat.eq_dec _ Hne); reflexivity.
Qed.

Lemma get_node_by_name_from_lt i ns name j :
  (j < i)%nat → count_occ Nat.eq_dec (get_node_by_name_from i ns name) j = 0%nat.
Proof.
  revert i. induction ns as [|n ns IH]; intros i Hlt; simpl; [reflexivity|].
  rewrite count_occ_app. rewrite IH by lia.
  rewrite name_hits_other by lia. reflexivity.
Qed.

Lemma get_node_by_name_from_count i ns name k n :
  ns !! k = Some n →
  count_occ Nat.eq_dec (get_node_by_name_from i ns name) (i + k)%nat
  = count_occ Nat.eq_dec (name_hits name (i + k) n) (i + k)%nat.
Proof.
  revert i k. induction ns as [|m ns IH]; intros i k Hk; [done|].
  destruct k as [|k]; simpl in Hk |- *.
  - injection Hk as ->. rewrite Nat.add_0_r, count_occ_app.
    rewrite get_node_by_name_from_lt by lia. apply Nat.add_0_r.
  - rewrite count_occ_app.
    replace (i + S k)%nat with (S i + k)%nat by lia.
    rewrite (IH (S i) k Hk).
    rewrite name_hits_other by lia. reflexivity.
Qed.

(** C10: an Operator vertex whose stored [node_name] equals its display name
    is returned twice by [get_node_by_name] for that name, so the result is
    not duplicate-free. *)
Theorem get_node_by_name_twice (g : node_graph) (i : nat) (n : qtnode) :
  g_nodes g !! i = Some n →
  q_type n = ONNXNode →
  q_node_name n = q_name n →
  count_occ Nat.eq_dec (get_node_by_name g (q_name n)) i = 2%nat
  ∧ ¬ NoDup (get_node_by_name g (q_name n)).
Proof.
  intros Hi Ht Hn.
  assert (count_occ Nat.eq_dec (get_node_by_name g (q_name n)) i = 2%nat) as Hc.
  { unfold get_node_by_name.
    rewrite (get_node_by_name_from_count 0 _ _ i n Hi).
    unfold name_hits. rewrite !bool_decide_eq_true_2 by done.
    change (0 + i)%nat with i.
    rewrite count_occ_app, !count_occ_cons_eq by reflexivity. reflexivity. }
  split; [exact Hc|].
  intros Hnd. apply NoDup_ListNoDup in Hnd.
  pose proof (proj1 (NoDup_count_occ Nat.eq_dec _) Hnd i) as Hle.
  rewrite Hc in Hle. lia.
Qed.

Lemma get_node_by_name_twice_witness :
  count_occ Nat.eq_dec (get_node_by_name (graph_of [relu_vertex] []) "relu") 0%nat = 2%nat
  ∧ ¬ NoDup (get_node_by_name (graph_of [relu_vertex] []) "relu").
Proof.
  apply (get_node_by_name_twice (graph_of [relu_vertex] []) 0%nat relu_vertex);
    reflexivity.
Defined.

(** ** The error monad *)

Lemma foldM_app {A B} (f : A → B → result A) l1 l2 a :
  foldM f (l1 ++ l2) a = (a' ← foldM f l1 a; foldM f l2 a').
Proof.
  revert a. induction l1 as [|x l1 IH]; intros a; simpl; [done|].
  destruct (f a x); simpl; [apply IH|done].
Qed.

(** An invariant kept by every step is kept by the loop. *)
Lemma foldM_inv {A B} (P : A → Prop) (f : A → B → result A) l a a' :
  (∀ a x a', P a → f a x = Ok a' → P a') →
  P a → foldM f l a = Ok a' → P a'.
Proof.
  intros Hstep. revert a. induction l as [|x l IH]; intros a Ha Hf; simpl in Hf.
  - by injection Hf as <-.
  - destruct (f a x) eqn:E; simpl in Hf; [|done]. eauto.
Qed.

Lemma foldM_id {A B} (f : A → B → result A) l a :
  (∀ a x, f a x = Ok a) → foldM f l a = Ok a.
Proof.
  intros Hf. induction l as [|x l IH]; simpl; [done|]. by rewrite Hf.
Qed.

(** ** Layout and the undo bracket *)

Lemma connected_ports_no_pipes g v b i :
  g_pipes g = [] → connected_ports g v b i = [].
Proof. intros H. unfold connected_ports. rewrite H. by destruct b. Qed.

Lemma concat_nils {A B} (l : list B) : concat (map (λ _, @nil A) l) = [].
Proof. induction l; simpl; auto. Qed.

Lemma connected_input_nodes_no_pipes g v n :
  g_pipes g = [] → concat (connected_input_nodes g v n) = [].
Proof.
  intros H. unfold connected_input_nodes, connected_ports. rewrite H.
  induction (seq 0 (length (q_inputs n))) as [|i l IH]; simpl; [done|].
  exact IH.
Qed.

Lemma NodeGraphToEdges_no_pipes g b :
  g_pipes g = [] → NodeGraphToEdges g b = Ok [].
Proof.
  intros H. unfold NodeGraphToEdges. apply foldM_id.
  intros ret [i [v n]]. by rewrite connected_input_nodes_no_pipes.
Qed.

(** C9: on a graph without connections the edge list is empty, and
    [auto_layout_nodes] with undo recording returns right after
    [begin_undo]: the log gains the begin-group event and no end-group
    event. *)
Theorem auto_layout_nodes_unmatched_begin
    (layout_sugiyama : list (nat * nat) → result (list (Q * Q))) (g : node_graph) :
  g_pipes g = [] →
  auto_layout_nodes layout_sugiyama g true
  = Ok (emit g (EvBeginUndo "Auto Layout Nodes"))
  ∧ ∀ g', auto_layout_nodes layout_sugiyama g true = Ok g' →
          g_log g' = g_log g ++ [EvBeginUndo "Auto Layout Nodes"].
Proof.
  intros H.
  assert (auto_layout_nodes layout_sugiyama g true
          = Ok (emit g (EvBeginUndo "Auto Layout Nodes"))) as E.
  { unfold auto_layout_nodes.
    rewrite NodeGraphToEdges_no_pipes by exact H. reflexivity. }
  split; [exact E|].
  intros g' Hg'. rewrite E in Hg'. by injection Hg' as <-.
Qed.

Lemma auto_layout_nodes_unmatched_begin_witness :
  auto_layout_nodes (λ _, Ok []) (graph_of [relu_vertex] []) true
  = Ok (emit (graph_of [relu_vertex] []) (EvBeginUndo "Auto Layout Nodes"))
  ∧ ∀ g', auto_layout_nodes (λ _, Ok []) (graph_of [relu_vertex] []) true = Ok g' →
          g_log g' = g_log (graph_of [relu_vertex] []) ++ [EvBeginUndo "Auto Layout Nodes"].
Proof.
  apply (auto_layout_nodes_unmatched_begin (λ _, Ok []) (graph_of [relu_vertex] [])).
  reflexivity.
Defined.

(** On the path that lays vertices out, the begin-group event is matched:
    the last event is the end-group. *)
Lemma auto_layout_nodes_closes layout_sugiyama g g' edges :
  NodeGraphToEdges (emit g (EvBeginUndo "Auto Layout Nodes")) true = Ok edges →
  edges ≠ [] →
  auto_layout_nodes layout_sugiyama g true = Ok g' →
  last (g_log g') = Some EvEndUndo.
Proof.
  intros He Hne. unfold auto_layout_nodes. rewrite He. simpl.
  rewrite bool_decide_eq_false_2 by (by destruct edges).
  destruct (layout_sugiyama edges) as [coords|]; simpl; [|done].
  match goal with |- context [foldM ?f ?l ?a] => destruct (foldM f l a) end;
    simpl; [|done].
  intros [= <-]. simpl. apply last_snoc.
Qed.

(** ** Serialisation *)

(** The check fails on a model that was built: [to_onnx] returns that model,
    not null. *)
Lemma to_onnx_check_failure_returns_model :
  let export_onnx := λ graph, Ok (default_model graph) in
  let check_model := λ _ : ModelProto, Raise (ExternalError "ValidationError") in
  let g := graph_of [] [] in
  (∃ graph m,
      to_onnx_gs g = Ok graph
      ∧ to_onnx_try export_onnx check_model g graph None
        = (Some m, Raise (ExternalError "ValidationError"))
      ∧ to_onnx export_onnx check_model g = Ok (Some m))
  ∧ ¬ null_on_any_failure export_onnx check_model g.
Proof.
  split.
  - eexists _, _. repeat split; reflexivity.
  - intros H. specialize (H _ eq_refl eq_refl). discriminate H.
Qed.

(** An exception of the translation, which runs before the [try] block, is
    passed on. *)
Lemma to_onnx_translation_raises export_onnx check_model g e :
  to_onnx_gs g = Raise e → to_onnx export_onnx check_model g = Raise e.
Proof. intros He. unfold to_onnx. by rewrite He. Qed.

(** C4, as the code has it.  An exception of the translation, which runs
    before the [try] block, leaves [to_onnx].  Once the graph is translated
    nothing raised inside the block does: the result is null when
    [export_onnx] itself raised, and is the model otherwise, whatever the
    check does: with all four fields set when [ir_version] and
    [model_version] are int64 numbers, with the producer fields alone when
    the assignment of [ir_version] raises, with the producer fields and
    [ir_version] when the assignment of [model_version] raises. *)
Theorem to_onnx_swallows
    (export_onnx : gs_graph → result ModelProto)
    (check_model : ModelProto → result unit) (g : node_graph) :
  (∀ e, to_onnx_gs g = Raise e → to_onnx export_onnx check_model g = Raise e)
  ∧ ∀ graph, to_onnx_gs g = Ok graph →
      (∃ ret, to_onnx export_onnx check_model g = Ok ret)
      ∧ (∀ e, export_onnx graph = Raise e →
              to_onnx export_onnx check_model g = Ok None)
      ∧ (∀ m, export_onnx graph = Ok m →
              to_onnx export_onnx check_model g
              = Ok (Some (if negb (int64_range (g_ir_version g))
                          then stamp_producer g m
                          else if negb (int64_range (g_model_version g))
                               then stamp_ir_version g m
                               else stamp g m))).
Proof.
  split; [intros e He; unfold to_onnx; by rewrite He|].
  intros graph Hg. unfold to_onnx, to_onnx_try. rewrite Hg. simpl.
  destruct (export_onnx graph) as [m|e]; simpl.
  - destruct (negb (int64_range (g_ir_version g)));
      [|destruct (negb (int64_range (g_model_version g)))];
      (split; [by eexists|]); (split; [done|]); by intros m' [= <-].
  - split; [by eexists|]. split; [done|]. done.
Qed.

Lemma to_onnx_swallows_witness :
  to_onnx (λ graph, Ok (default_model graph))
    (λ _, Raise (ExternalError "ValidationError")) (graph_of [relu_vertex] [])
  = Ok (Some (stamp (graph_of [relu_vertex] []) (default_model exported_relu))).
Proof.
  destruct (to_onnx_swallows (λ graph, Ok (default_model graph))
              (λ _, Raise (ExternalError "ValidationError"))
              (graph_of [relu_vertex] [])) as [_ H].
  destruct (H exported_relu) as (_ & _ & Hm); [vm_compute; reflexivity|].
  apply (Hm (default_model exported_relu)). reflexivity.
Defined.

(** A graph whose [ir_version] is not an int64 number: the model comes back
    with the producer fields set and the versions it was built with. *)
Example to_onnx_half_stamped :
  to_onnx (λ graph, Ok (default_model graph)) (λ _, Ok ())
    (mk_graph "g" 13 "" "" "OnnxGraphQt" "1" (2 ^ 63) 1 [relu_vertex] [] [])
  = Ok (Some (mk_model exported_relu "OnnxGraphQt" "1"
                (m_ir_version (default_model exported_relu))
                (m_model_version (default_model exported_relu)))).
Proof. vm_compute. reflexivity. Qed.

(** ** Import: classification of tensor references *)

(** C8: the two loops of [create_qtnode] store the same reference.  For
    every tensor object that graphsurgeon builds (a [Constant], a
    [Variable], or an object of another type; the base class [gs.Tensor]
    refuses to be instantiated) the reference stored for it as an operator
    input is the one stored for it as an operator output: the name, the
    dtype, the shape and the listed values of a constant; the name, the
    dtype and the shape of a variable with a dtype; the name alone
    otherwise. *)
Theorem classify_input_output_agree (t : gs_tensor) :
  (∀ n d s v, t ≠ GsTensor n d s v) →
  classify_output t = classify_input t
  ∧ (∀ n a, t = GsConstant n a →
       classify_input t
       = Ok (mk_io n (Some (dtype_name (a_dtype a)))
               (Some (shape_of_nats (a_shape a))) (tolist a)))
  ∧ (∀ n d s, t = GsVariable n (Some d) s →
       classify_input t = Ok (mk_io n (Some (py_str_dtype (Some d))) s PNone))
  ∧ (∀ n s, t = GsVariable n None s →
       classify_input t = Ok (mk_io n None None PNone))
  ∧ (∀ n, t = GsOther n → classify_input t = Ok (mk_io n None None PNone)).
Proof.
  intros H. split.
  - destruct t; try reflexivity. by destruct (H name dtype shp _values).
  - repeat split; intros; by subst.
Qed.

Lemma classify_input_output_agree_witness :
  classify_output (GsVariable "x" (Some (DStr "float32")) (Some [DimInt 1; DimInt 3]))
  = Ok (mk_io "x" (Some "float32") (Some [DimInt 1; DimInt 3]) PNone)
  ∧ classify_input (GsVariable "x" (Some (DStr "float32")) (Some [DimInt 1; DimInt 3]))
    = Ok (mk_io "x" (Some "float32") (Some [DimInt 1; DimInt 3]) PNone).
Proof.
  destruct (classify_input_output_agree
              (GsVariable "x" (Some (DStr "float32")) (Some [DimInt 1; DimInt 3])))
    as (Hsame & _ & Hvar & _); [done|].
  rewrite Hsame. split; apply (Hvar "x" (DStr "float32")); reflexivity.
Defined.

(** The first branch of the two loops, taken only by an object whose type
    is exactly the base class, is not the same text: the input loop reads
    [dtype], the output loop reads [_values.dtype]. *)
Example classify_base_branch :
  classify_input base_tensor
  = Ok (mk_io "t" (Some "float32") (Some [DimInt 1; DimInt 3]) PNone)
  ∧ classify_output base_tensor = Raise (AttributeError "_values").
Proof. split; reflexivity. Qed.

(** ** Import: attributes *)

Lemma deepcopy_id : ∀ v, deepcopy v = v.
Proof.
  fix IH 1. intros [| | | |l|a|n a]; simpl; try reflexivity.
  - f_equal. induction l as [|x l IHl]; simpl; [reflexivity|].
    f_equal; [apply IH|apply IHl].
  - by destruct a.
  - by destruct a.
Qed.

Lemma deepcopy_attrs_id (a : attrs) : deepcopy_attrs a = a.
Proof.
  unfold deepcopy_attrs. induction a as [|[k v] a IH]; simpl; [done|].
  by rewrite deepcopy_id, IH.
Qed.

Lemma chunks_singletons (data : list Z) :
  chunks (length data) 1 data = map (λ x, [x]) data.
Proof. induction data as [|x data IH]; simpl; [done|]. by rewrite drop_0, IH. Qed.

(** A one-dimensional array lists flat. *)
Lemma tolist_1d (arr : ndarray) :
  a_shape arr = [length (a_data arr)] → tolist arr = flat_list arr.
Proof.
  intros H. unfold tolist, flat_list. rewrite H. simpl.
  change (nprod []) with 1%nat. rewrite chunks_singletons.
  f_equal. clear H. induction (a_data arr) as [|x l IH]; simpl; [done|]. by rewrite IH.
Qed.

(** A vertex just created is the last one. *)
Lemma create_node_spec uniq g t name g1 v :
  create_node uniq g t name = (g1, v) →
  v = length (g_nodes g)
  ∧ g_pipes g1 = g_pipes g
  ∧ g_log g1 = g_log g ++ [EvCreate v]
  ∧ g_nodes g1
    = g_nodes g ++ [mk_qtnode t (uniq (map q_name (g_nodes g)) name) "" "" [] [] []
                      None None (fresh_ports t).1 (fresh_ports t).2 false (0%Q, 0%Q)].
Proof. unfold create_node. intros [= <- <-]. done. Qed.

Lemma lookup_snoc {A} (l : list A) (x : A) : (l ++ [x]) !! length l = Some x.
Proof. by apply list_lookup_middle. Qed.

Lemma insert_snoc {A} (l : list A) (x y : A) : <[length l := y]> (l ++ [x]) = l ++ [y].
Proof.
  rewrite insert_app_r_alt by lia. by rewrite Nat.sub_diag.
Qed.

Lemma mapM_r_length {A B} (f : A → result B) l l' :
  mapM_r f l = Ok l' → length l' = length l.
Proof.
  revert l'. induction l as [|x l IH]; intros l'; simpl.
  - by intros [= <-].
  - destruct (f x); simpl; [|done].
    destruct (mapM_r f l) eqn:E; simpl; [|done].
    intros [= <-]. simpl. f_equal. by apply IH.
Qed.

(** What [create_qtnode] leaves behind: one more vertex, with the record's
    name, operator type, classified tensor references and imported
    attributes; its input port is gone exactly for the type ["Constant"]. *)
Lemma create_qtnode_spec uniq g x g' v :
  create_qtnode uniq g x = Ok (g', v) →
  ∃ n, v = length (g_nodes g)
    ∧ g_nodes g' = g_nodes g ++ [n]
    ∧ g_pipes g' = g_pipes g
    ∧ g_log g' = g_log g ++ [EvCreate v]
    ∧ q_type n = ONNXNode
    ∧ q_name n = uniq (map q_name (g_nodes g)) (gn_name x)
    ∧ q_node_name n = gn_name x
    ∧ q_op n = gn_op x
    ∧ import_attrs (gn_op x) (gn_attrs x) = Ok (q_attrs n)
    ∧ mapM_r (λ r, classify_input (otensor r)) (gn_inputs x) = Ok (q_onnx_inputs n)
    ∧ mapM_r (λ r, classify_output (otensor r)) (gn_outputs x) = Ok (q_onnx_outputs n)
    ∧ q_inputs n = (if bool_decide (gn_op x ∈ ["Constant"]) then [] else [mk_port false])
    ∧ q_outputs n = [mk_port false].
Proof.
  unfold create_qtnode.
  destruct (create_node uniq g ONNXNode (gn_name x)) as [g1 v1] eqn:Ec.
  apply create_node_spec in Ec as (-> & Hp & Hl & Hn).
  unfold get_node, set_node. rewrite Hn, lookup_snoc. simpl.
  destruct (mapM_r _ (gn_inputs x)) as [ins|] eqn:Ei; simpl; [|done].
  destruct (mapM_r _ (gn_outputs x)) as [outs|] eqn:Eo; simpl; [|done].
  destruct (import_attrs _ _) as [a|] eqn:Ea; simpl; [|done].
  assert ((if bool_decide (0 < length ins)%nat then ins else []) = ins) as ->.
  { destruct ins; [by case_bool_decide|].
    by rewrite bool_decide_eq_true_2 by (simpl; lia). }
  assert ((if bool_decide (0 < length outs)%nat then outs else []) = outs) as ->.
  { destruct outs; [by case_bool_decide|].
    by rewrite bool_decide_eq_true_2 by (simpl; lia). }
  case_bool_decide; simpl.
  - intros [= <- <-]. eexists. split; [done|]. simpl.
    rewrite insert_snoc. split; [done|]. simpl. done.
  - intros [= <- <-]. eexists. split; [done|]. simpl.
    rewrite insert_snoc. split; [done|]. simpl. done.
Qed.

Lemma import_attrs_constant (a : attrs) name arr :
  dict_get a "value" = Ok (PTensor name arr) →
  import_attrs "Constant" a
  = Ok [("dtype", PStr (dtype_name (a_dtype arr))); ("values", tolist arr)].
Proof. intros H. unfold import_attrs. simpl. by rewrite H. Qed.

Lemma import_attrs_other (op : string) (a : attrs) :
  op ≠ "Constant" → import_attrs op a = Ok a.
Proof.
  intros H. unfold import_attrs.
  rewrite bool_decide_eq_false_2 by (rewrite list_elem_of_singleton; done).
  by rewrite deepcopy_attrs_id.
Qed.

(** The value tensor of a Constant record of rank two is stored nested, not
    flattened. *)
Lemma constant_values_not_flattened :
  ∃ g' v n arr,
    create_qtnode keep_name (graph_of [] []) constant_2x2 = Ok (g', v)
    ∧ g_nodes g' !! v = Some n
    ∧ dict_get (gn_attrs constant_2x2) "value" = Ok (PTensor "value" arr)
    ∧ dict_get (q_attrs n) "values"
      = Ok (PList [PList [PNum 1; PNum 2]; PList [PNum 3; PNum 4]])
    ∧ dict_get (q_attrs n) "values" ≠ Ok (flat_list arr).
Proof.
  eexists _, _, _, _. split; [reflexivity|].
  split; [reflexivity|]. split; [reflexivity|]. split; [reflexivity|].
  discriminate.
Qed.

(** C7, as the code has it: the stored attributes equal the source
    attributes (they are a deep copy) unless the operator type is
    ["Constant"]; then they are exactly the two entries [dtype], the name of
    the value tensor's dtype, and [values], the value tensor's [tolist()]:
    a flat list for a one-dimensional tensor, nested lists or a bare scalar
    otherwise.  The key [value] is gone. *)
Theorem create_qtnode_attrs uniq (g : node_graph) (x : gs_node) g' v :
  create_qtnode uniq g x = Ok (g', v) →
  ∃ n, g_nodes g' !! v = Some n
    ∧ (gn_op x ≠ "Constant" → q_attrs n = gn_attrs x)
    ∧ (gn_op x = "Constant" →
         ∃ name arr,
           dict_get (gn_attrs x) "value" = Ok (PTensor name arr)
           ∧ q_attrs n = [("dtype", PStr (dtype_name (a_dtype arr)));
                          ("values", tolist arr)]
           ∧ dict_get (q_attrs n) "value" = Raise (KeyError "value")
           ∧ (a_shape arr = [length (a_data arr)] → tolist arr = flat_list arr)).
Proof.
  intros H. apply create_qtnode_spec in H
    as (n & -> & Hn & _ & _ & _ & _ & _ & Hop & Ha & _).
  exists n. split; [rewrite Hn; apply lookup_snoc|]. split.
  - intros Hne. rewrite import_attrs_other in Ha by done. by injection Ha.
  - intros Heq. rewrite Heq in Ha. unfold import_attrs in Ha. simpl in Ha.
    destruct (dict_get (gn_attrs x) "value") as [[| | | | | |name arr]|] eqn:Ev;
      simpl in Ha; try done.
    injection Ha as <-. exists name, arr.
    split; [done|]. split; [done|]. split; [reflexivity|]. apply tolist_1d.
Qed.

Lemma create_qtnode_attrs_witness :
  ∃ n, g_nodes imported_constant !! 0%nat = Some n
    ∧ (gn_op constant_2x2 ≠ "Constant" → q_attrs n = gn_attrs constant_2x2)
    ∧ (gn_op constant_2x2 = "Constant" →
         ∃ name arr,
           dict_get (gn_attrs constant_2x2) "value" = Ok (PTensor name arr)
           ∧ q_attrs n = [("dtype", PStr (dtype_name (a_dtype arr)));
                          ("values", tolist arr)]
           ∧ dict_get (q_attrs n) "value" = Raise (KeyError "value")
           ∧ (a_shape arr = [length (a_data arr)] → tolist arr = flat_list arr)).
Proof.
  apply (create_qtnode_attrs keep_name (graph_of [] []) constant_2x2
           imported_constant 0%nat).
  reflexivity.
Defined.

(** ** Export: resolution of tensor references *)

Lemma int_dims_ints (dims : list Z) : int_dims (map DimInt dims) = Ok dims.
Proof.
  unfold int_dims. induction dims as [|z dims IH]; simpl; [done|].
  by rewrite IH.
Qed.

Lemma filter_all {A} (P : A → Prop) `{∀ x, Decision (P x)} (l : list A) :
  Forall P l → filter P l = l.
Proof.
  induction 1 as [|x l Hx _ IH]; [done|].
  by rewrite filter_cons_True, IH.
Qed.

Lemma filter_none {A} (P : A → Prop) `{∀ x, Decision (P x)} (l : list A) :
  Forall (λ x, ¬ P x) l → filter P l = [].
Proof.
  induction 1 as [|x l Hx _ IH]; [done|].
  by rewrite filter_cons_False, IH.
Qed.

(** Reshaping to non-negative dimensions succeeds exactly when their product
    is the number of elements. *)
Lemma np_reshape_exact cur size (dims : list Z) :
  Forall (λ z, 0 ≤ z) dims →
  np_reshape cur size (Some (map DimInt dims))
  = if bool_decide (zprod dims = Z.of_nat size)
    then Ok (map Z.to_nat dims) else Raise ValueError.
Proof.
  intros Hpos. unfold np_reshape. rewrite int_dims_ints. simpl.
  rewrite (filter_all (λ z, 0 ≤ z)) by done.
  rewrite (filter_none (λ z, z < 0)) by (eapply Forall_impl; [done|]; simpl; lia).
  reflexivity.
Qed.

(** C3: the resolution order for a tensor reference whose name has not been
    materialised.  In each case the object made is new and is filed under
    the name.  A null dtype gives a bare variable, dtype and shape both
    null.  Otherwise absent values, or the sentinel [-1], give a variable
    with the stored dtype and shape.  Otherwise the values (the listing of
    [data] under some shape, numbers the dtype holds) become a constant
    holding [data] in the stored shape; when the stored shape does not hold
    as many elements as there are values, the resolution raises. *)
Theorem resolve_unseen (st : export_state) (io : OnnxNodeIO) :
  gs_variables_all st !! io_name io = None →
  (io_dtype io = None →
     resolve st io
     = Ok (mk_ref (next_oid st) (GsVariable (io_name io) None None),
           mk_state (<[io_name io := mk_ref (next_oid st)
                                       (GsVariable (io_name io) None None)]>
                       (gs_variables_all st))
                    (S (next_oid st))))
  ∧ (∀ d, io_dtype io = Some d →
       io_values io = PNone ∨ io_values io = PNum (-1) →
       resolve st io
       = Ok (mk_ref (next_oid st)
               (GsVariable (io_name io) (Some (DStr d)) (io_shape io)),
             mk_state (<[io_name io := mk_ref (next_oid st)
                           (GsVariable (io_name io) (Some (DStr d)) (io_shape io))]>
                         (gs_variables_all st))
                      (S (next_oid st))))
  ∧ (∀ dt vshape data dims,
       io_dtype io = Some (dtype_name dt) →
       io_values io = tolist_aux vshape data →
       length data = nprod vshape →
       io_values io ≠ PNum (-1) →
       Forall (λ z, holds_exactly dt z = true) data →
       io_shape io = Some (map DimInt dims) →
       Forall (λ z, 0 ≤ z) dims →
       (zprod dims = Z.of_nat (length data) →
          resolve st io
          = Ok (mk_ref (next_oid st)
                  (GsConstant (io_name io) (mk_ndarray dt (map Z.to_nat dims) data)),
                mk_state (<[io_name io := mk_ref (next_oid st)
                              (GsConstant (io_name io)
                                 (mk_ndarray dt (map Z.to_nat dims) data))]>
                            (gs_variables_all st))
                         (S (next_oid st))))
       ∧ (zprod dims ≠ Z.of_nat (length data) →
          resolve st io = Raise ValueError)).
Proof.
  intros Hnew. unfold resolve. rewrite Hnew. split; [|split].
  - by intros ->.
  - intros d -> [-> | ->]; reflexivity.
  - intros dt vshape data dims -> Hv Hlen Hsent _ Hs Hpos.
    assert (is_unset (io_values io) = Ok false) as ->.
    { rewrite Hv in Hsent |- *. destruct vshape as [|n vshape]; [|done].
      destruct data as [|x [|y data]]; try done. simpl in *.
      rewrite bool_decide_eq_false_2; [done|]. by intros ->. }
    unfold np_array_reshape. rewrite np_dtype_of_string_name.
    destruct (np_array_tolist vshape) as [cur Hcur].
    rewrite Hv, (Hcur _ Hlen), Hs.
    cbn -[np_reshape]. rewrite np_reshape_exact by done.
    split; intros Hp.
    + by rewrite bool_decide_eq_true_2.
    + by rewrite bool_decide_eq_false_2.
Qed.

Lemma resolve_unseen_witness :
  resolve (mk_state ∅ 0) io_2x3
  = Ok (mk_ref 0 (GsConstant "w" (mk_ndarray I64 [2%nat; 3%nat] [1; 2; 3; 4; 5; 6])),
        mk_state (<["w" := mk_ref 0 (GsConstant "w"
                     (mk_ndarray I64 [2%nat; 3%nat] [1; 2; 3; 4; 5; 6]))]> ∅) 1)
  ∧ resolve (mk_state ∅ 0) io_mismatch = Raise ValueError.
Proof.
  split.
  - destruct (resolve_unseen (mk_state ∅ 0) io_2x3) as (_ & _ & H);
      [vm_compute; reflexivity|].
    apply (H I64 [6%nat] [1; 2; 3; 4; 5; 6] [2; 3]);
      try reflexivity; try discriminate.
    + repeat constructor.
    + repeat constructor; lia.
  - destruct (resolve_unseen (mk_state ∅ 0) io_mismatch) as (_ & _ & H);
      [vm_compute; reflexivity|].
    apply (H I64 [6%nat] [1; 2; 3; 4; 5; 6] [2; 2]);
      try reflexivity; try discriminate.
    + repeat constructor.
    + repeat constructor; lia.
Defined.

(** The three outcomes on concrete references. *)
Example resolve_constant_2x3 :
  resolve (mk_state ∅ 0) io_2x3
  = Ok (new_shared (mk_state ∅ 0)
          (GsConstant "w" (mk_ndarray I64 [2%nat; 3%nat] [1; 2; 3; 4; 5; 6]))).
Proof. reflexivity. Qed.

Example resolve_mismatch_raises :
  resolve (mk_state ∅ 0) io_mismatch = Raise ValueError.
Proof. reflexivity. Qed.

(** The failure is not softened on the way out: the translation raises, and
    so does [to_onnx], whose [try] block starts after the translation. *)
Example export_mismatch_raises export_onnx check_model :
  NodeGraphtoONNX (graph_of [mismatch_vertex] []) = Raise ValueError
  ∧ to_onnx export_onnx check_model (graph_of [mismatch_vertex] []) = Raise ValueError.
Proof. split; reflexivity. Qed.

(** ** Import: how the graph evolves *)

Lemma create_qtio_spec uniq t g x g' v :
  create_qtio uniq t g x = Ok (g', v) →
  ∃ n, v = length (g_nodes g)
    ∧ g_nodes g' = g_nodes g ++ [n]
    ∧ g_pipes g' = g_pipes g
    ∧ g_log g' = g_log g ++ [EvCreate v]
    ∧ n = mk_qtnode t (uniq (map q_name (g_nodes g)) (tensor_name x))
            (tensor_name x) "" [] [] [] (q_dtype n) (q_shape n)
            (fresh_ports t).1 (fresh_ports t).2 false (0%Q, 0%Q)
    ∧ tensor_dtype x = Ok (q_dtype n)
    ∧ tensor_shape x = Ok (q_shape n).
Proof.
  unfold create_qtio.
  destruct (create_node uniq g t (tensor_name x)) as [g1 v1] eqn:Ec.
  apply create_node_spec in Ec as (-> & Hp & Hl & Hn).
  unfold get_node, set_node. rewrite Hn, lookup_snoc. simpl.
  destruct (tensor_shape x) as [s|]; simpl; [|done].
  destruct (tensor_dtype x) as [d|]; simpl; [|done].
  intros [= <- <-]. eexists. split; [done|]. simpl.
  rewrite insert_snoc. split; [done|]. done.
Qed.

Lemma connect_to_spec g s d g' :
  connect_to g s d = Ok g' →
  ∃ sn dn sp dp,
    g_nodes g !! s = Some sn ∧ q_outputs sn !! 0%nat = Some sp
    ∧ g_nodes g !! d = Some dn ∧ q_inputs dn !! 0%nat = Some dp
    ∧ g_nodes g' = g_nodes g
    ∧ g_log g' = g_log g ++ [EvConnect ((s, 0%nat), (d, 0%nat))]
    ∧ g_pipes g'
      = (if bool_decide (((s, 0%nat), (d, 0%nat)) ∈ g_pipes g)
         then g_pipes g else g_pipes g ++ [((s, 0%nat), (d, 0%nat))]).
Proof.
  unfold connect_to, get_node, output, input.
  destruct (g_nodes g !! s) as [sn|] eqn:Es; simpl; [|done].
  destruct (q_outputs sn !! 0%nat) as [sp|] eqn:Esp; simpl; [|done].
  destruct (g_nodes g !! d) as [dn|] eqn:Ed; simpl; [|done].
  destruct (q_inputs dn !! 0%nat) as [dp|] eqn:Edp; simpl; [|done].
  case_bool_decide.
  - intros [= <-]. exists sn, dn, sp, dp. by rewrite bool_decide_eq_true_2.
  - destruct (p_locked sp || p_locked dp); [done|].
    intros [= <-]. exists sn, dn, sp, dp. by rewrite bool_decide_eq_false_2.
Qed.

Lemma bind_ok {A B} (m : result A) (f : A → result B) b :
  m ≫= f = Ok b → ∃ a, m = Ok a ∧ f a = Ok b.
Proof. destruct m as [a|]; simpl; [eauto|done]. Qed.

Lemma connect_loop_inv (P : node_graph → Prop) (f h : string → result nat) l g g' :
  (∀ g s d g1, P g → connect_to g s d = Ok g1 → P g1) →
  P g →
  foldM (λ g0 k, s ← f k; d ← h k; connect_to g0 s d) l g = Ok g' → P g'.
Proof.
  intros Hconn Hg. apply foldM_inv; [|done].
  intros gc k gd Hc. destruct (f k); simpl; [|done].
  destruct (h k); simpl; [|done]. eauto.
Qed.

Lemma connect_entry_inv (P : node_graph → Prop) ins outs mio mn g entry g' :
  (∀ g s d g1, P g → connect_to g s d = Ok g1 → P g1) →
  P g → connect_entry ins outs mio mn g entry = Ok g' → P g'.
Proof.
  intros Hconn Hg. destruct entry as [key [node_inputs node_outputs]].
  unfold connect_entry. intros H.
  apply bind_ok in H as (g1 & H1 & H). apply bind_ok in H as (g2 & H2 & H).
  assert (P g1) as Hg1.
  { destruct (bool_decide (key ∈ ins)).
    - by apply (connect_loop_inv P) in H1.
    - by injection H1 as <-. }
  assert (P g2) as Hg2.
  { destruct (bool_decide (key ∈ outs)).
    - by apply (connect_loop_inv P) in H2.
    - by injection H2 as <-. }
  revert H. apply foldM_inv; [|done].
  intros ge inp gf He. by apply connect_loop_inv.
Qed.

(** Induction over the steps of the creation and wiring phase: what every
    vertex creation and every connection keeps, the phase keeps. *)
Lemma import_wire_inv (P : node_graph → Prop) uniq x g g' :
  (∀ g t tn g1 v, P g → create_qtio uniq t g tn = Ok (g1, v) → P g1) →
  (∀ g nd g1 v, P g → create_qtnode uniq g nd = Ok (g1, v) → P g1) →
  (∀ g s d g1, P g → connect_to g s d = Ok g1 → P g1) →
  P g → import_wire uniq x g = Ok g' → P g'.
Proof.
  intros Hio Hnode Hconn Hg. unfold import_wire.
  destruct (foldM _ (gg_inputs x) _) as [[g1 m1]|] eqn:E1; simpl; [|done].
  destruct (foldM _ (gg_outputs x) _) as [[g2 m2]|] eqn:E2; simpl; [|done].
  destruct (foldM _ (gg_nodes x) _) as [[g3 m3]|] eqn:E3; simpl; [|done].
  assert (P g1) as H1.
  { refine (foldM_inv (λ s : node_graph * gmap string nat, P s.1) _ _ (g, ∅) (g1, m1)
              _ Hg E1).
    intros [ga ma] r [gb mb] Ha. unfold create_qtinput.
    destruct (create_qtio uniq ONNXInput ga (otensor r)) as [[gc vc]|] eqn:Ec;
      simpl; [|done].
    intros [= <- <-]. eauto. }
  assert (P g2) as H2.
  { refine (foldM_inv (λ s : node_graph * gmap string nat, P s.1) _ _ (g1, m1) (g2, m2)
              _ H1 E2).
    intros [ga ma] r [gb mb] Ha. unfold create_qtoutput.
    destruct (create_qtio uniq ONNXOutput ga (otensor r)) as [[gc vc]|] eqn:Ec;
      simpl; [|done].
    intros [= <- <-]. eauto. }
  assert (P g3) as H3.
  { refine (foldM_inv (λ s : node_graph * gmap string nat, P s.1) _ _ (g2, ∅) (g3, m3)
              _ H2 E3).
    intros [ga ma] nd [gb mb] Ha.
    destruct (create_qtnode uniq ga nd) as [[gc vc]|] eqn:Ec; simpl; [|done].
    intros [= <- <-]. eauto. }
  clear E1 E2 E3. apply foldM_inv; [|done].
  intros ga entry gb Ha. by apply connect_entry_inv.
Qed.

Lemma foldl_inv {A B} (P : A → Prop) (f : A → B → A) l a :
  (∀ a x, P a → P (f a x)) → P a → P (foldl f a l).
Proof.
  intros Hf. revert a. induction l as [|x l IH]; intros a Ha; simpl; auto.
Qed.

(** Induction over the steps of the locking phase. *)
Lemma set_locked_inv (P : node_graph → Prop) g v b i :
  (∀ g v b i, P g → P (lock_step g v b i)) → P g → P (set_locked g v b i).
Proof. intros Hs Hg. unfold set_locked. apply foldl_inv; auto. Qed.

Lemma lock_node_inv (P : node_graph → Prop) g v :
  (∀ g v b i, P g → P (lock_step g v b i)) → P g → P (lock_node g v).
Proof.
  intros Hs Hg. unfold lock_node. destruct (g_nodes g !! v); [|done].
  apply foldl_inv; [intros; by apply set_locked_inv|].
  apply foldl_inv; [intros; by apply set_locked_inv|done].
Qed.

Lemma lock_all_inv (P : node_graph → Prop) g :
  (∀ g v b i, P g → P (lock_step g v b i)) → P g → P (lock_all g).
Proof.
  intros Hs Hg. unfold lock_all. apply foldl_inv; [|done].
  intros; by apply lock_node_inv.
Qed.

(** ** Import: locking comes after wiring *)

Lemma log_extends_refl P g : log_extends P g g.
Proof. exists []. by rewrite app_nil_r. Qed.

Lemma log_extends_snoc P g0 g g' e :
  log_extends P g0 g → g_log g' = g_log g ++ [e] → P e → log_extends P g0 g'.
Proof.
  intros (evs & Hl & Hf) Hg' He. exists (evs ++ [e]).
  rewrite Hg', Hl, app_assoc. split; [done|].
  apply Forall_app. split; [done|]. by constructor.
Qed.

(** Creation and wiring record no lock event. *)
Lemma import_wire_log uniq x g g' :
  import_wire uniq x g = Ok g' →
  log_extends (λ e, is_lock_event e = false) g g'.
Proof.
  apply import_wire_inv.
  - intros ga t tn g1 v Ha H. apply create_qtio_spec in H as (n & _ & _ & _ & Hl & _).
    by eapply log_extends_snoc.
  - intros ga nd g1 v Ha H. apply create_qtnode_spec in H as (n & _ & _ & _ & Hl & _).
    by eapply log_extends_snoc.
  - intros ga s d g1 Ha H.
    apply connect_to_spec in H as (sn & dn & sp & dp & _ & _ & _ & _ & _ & Hl & _).
    by eapply log_extends_snoc.
  - apply log_extends_refl.
Qed.

(** Locking records lock events only. *)
Lemma lock_all_log g :
  log_extends (λ e, is_lock_event e = true) g (lock_all g).
Proof.
  apply lock_all_inv; [|apply log_extends_refl].
  intros ga v b i Ha. by eapply log_extends_snoc.
Qed.

Lemma lock_step_nodes g v b i :
  g_nodes (lock_step g v b i) = alter (lock_in b i) v (g_nodes g).
Proof. reflexivity. Qed.

Lemma port_side_lock_in c b i n :
  port_side c (lock_in b i n)
  = if bool_decide (c = b) then <[i := mk_port true]> (port_side c n)
    else port_side c n.
Proof. by destruct c, b. Qed.

Lemma lock_step_lookup g v b i w n' :
  g_nodes (lock_step g v b i) !! w = Some n' →
  ∃ n, g_nodes g !! w = Some n ∧ n' = if decide (w = v) then lock_in b i n else n.
Proof.
  rewrite lock_step_nodes. destruct (decide (w = v)) as [->|Hne].
  - rewrite list_lookup_alter_eq. destruct (g_nodes g !! v) as [n|]; simpl; [|done].
    intros [= <-]. eauto.
  - rewrite list_lookup_alter_ne by done. eauto.
Qed.

Lemma lock_step_counts g v b i :
  map port_counts (g_nodes (lock_step g v b i)) = map port_counts (g_nodes g).
Proof.
  rewrite lock_step_nodes. generalize (g_nodes g) as l. revert v.
  induction v as [|v IH]; intros [|n l]; simpl; try done.
  - f_equal. unfold port_counts. destruct b; simpl; by rewrite length_insert.
  - f_equal. apply IH.
Qed.

Lemma lock_step_locks g v b i : locked_at (lock_step g v b i) v b i.
Proof.
  intros n' p Hn Hp. apply lock_step_lookup in Hn as (n & Hn & ->).
  rewrite decide_True in Hp by done.
  rewrite port_side_lock_in, bool_decide_eq_true_2 in Hp by done.
  pose proof (lookup_lt_Some _ _ _ Hp) as Hlt. rewrite length_insert in Hlt.
  rewrite list_lookup_insert_eq in Hp by done. by injection Hp as <-.
Qed.

Lemma lock_step_keeps g v b i w c j :
  locked_at g w c j → locked_at (lock_step g v b i) w c j.
Proof.
  intros Hl n' p Hn Hp. apply lock_step_lookup in Hn as (n & Hn & ->).
  destruct (decide (w = v)) as [->|]; [|by eapply Hl].
  rewrite port_side_lock_in in Hp. case_bool_decide as Hc; [|by eapply Hl].
  destruct (decide (i = j)) as [->|Hne].
  - pose proof (lookup_lt_Some _ _ _ Hp) as Hlt. rewrite length_insert in Hlt.
    rewrite list_lookup_insert_eq in Hp by done. by injection Hp as <-.
  - rewrite list_lookup_insert_ne in Hp by done. by eapply Hl.
Qed.

Lemma set_locked_locks g v b i : locked_at (set_locked g v b i) v b i.
Proof.
  unfold set_locked. apply foldl_inv; [|apply lock_step_locks].
  intros. by apply lock_step_keeps.
Qed.

Lemma set_locked_keeps g v b i w c j :
  locked_at g w c j → locked_at (set_locked g v b i) w c j.
Proof. intros H. apply set_locked_inv; [|done]. intros. by apply lock_step_keeps. Qed.

(** What each step of a loop achieves for its own element, and no later
    step undoes, holds for every element after the loop. *)
Lemma foldl_achieve {A B} (Q : B → A → Prop) (f : A → B → A) l a x :
  (∀ a, Q x (f a x)) → (∀ a y, Q x a → Q x (f a y)) →
  x ∈ l → Q x (foldl f a l).
Proof.
  intros Hach Hkeep. revert a. induction l as [|y l IH]; intros a Hin; simpl.
  - by apply not_elem_of_nil in Hin.
  - apply elem_of_cons in Hin as [<-|Hin]; [|by apply IH].
    apply foldl_inv; [|apply Hach]. intros. by apply Hkeep.
Qed.

Lemma lock_all_counts g :
  map port_counts (g_nodes (lock_all g)) = map port_counts (g_nodes g).
Proof.
  apply (lock_all_inv (λ g', map port_counts (g_nodes g') = map port_counts (g_nodes g)));
    [|done].
  intros ga v b i Ha. by rewrite lock_step_counts.
Qed.

Lemma lock_node_counts g v :
  map port_counts (g_nodes (lock_node g v)) = map port_counts (g_nodes g).
Proof.
  apply (lock_node_inv (λ g', map port_counts (g_nodes g') = map port_counts (g_nodes g)));
    [|done].
  intros ga w b i Ha. by rewrite lock_step_counts.
Qed.

Lemma counts_lookup g g' v n' :
  map port_counts (g_nodes g') = map port_counts (g_nodes g) →
  g_nodes g' !! v = Some n' →
  ∃ n, g_nodes g !! v = Some n ∧ port_counts n = port_counts n'.
Proof.
  intros Hc Hn.
  assert (map port_counts (g_nodes g') !! v = Some (port_counts n')) as H.
  { by rewrite list_lookup_fmap, Hn. }
  rewrite Hc, list_lookup_fmap in H.
  destruct (g_nodes g !! v) as [n|]; simpl in H; [|done].
  exists n. split; [done|]. injection H as H1 H2.
  unfold port_counts. by rewrite H1, H2.
Qed.

Lemma lock_node_keeps g v w c j :
  locked_at g w c j → locked_at (lock_node g v) w c j.
Proof. intros H. apply lock_node_inv; [|done]. intros. by apply lock_step_keeps. Qed.

Lemma lock_node_locks g v b i : locked_at (lock_node g v) v b i.
Proof.
  intros n' p Hn' Hp.
  destruct (counts_lookup g _ v n' (lock_node_counts g v) Hn') as (n & Hn & Hc).
  assert (i < length (port_side b n))%nat as Hlt.
  { apply lookup_lt_Some in Hp. unfold port_counts in Hc.
    injection Hc as Hc1 Hc2. destruct b; simpl in *; lia. }
  clear Hc. revert n' p Hn' Hp. change (locked_at (lock_node g v) v b i).
  unfold lock_node. rewrite Hn. destruct b; simpl in Hlt.
  - apply foldl_inv; [intros; by apply set_locked_keeps|].
    apply (foldl_achieve (λ i g, locked_at g v true i)).
    + intros. apply set_locked_locks.
    + intros. by apply set_locked_keeps.
    + apply elem_of_seq. lia.
  - apply (foldl_achieve (λ i g, locked_at g v false i)).
    + intros. apply set_locked_locks.
    + intros. by apply set_locked_keeps.
    + apply elem_of_seq. lia.
Qed.

Lemma lock_all_locks g v b i : locked_at (lock_all g) v b i.
Proof.
  intros n' p Hn' Hp.
  destruct (counts_lookup g _ v n' (lock_all_counts g) Hn') as (n & Hn & _).
  apply lookup_lt_Some in Hn.
  revert n' p Hn' Hp. change (locked_at (lock_all g) v b i).
  unfold lock_all.
  apply (foldl_achieve (λ v g, locked_at g v b i)).
  - intros. apply lock_node_locks.
  - intros. by apply lock_node_keeps.
  - apply elem_of_seq. lia.
Qed.

Lemma lock_all_all_locked g : all_ports_locked (lock_all g).
Proof.
  intros v n p Hn Hp. apply elem_of_app in Hp as [Hp|Hp];
    apply list_elem_of_lookup in Hp as [i Hi].
  - by apply (lock_all_locks g v true i n p).
  - by apply (lock_all_locks g v false i n p).
Qed.

Lemma foldl_achieve_inv {A B} (P Q : A → Prop) (f : A → B → A) l a x :
  (∀ a y, P a → P (f a y)) → (∀ a, P a → Q (f a x)) → (∀ a y, Q a → Q (f a y)) →
  P a → x ∈ l → Q (foldl f a l).
Proof.
  intros HP Hach Hkeep. revert a. induction l as [|y l IH]; intros a Ha Hin; simpl.
  - by apply not_elem_of_nil in Hin.
  - apply elem_of_cons in Hin as [<-|Hin]; [|apply IH; auto].
    apply foldl_inv; [|by apply Hach]. intros. by apply Hkeep.
Qed.

(** Every event recorded stays recorded. *)
Lemma lock_step_logged g0 e g v b i :
  logged_since g0 e g → logged_since g0 e (lock_step g v b i).
Proof.
  intros (evs & Hl & He). exists (evs ++ [EvLock v b i]).
  split; [simpl; by rewrite Hl, app_assoc|]. apply elem_of_app. by left.
Qed.

Lemma lock_step_extends g0 g v b i :
  log_extends (λ _, True) g0 g → log_extends (λ _, True) g0 (lock_step g v b i).
Proof. intros H. by eapply log_extends_snoc. Qed.

Lemma lock_step_logs g0 g v b i :
  log_extends (λ _, True) g0 g → logged_since g0 (EvLock v b i) (lock_step g v b i).
Proof.
  intros (evs & Hl & _). exists (evs ++ [EvLock v b i]).
  split; [simpl; by rewrite Hl, app_assoc|]. apply elem_of_app. right. by left.
Qed.

Lemma set_locked_logs g0 g v b i :
  log_extends (λ _, True) g0 g → logged_since g0 (EvLock v b i) (set_locked g v b i).
Proof.
  intros H. unfold set_locked. apply foldl_inv; [|by apply lock_step_logs].
  intros. by apply lock_step_logged.
Qed.

(** The locking loop of a vertex records the locking of each of its
    ports. *)
Lemma lock_node_logs g0 g v n b i :
  log_extends (λ _, True) g0 g →
  g_nodes g !! v = Some n → (i < length (port_side b n))%nat →
  logged_since g0 (EvLock v b i) (lock_node g v).
Proof.
  intros He Hn Hlt. unfold lock_node. rewrite Hn. destruct b; simpl in Hlt.
  - apply foldl_inv; [intros; apply set_locked_inv; [|done]; intros;
                      by apply lock_step_logged|].
    apply (foldl_achieve_inv (log_extends (λ _, True) g0)
             (logged_since g0 (EvLock v true i)) _ _ _ i); [| | |done|].
    + intros. apply set_locked_inv; [|done]. intros. by apply lock_step_extends.
    + intros. by apply set_locked_logs.
    + intros. apply set_locked_inv; [|done]. intros. by apply lock_step_logged.
    + apply elem_of_seq. lia.
  - apply (foldl_achieve_inv (log_extends (λ _, True) g0)
             (logged_since g0 (EvLock v false i)) _ _ _ i).
    + intros. apply set_locked_inv; [|done]. intros. by apply lock_step_extends.
    + intros. by apply set_locked_logs.
    + intros. apply set_locked_inv; [|done]. intros. by apply lock_step_logged.
    + apply foldl_inv; [|done]. intros. apply set_locked_inv; [|done].
      intros. by apply lock_step_extends.
    + apply elem_of_seq. lia.
Qed.

(** The locking pass records the locking of every port of every vertex. *)
Lemma lock_all_logs g v n b i :
  g_nodes g !! v = Some n → (i < length (port_side b n))%nat →
  logged_since g (EvLock v b i) (lock_all g).
Proof.
  intros Hn Hlt. unfold lock_all.
  apply (foldl_achieve_inv
           (λ a, log_extends (λ _, True) g a
                 ∧ map port_counts (g_nodes a) = map port_counts (g_nodes g))
           (logged_since g (EvLock v b i)) _ _ _ v).
  - intros a w [He Hc]. split.
    + apply lock_node_inv; [|done]. intros. by apply lock_step_extends.
    + by rewrite lock_node_counts.
  - intros a [He Hc].
    destruct (counts_lookup a g v n (eq_sym Hc) Hn) as (n' & Hn' & Hpc).
    apply (lock_node_logs g a v n'); [done|done|].
    unfold port_counts in Hpc. injection Hpc as H1 H2. destruct b; simpl in *; lia.
  - intros a w H. apply lock_node_inv; [|done]. intros. by apply lock_step_logged.
  - split; [apply log_extends_refl|done].
  - apply elem_of_seq. apply lookup_lt_Some in Hn. lia.
Qed.

(** Creation and wiring record no lock event, and record a connection for
    every pipe they add. *)
Lemma import_wire_connects uniq x g g' :
  import_wire uniq x g = Ok g' →
  ∃ wiring, g_log g' = g_log g ++ wiring
    ∧ Forall (λ e, is_lock_event e = false) wiring
    ∧ ∀ p, p ∈ g_pipes g' → p ∈ g_pipes g ∨ EvConnect p ∈ wiring.
Proof.
  apply (import_wire_inv
           (λ ga, ∃ wiring, g_log ga = g_log g ++ wiring
              ∧ Forall (λ e, is_lock_event e = false) wiring
              ∧ ∀ p, p ∈ g_pipes ga → p ∈ g_pipes g ∨ EvConnect p ∈ wiring)).
  - intros ga t tn g1 v (w & Hl & Hf & Hp) H.
    apply create_qtio_spec in H as (n & _ & _ & Hp1 & Hl1 & _).
    exists (w ++ [EvCreate v]). rewrite Hl1, Hl, app_assoc. split; [done|].
    split; [apply Forall_app; split; [done|by constructor]|].
    intros p Hin. rewrite Hp1 in Hin. destruct (Hp p Hin) as [|]; [by left|].
    right. apply elem_of_app. by left.
  - intros ga nd g1 v (w & Hl & Hf & Hp) H.
    apply create_qtnode_spec in H as (n & _ & _ & Hp1 & Hl1 & _).
    exists (w ++ [EvCreate v]). rewrite Hl1, Hl, app_assoc. split; [done|].
    split; [apply Forall_app; split; [done|by constructor]|].
    intros p Hin. rewrite Hp1 in Hin. destruct (Hp p Hin) as [|]; [by left|].
    right. apply elem_of_app. by left.
  - intros ga s d g1 (w & Hl & Hf & Hp) H.
    apply connect_to_spec in H as (sn & dn & sp & dp & _ & _ & _ & _ & _ & Hl1 & Hp1).
    exists (w ++ [EvConnect ((s, 0%nat), (d, 0%nat))]).
    rewrite Hl1, Hl, app_assoc. split; [done|].
    split; [apply Forall_app; split; [done|by constructor]|].
    intros p Hin. rewrite Hp1 in Hin.
    assert (p ∈ g_pipes ga ∨ p = ((s, 0%nat), (d, 0%nat))) as [Hold| ->].
    { case_bool_decide; [by left|]. apply elem_of_app in Hin as [|Hin]; [by left|].
      right. by apply list_elem_of_singleton in Hin. }
    + destruct (Hp p Hold) as [|]; [by left|]. right. apply elem_of_app. by left.
    + right. apply elem_of_app. right. by left.
  - exists []. rewrite app_nil_r. split; [done|]. split; [done|]. by left.
Qed.

(** ** Export: how the translation evolves *)

Lemma constant_node_spec st n outs nd st' :
  constant_node st n outs = Ok (nd, st') →
  ∃ d shp vals value c rest,
    (dict_get (q_attrs n) "dtype" ≫= np_dtype_of_pyval) = Ok d
    ∧ is_ok (NUMPY_TYPES_TO_ONNX_DTYPES d) = true
    ∧ map ref_name outs = c :: rest
    ∧ make_tensor d shp vals = Ok value
    ∧ (∃ av, dict_get (q_attrs n) "values" = Ok av
             ∧ (shp, vals) = match av with
                             | PList l => ([length l], av)
                             | PArray a => (a_shape a, av)
                             | _ => ([1%nat], PList [av])
                             end)
    ∧ nd = mk_gs_node (q_op n) (q_node_name n) [("value", PTensor "value" value)] []
             [mk_ref (next_oid st)
                (GsVariable c (Some (DNp d)) (Some (shape_of_nats shp)))]
    ∧ st' = mk_state (gs_variables_all st) (S (next_oid st)).
Proof.
  unfold constant_node. intros H.
  apply bind_ok in H as (dv & Hdv & H). apply bind_ok in H as (d & Hd & H).
  apply bind_ok in H as (code & Hcode & H). apply bind_ok in H as (av & Hav & H).
  destruct (match av with
            | PList l => ([length l], av)
            | PArray a => (a_shape a, av)
            | _ => ([1%nat], PList [av])
            end) as [shp vals] eqn:Eshp.
  apply bind_ok in H as (c & Hc & H). apply bind_ok in H as (value & Hval & H).
  unfold new_tensor in H. injection H as <- <-.
  destruct (map ref_name outs) as [|c' rest] eqn:Eouts; [done|].
  injection Hc as ->.
  exists d, shp, vals, value, c, rest.
  split; [by rewrite Hdv|]. split; [by rewrite Hcode|]. split; [done|].
  split; [done|]. split; [by exists av|]. done.
Qed.

Lemma export_vertex_spec acc n acc' :
  export_vertex acc n = Ok acc' →
  ∃ ins outs st1 st2 node,
    resolve_list (x_state acc) (q_onnx_inputs n) = Ok (ins, st1)
    ∧ resolve_list st1 (q_onnx_outputs n) = Ok (outs, st2)
    ∧ x_nodes acc' = x_nodes acc ++ [node]
    ∧ x_resolved acc' = x_resolved acc ++ [(ins, outs)]
    ∧ (if is_constant_op (q_op n)
       then constant_node st2 n outs = Ok (node, x_state acc')
       else node = mk_gs_node (q_op n) (q_node_name n) (q_attrs n) ins outs
            ∧ x_state acc' = st2).
Proof.
  unfold export_vertex. intros H.
  apply bind_ok in H as ([ins st1] & Hi & H).
  apply bind_ok in H as ([outs st2] & Ho & H).
  apply bind_ok in H as ([node st3] & Hn & H). injection H as <-.
  exists ins, outs, st1, st2, node. simpl.
  split; [done|]. split; [done|]. split; [done|]. split; [done|].
  destruct (is_constant_op (q_op n)); simpl in Hn; [done|].
  by injection Hn as <- <-.
Qed.

(** ** Constant operators and their input ports *)

(** A ConstantOfShape record keeps its input port, and its input tensor
    reference, through the import. *)
Lemma constant_of_shape_keeps_input :
  ONNXtoNodeGraph keep_name constant_of_shape_model (graph_of [] [])
  = Ok imported_constant_of_shape
  ∧ ∃ n, g_nodes imported_constant_of_shape !! 2%nat = Some n
       ∧ q_op n = "ConstantOfShape"
       ∧ length (q_inputs n) = 1%nat
       ∧ map io_name (q_onnx_inputs n) = ["s"].
Proof. split; [by vm_compute|]. eexists. by vm_compute. Qed.

Lemma lock_in_fields b i n :
  q_op (lock_in b i n) = q_op n
  ∧ length (q_inputs (lock_in b i n)) = length (q_inputs n)
  ∧ length (q_outputs (lock_in b i n)) = length (q_outputs n).
Proof. destruct b; simpl; rewrite ?length_insert; done. Qed.

(** C6, as the code has it: a vertex the import creates for an operator of
    type ["Constant"] has no input port when the import is over (a
    ConstantOfShape vertex keeps its port), and every operator record the
    export produces for a vertex of type ["Constant"] or
    ["ConstantOfShape"] has no inputs. *)
Theorem constant_has_no_inputs uniq (x : gs_graph) (g g' G : node_graph) (X : gs_graph) :
  ONNXtoNodeGraph uniq x g = Ok g' →
  NodeGraphtoONNX G = Ok X →
  (∀ v n, g_nodes g' !! v = Some n → (length (g_nodes g) ≤ v)%nat →
          q_op n = "Constant" → length (q_inputs n) = 0%nat)
  ∧ (∀ nd, nd ∈ gg_nodes X → is_constant_op (gn_op nd) = true →
           length (gn_inputs nd) = 0%nat).
Proof.
  intros Himp Hexp. split.
  - unfold ONNXtoNodeGraph in Himp. apply bind_ok in Himp as (g1 & Hw & H).
    injection H as <-.
    set (P := λ ga : node_graph,
           ∀ v n, g_nodes ga !! v = Some n → (length (g_nodes g) ≤ v)%nat →
                  q_op n = "Constant" → length (q_inputs n) = 0%nat).
    assert (∀ ga n, P ga → (q_op n = "Constant" → length (q_inputs n) = 0%nat) →
                    P (with_nodes ga (g_nodes ga ++ [n]))) as Hsnoc.
    { intros ga n Ha Hn v m Hv Hle Hop. simpl in Hv.
      apply lookup_app_Some in Hv as [Hv|[_ Hv]]; [by eapply Ha|].
      apply list_lookup_singleton_Some in Hv as [_ <-]. auto. }
    assert (P g1) as H1.
    { revert Hw. apply import_wire_inv.
      - intros ga t tn gb v Ha H.
        apply create_qtio_spec in H as (n & _ & Hn & _ & _ & Hf & _).
        intros w m Hm. rewrite Hn in Hm. revert w m Hm.
        apply (Hsnoc ga n Ha). rewrite Hf. simpl. done.
      - intros ga nd gb v Ha H.
        apply create_qtnode_spec in H
          as (n & _ & Hn & _ & _ & _ & _ & _ & Hop & _ & _ & _ & Hin & _).
        intros w m Hm. rewrite Hn in Hm. revert w m Hm.
        apply (Hsnoc ga n Ha). intros Hc. rewrite Hin, <- Hop, Hc. done.
      - intros ga s d gb Ha H.
        apply connect_to_spec in H as (? & ? & ? & ? & _ & _ & _ & _ & Hn & _).
        intros w m Hm. rewrite Hn in Hm. by eapply Ha.
      - intros v n Hv Hle. apply lookup_lt_Some in Hv. lia. }
    apply (lock_all_inv P); [|done].
    intros ga v b i Ha w m Hm Hle Hop.
    apply lock_step_lookup in Hm as (n & Hn & ->).
    destruct (decide (w = v)); [|by eapply Ha].
    destruct (lock_in_fields b i n) as (Ho & Hi & _).
    rewrite Hi. rewrite Ho in Hop. by eapply Ha.
  - unfold NodeGraphtoONNX in Hexp.
    apply bind_ok in Hexp as ([[ins outs] acc] & Hrun & H). injection H as <-.
    simpl. unfold export_run in Hrun.
    destruct (export_io _ (get_nodes_by_type G ONNXInput)) as [iv st1].
    destruct (export_io st1 _) as [ov st2].
    apply bind_ok in Hrun as (acc' & Hfold & H). injection H as _ _ ->.
    revert Hfold.
    apply (foldM_inv (λ a, ∀ nd, nd ∈ x_nodes a → is_constant_op (gn_op nd) = true →
                                 length (gn_inputs nd) = 0%nat)).
    + intros a n a' Ha H nd Hnd Hc.
      apply export_vertex_spec in H as (ri & ro & s1 & s2 & node & _ & _ & Hn & _ & Hk).
      rewrite Hn in Hnd. apply elem_of_app in Hnd as [Hnd|Hnd]; [by apply Ha|].
      apply list_elem_of_singleton in Hnd as ->.
      destruct (is_constant_op (q_op n)) eqn:Ec.
      * apply constant_node_spec in Hk
          as (? & ? & ? & ? & ? & ? & _ & _ & _ & _ & _ & -> & _). done.
      * destruct Hk as [-> _]. simpl in Hc. congruence.
    + intros nd Hnd. by apply not_elem_of_nil in Hnd.
Qed.

Lemma constant_has_no_inputs_witness :
  (∀ v n, g_nodes imported_constant_model !! v = Some n →
          (length (g_nodes (graph_of [] [])) ≤ v)%nat →
          q_op n = "Constant" → length (q_inputs n) = 0%nat)
  ∧ (∀ nd, nd ∈ gg_nodes exported_constant_relu → is_constant_op (gn_op nd) = true →
           length (gn_inputs nd) = 0%nat).
Proof.
  apply (constant_has_no_inputs keep_name constant_model (graph_of [] [])
           imported_constant_model constant_relu_graph exported_constant_relu);
    vm_compute; reflexivity.
Defined.

(** ** Export: one object per name *)

Lemma wf_state_insert st t :
  wf_state st → wf_state (new_shared st t).2.
Proof.
  intros Hwf k r. simpl. destruct (decide (k = tensor_name t)) as [->|Hne].
  - rewrite lookup_insert_eq. by intros [= <-].
  - rewrite lookup_insert_ne by done. apply Hwf.
Qed.

Lemma new_shared_spec st t r st' :
  gs_variables_all st !! tensor_name t = None →
  new_shared st t = (r, st') →
  gs_variables_all st ⊆ gs_variables_all st'
  ∧ gs_variables_all st' !! tensor_name t = Some r
  ∧ otensor r = t.
Proof.
  intros Hnone H. unfold new_shared in H. injection H as <- <-. simpl.
  split; [by apply insert_subseteq|]. split; [by rewrite lookup_insert_eq|done].
Qed.

Lemma resolve_spec st io r st' :
  wf_state st → resolve st io = Ok (r, st') →
  wf_state st'
  ∧ gs_variables_all st ⊆ gs_variables_all st'
  ∧ gs_variables_all st' !! io_name io = Some r.
Proof.
  intros Hwf. unfold resolve.
  destruct (gs_variables_all st !! io_name io) as [v|] eqn:Hl.
  { by intros [= <- <-]. }
  assert (∀ t, tensor_name t = io_name io → Ok (new_shared st t) = Ok (r, st') →
               wf_state st' ∧ gs_variables_all st ⊆ gs_variables_all st'
               ∧ gs_variables_all st' !! io_name io = Some r) as Hnew.
  { intros t Ht H0.
    assert (new_shared st t = (r, st')) as H by congruence. clear H0. split.
    - replace st' with (new_shared st t).2 by (by rewrite H). by apply wf_state_insert.
    - rewrite <- Ht in Hl |- *. by apply new_shared_spec in H as (? & ? & _). }
  destruct (io_dtype io) as [d|]; [|by apply Hnew].
  destruct (is_unset (io_values io)) as [[|]|]; simpl; [by apply Hnew| |done].
  destruct (np_array_reshape _ _ _) as [arr|]; simpl; [by apply Hnew|done].
Qed.

Lemma resolve_list_spec st ios rs st' :
  wf_state st → resolve_list st ios = Ok (rs, st') →
  wf_state st'
  ∧ gs_variables_all st ⊆ gs_variables_all st'
  ∧ Forall2 (λ io r, gs_variables_all st' !! io_name io = Some r) ios rs.
Proof.
  revert st rs. induction ios as [|io ios IH]; intros st rs Hwf; simpl.
  - intros [= <- <-]. by repeat split.
  - intros H. apply bind_ok in H as ([r st1] & Hr & H).
    apply bind_ok in H as ([rs' st2] & Hrs & H). injection H as <- <-.
    apply resolve_spec in Hr as (Hwf1 & Hsub1 & Hl1); [|done].
    apply IH in Hrs as (Hwf2 & Hsub2 & Hl2); [|done].
    split; [done|]. split; [by etrans|].
    constructor; [|done]. by eapply lookup_weaken.
Qed.

Lemma Forall2_lookup_names (m : gmap string gs_ref) ios rs :
  (∀ k r, m !! k = Some r → ref_name r = k) →
  Forall2 (λ io r, m !! io_name io = Some r) ios rs →
  map ref_name rs = map io_name ios.
Proof.
  intros Hwf. induction 1 as [|io r ios rs Hr _ IH]; simpl; [done|].
  by rewrite (Hwf _ _ Hr), IH.
Qed.

Lemma Forall2_weaken_map (m m' : gmap string gs_ref) ios rs :
  m ⊆ m' →
  Forall2 (λ io r, m !! io_name io = Some r) ios rs →
  Forall2 (λ io r, m' !! io_name io = Some r) ios rs.
Proof.
  intros Hsub H. eapply Forall2_impl; [exact H|].
  intros io r Hl. simpl in *. exact (lookup_weaken _ _ _ _ Hl Hsub).
Qed.

Lemma export_io_wf st ns vs st' :
  wf_state st → export_io st ns = (vs, st') → wf_state st'.
Proof.
  unfold export_io. intros Hwf.
  assert (∀ acc : list gs_ref * export_state, wf_state acc.2 →
            wf_state (foldl (λ '(vs, st) n,
                        let '(v, st') := new_shared st
                              (GsVariable (q_name n) (q_dtype n) (q_shape n)) in
                        (vs ++ [v], st')) acc ns).2) as H.
  { induction ns as [|n ns IH]; intros [vs0 st0] H0; simpl; [done|].
    apply IH. simpl. by apply (wf_state_insert st0). }
  intros E. specialize (H ([], st) Hwf). by rewrite E in H.
Qed.

(** The invariant of the loop over the Operator vertices. *)
Lemma export_vertex_shared acc n acc' :
  export_vertex acc n = Ok acc' →
  wf_state (x_state acc) →
  (∀ r, r ∈ resolved_refs acc → gs_variables_all (x_state acc) !! ref_name r = Some r) →
  wf_state (x_state acc')
  ∧ (∀ r, r ∈ resolved_refs acc' →
          gs_variables_all (x_state acc') !! ref_name r = Some r).
Proof.
  intros H Hwf Hold.
  apply export_vertex_spec in H as (ins & outs & st1 & st2 & node & Hi & Ho & _ & Hr & Hk).
  apply resolve_list_spec in Hi as (Hwf1 & Hsub1 & Hl1); [|done].
  apply resolve_list_spec in Ho as (Hwf2 & Hsub2 & Hl2); [|done].
  assert (gs_variables_all (x_state acc') = gs_variables_all st2) as Hmap.
  { destruct (is_constant_op (q_op n)).
    - by apply constant_node_spec in Hk as (? & ? & ? & ? & ? & ? & _ & _ & _ & _ & _ & _ & ->).
    - by destruct Hk as [_ ->]. }
  split; [intros k r; rewrite Hmap; apply Hwf2|].
  intros r. unfold resolved_refs. rewrite Hr, map_app, concat_app. simpl.
  rewrite app_nil_r, Hmap. rewrite !elem_of_app. intros [Hin|[Hin|Hin]].
  - eapply lookup_weaken; [|exact Hsub2]. eapply lookup_weaken; [|exact Hsub1].
    by apply Hold.
  - apply (Forall2_weaken_map _ _ _ _ Hsub2) in Hl1.
    pose proof (Forall2_lookup_names _ _ _ Hwf2 Hl1) as Hnames.
    apply list_elem_of_lookup in Hin as [i Hi].
    destruct (Forall2_lookup_r _ _ _ _ _ Hl1 Hi) as (io & Hio & Hlk).
    by rewrite (Hwf2 _ _ Hlk).
  - apply list_elem_of_lookup in Hin as [i Hi].
    destruct (Forall2_lookup_r _ _ _ _ _ Hl2 Hi) as (io & Hio & Hlk).
    by rewrite (Hwf2 _ _ Hlk).
Qed.

(** The loop over the Operator vertices resolves, for every vertex, one
    object per tensor reference, carrying the reference's name. *)
Lemma export_loop_names ns : ∀ acc acc',
  wf_state (x_state acc) →
  foldM export_vertex ns acc = Ok acc' →
  ∃ rs, x_resolved acc' = x_resolved acc ++ rs
      ∧ Forall2 (λ n (p : list gs_ref * list gs_ref),
                   map ref_name p.1 = map io_name (q_onnx_inputs n)
                   ∧ map ref_name p.2 = map io_name (q_onnx_outputs n)) ns rs.
Proof.
  induction ns as [|n ns IH]; intros acc acc' Hwf H.
  - injection H as <-. exists []. by rewrite app_nil_r.
  - cbn [foldM] in H. apply bind_ok in H as (acc1 & H1 & H).
    pose proof H1 as Hs.
    apply export_vertex_spec in Hs as (ins & outs & st1 & st2 & node & Hi & Ho & _ & Hr & Hk).
    apply resolve_list_spec in Hi as (Hwf1 & Hsub1 & Hl1); [|done].
    apply resolve_list_spec in Ho as (Hwf2 & Hsub2 & Hl2); [|done].
    assert (wf_state (x_state acc1)) as Hwf'.
    { assert (gs_variables_all (x_state acc1) = gs_variables_all st2) as Hmap.
      { destruct (is_constant_op (q_op n)).
        - by apply constant_node_spec in Hk
            as (? & ? & ? & ? & ? & ? & _ & _ & _ & _ & _ & _ & ->).
        - by destruct Hk as [_ ->]. }
      intros k r. rewrite Hmap. apply Hwf2. }
    destruct (IH acc1 acc' Hwf' H) as (rs & Hrs & Hall).
    exists ((ins, outs) :: rs). rewrite Hrs, Hr, <- app_assoc. split; [done|].
    constructor; [|done]. simpl. split.
    + by apply (Forall2_lookup_names (gs_variables_all st1)).
    + by apply (Forall2_lookup_names (gs_variables_all st2)).
Qed.

(** In the exported graph the output of the Constant record and the input
    of the Relu record that consumes it carry the same name and are two
    objects: the record of a constant-producing vertex is rebuilt from the
    name of its output. *)
Lemma constant_output_not_shared :
  NodeGraphtoONNX constant_relu_graph = Ok exported_constant_relu
  ∧ ∃ c r, (gn_outputs <$> gg_nodes exported_constant_relu !! 0%nat) = Some [c]
         ∧ (gn_inputs <$> gg_nodes exported_constant_relu !! 1%nat) = Some [r]
         ∧ ref_name c = "k" ∧ ref_name r = "k"
         ∧ oid c ≠ oid r.
Proof.
  split; [by vm_compute|]. eexists _, _.
  split; [by vm_compute|]. split; [by vm_compute|].
  split; [by vm_compute|]. split; [by vm_compute|]. by vm_compute.
Qed.



(** ** The round trip: what the export hands over *)

Lemma plain_state_insert st t :
  plain t → plain_state st → plain_state (new_shared st t).2.
Proof.
  intros Ht Hp k r. simpl. destruct (decide (k = tensor_name t)) as [->|Hne].
  - rewrite lookup_insert_eq. by intros [= <-].
  - rewrite lookup_insert_ne by done. apply Hp.
Qed.

Lemma resolve_plain st io r st' :
  plain_state st → resolve st io = Ok (r, st') → plain_state st'.
Proof.
  intros Hp. unfold resolve.
  destruct (gs_variables_all st !! io_name io) as [v|] eqn:Hl.
  { by intros [= <- <-]. }
  assert (∀ t, plain t → Ok (new_shared st t) = Ok (r, st') → plain_state st') as Hnew.
  { intros t Ht H0.
    assert (new_shared st t = (r, st')) as H by congruence.
    replace st' with (new_shared st t).2 by (by rewrite H).
    by apply plain_state_insert. }
  destruct (io_dtype io) as [d|]; [|by apply Hnew].
  destruct (is_unset (io_values io)) as [[|]|]; simpl; [by apply Hnew| |done].
  destruct (np_array_reshape _ _ _) as [arr|]; simpl; [by apply Hnew|done].
Qed.

Lemma resolve_list_plain st ios rs st' :
  plain_state st → resolve_list st ios = Ok (rs, st') → plain_state st'.
Proof.
  revert st rs. induction ios as [|io ios IH]; intros st rs Hp; simpl.
  - by intros [= <- <-].
  - intros H. apply bind_ok in H as ([r st1] & Hr & H).
    apply bind_ok in H as ([rs' st2] & Hrs & H). injection H as <- <-.
    eapply IH; [|exact Hrs]. by eapply resolve_plain.
Qed.

Lemma export_io_spec st ns vs st' :
  export_io st ns = (vs, st') →
  map otensor vs = map (λ n, GsVariable (q_name n) (q_dtype n) (q_shape n)) ns
  ∧ (wf_state st → wf_state st')
  ∧ (plain_state st → plain_state st').
Proof.
  unfold export_io.
  assert (∀ vs0 st0,
            foldl (λ '(vs, st) n,
                     let '(v, st') := new_shared st
                           (GsVariable (q_name n) (q_dtype n) (q_shape n)) in
                     (vs ++ [v], st')) (vs0, st0) ns = (vs, st') →
            map otensor vs
            = map otensor vs0
              ++ map (λ n, GsVariable (q_name n) (q_dtype n) (q_shape n)) ns
            ∧ (wf_state st0 → wf_state st')
            ∧ (plain_state st0 → plain_state st')) as H.
  { induction ns as [|n ns IH]; intros vs0 st0; simpl.
    - intros [= <- <-]. by rewrite app_nil_r.
    - intros H. apply IH in H as (Hv & Hwf & Hp). split; [|split].
      + rewrite Hv, map_app. simpl. by rewrite <- app_assoc.
      + intros H0. apply Hwf. by apply (wf_state_insert st0).
      + intros H0. apply Hp. by apply (plain_state_insert st0). }
  intros E. by apply H in E.
Qed.

Lemma all_nums (P : Z → bool) (l : list pyval) :
  forallb (λ v, match v with PNum z => P z | _ => false end) l = true →
  ∃ zs, l = map PNum zs.
Proof.
  induction l as [|v l IH]; simpl; [by exists []|].
  destruct v; try done. rewrite andb_true_iff. intros [_ H].
  destruct (IH H) as [zs ->]. by exists (z :: zs).
Qed.

Lemma canonical_constant_spec n :
  canonical_constant n = true →
  ∃ d zs io,
    q_attrs n = [("dtype", PStr (dtype_name d)); ("values", PList (map PNum zs))]
    ∧ np_dtype_of_string (dtype_name d) = Ok d
    ∧ is_ok (NUMPY_TYPES_TO_ONNX_DTYPES d) = true
    ∧ q_onnx_inputs n = []
    ∧ q_onnx_outputs n = [io].
Proof.
  unfold canonical_constant. rewrite !andb_true_iff, !bool_decide_eq_true.
  intros [[Ha Hi] Ho].
  destruct (q_attrs n) as [|[k1 [| | |s| | |]] [|[k2 [| | | |l| |]] [|]]]; try done.
  rewrite !andb_true_iff, !bool_decide_eq_true in Ha.
  destruct Ha as [[-> ->] Hd].
  apply existsb_exists in Hd as (d & Hin & Hd).
  apply andb_true_iff in Hd as [Hs Hl]. apply bool_decide_eq_true in Hs as ->.
  apply all_nums in Hl as [zs ->].
  destruct (q_onnx_outputs n) as [|io [|]]; try done.
  exists d, zs, io. simpl in Hin.
  destruct Hin as [<-|[<-|[<-|[<-|[]]]]]; done.
Qed.

Lemma np_array_nums zs : np_array (PList (map PNum zs)) = Ok ([length zs], zs).
Proof.
  rewrite np_array_PList.
  rewrite (mapM_r_map_ok np_array PNum (λ z, ([], [z])))
    by (apply Forall_forall; done).
  assert (concat (map snd (map (λ z : Z, ([] : list nat, [z])) zs)) = zs) as Hc.
  { induction zs as [|z zs IH]; simpl; [done|]. by rewrite IH. }
  destruct zs as [|z zs]; [done|].
  simpl.
  match goal with
  | |- context [forallb ?f ?l] => assert (forallb f l = true) as ->
  end.
  { apply forallb_forall. intros r Hr. apply in_map_iff in Hr as (c' & <- & _).
    by apply bool_decide_eq_true_2. }
  simpl in Hc. injection Hc as ->. by rewrite length_map.
Qed.

Lemma make_tensor_list d zs :
  make_tensor d [length (map PNum zs)] (PList (map PNum zs))
  = Ok (mk_ndarray d [length zs] zs).
Proof.
  unfold make_tensor. rewrite np_array_nums. simpl.
  change (nprod [length (map PNum zs)]) with (length (map PNum zs) * 1)%nat.
  rewrite length_map, Nat.mul_1_r, bool_decide_eq_true_2 by done. done.
Qed.

Lemma resolved_plain st rs ios :
  plain_state st →
  Forall2 (λ io r, gs_variables_all st !! io_name io = Some r) ios rs →
  Forall (λ r, plain (otensor r)) rs.
Proof.
  intros Hp. induction 1 as [|io r ios rs Hr _ IH]; constructor; [|done].
  by eapply Hp.
Qed.

(** One step of the export loop on a supported vertex. *)
Lemma export_vertex_matches acc n acc' :
  supported_op n = true →
  wf_state (x_state acc) → plain_state (x_state acc) →
  export_vertex acc n = Ok acc' →
  ∃ nd, x_nodes acc' = x_nodes acc ++ [nd]
      ∧ node_matches n nd
      ∧ wf_state (x_state acc') ∧ plain_state (x_state acc').
Proof.
  intros Hsup Hwf Hp H.
  apply export_vertex_spec in H
    as (ins & outs & st1 & st2 & nd & Hi & Ho & Hn & _ & Hk).
  pose proof (resolve_list_plain _ _ _ _ Hp Hi) as Hp1.
  pose proof (resolve_list_plain _ _ _ _ Hp1 Ho) as Hp2.
  apply resolve_list_spec in Hi as (Hwf1 & Hsub1 & Hl1); [|done].
  apply resolve_list_spec in Ho as (Hwf2 & Hsub2 & Hl2); [|done].
  apply (Forall2_weaken_map _ _ _ _ Hsub2) in Hl1.
  pose proof (Forall2_lookup_names _ _ _ Hwf2 Hl1) as Hni.
  pose proof (Forall2_lookup_names _ _ _ Hwf2 Hl2) as Hno.
  pose proof (resolved_plain _ _ _ Hp2 Hl1) as Hpi.
  pose proof (resolved_plain _ _ _ Hp2 Hl2) as Hpo.
  exists nd. split; [done|].
  unfold supported_op in Hsup. apply andb_true_iff in Hsup as [Hcos Hcan].
  apply bool_decide_eq_true in Hcos.
  destruct (is_constant_op (q_op n)) eqn:Ec.
  - assert (q_op n = "Constant") as Hop.
    { unfold is_constant_op in Ec. apply bool_decide_eq_true in Ec.
      rewrite !elem_of_cons, elem_of_nil in Ec.
      destruct Ec as [Ec|[Ec|[]]]; [done|by rewrite Ec in Hcos]. }
    rewrite bool_decide_eq_true_2 in Hcan by done.
    apply canonical_constant_spec in Hcan as (d & zs & io & Ha & Hd & Hc & Hin & Hout).
    apply constant_node_spec in Hk
      as (d' & shp & vals & value & c & rest & Hd' & _ & Hc' & Hval & Hav & -> & ->).
    rewrite Ha in Hd', Hav. simpl in Hd'. rewrite Hd in Hd'. injection Hd' as <-.
    destruct Hav as (av & Hav & Hshp). simpl in Hav. injection Hav as <-.
    injection Hshp as -> ->. rewrite make_tensor_list in Hval. injection Hval as <-.
    rewrite Hout in Hno, Hl2. rewrite Hno in Hc'. simpl in Hc'. injection Hc' as <- <-.
    split; [|by split].
    unfold node_matches. simpl. rewrite Hin, Hout, Hop, Ha. simpl.
    repeat split; try done.
    + repeat constructor.
    + unfold import_attrs. simpl.
      by rewrite (tolist_1d (mk_ndarray d [length zs] zs) eq_refl).
  - destruct Hk as [-> ->]. split; [|by split].
    unfold node_matches. simpl. repeat split; try done.
    + apply Forall_app. by split.
    + apply import_attrs_other. intros Hop. unfold is_constant_op in Ec.
      apply bool_decide_eq_false in Ec. apply Ec. rewrite Hop. set_solver.
Qed.

Lemma export_loop_matches ns acc acc' :
  forallb supported_op ns = true →
  wf_state (x_state acc) → plain_state (x_state acc) →
  foldM export_vertex ns acc = Ok acc' →
  ∃ nds, x_nodes acc' = x_nodes acc ++ nds ∧ Forall2 node_matches ns nds.
Proof.
  revert acc. induction ns as [|n ns IH]; intros acc Hsup Hwf Hp; simpl.
  - intros [= <-]. exists []. by rewrite app_nil_r.
  - simpl in Hsup. apply andb_true_iff in Hsup as [Hn Hns].
    intros H. apply bind_ok in H as (acc1 & H1 & H).
    apply export_vertex_matches in H1 as (nd & Hnd & Hm & Hwf1 & Hp1); try done.
    apply IH in H as (nds & Hnds & Hms); try done.
    exists (nd :: nds). rewrite Hnds, Hnd, <- app_assoc. by split; [|constructor].
Qed.

(** What the import reads of the exported graph of a supported graph. *)
Lemma export_supported g x :
  supported g = true → NodeGraphtoONNX g = Ok x →
  map otensor (gg_inputs x)
  = map (λ n, GsVariable (q_name n) (q_dtype n) (q_shape n))
        (get_nodes_by_type g ONNXInput)
  ∧ map otensor (gg_outputs x)
    = map (λ n, GsVariable (q_name n) (q_dtype n) (q_shape n))
          (get_nodes_by_type g ONNXOutput)
  ∧ Forall2 node_matches (get_nodes_by_type g ONNXNode) (gg_nodes x).
Proof.
  intros Hsup H. unfold supported in Hsup.
  apply andb_true_iff in Hsup as [_ Hops].
  unfold NodeGraphtoONNX in H. apply bind_ok in H as ([[ins outs] acc] & Hrun & H).
  injection H as <-. simpl. unfold export_run in Hrun.
  destruct (export_io _ (get_nodes_by_type g ONNXInput)) as [iv st1] eqn:E1.
  destruct (export_io st1 _) as [ov st2] eqn:E2.
  apply bind_ok in Hrun as (acc' & Hfold & H). injection H as <- <- <-.
  apply export_io_spec in E1 as (Hi & Hwf1 & Hp1).
  apply export_io_spec in E2 as (Ho & Hwf2 & Hp2).
  split; [done|]. split; [done|].
  apply export_loop_matches in Hfold as (nds & Hn & Hm); try done.
  - simpl in Hn. by rewrite Hn.
  - apply Hwf2, Hwf1. intros k r. simpl. by rewrite lookup_empty.
  - apply Hp2, Hp1. intros k r. simpl. by rewrite lookup_empty.
Qed.

(** ** The round trip: creating the vertices *)

Lemma names_from_empty base : names_from ∅ [] base.
Proof.
  intros t v. rewrite lookup_empty. split; [done|].
  intros (i & _ & Hi). by rewrite lookup_nil in Hi.
Qed.

Lemma names_from_snoc m names base t :
  names_from m names base → t ∉ names →
  names_from (<[t := (base + length names)%nat]> m) (names ++ [t]) base.
Proof.
  intros Hm Hnew k v. destruct (decide (k = t)) as [->|Hne].
  - rewrite lookup_insert_eq. split.
    + intros [= <-]. exists (length names). split; [done|]. by apply list_lookup_middle.
    + intros (i & -> & Hi). apply lookup_app_Some in Hi as [Hi|[Hle Hi]].
      * exfalso. apply Hnew. by eapply list_elem_of_lookup_2.
      * apply list_lookup_singleton_Some in Hi as [Hi _]. f_equal. lia.
  - rewrite lookup_insert_ne by done. rewrite (Hm k v). split.
    + intros (i & -> & Hi). exists i. split; [done|]. by apply lookup_app_l_Some.
    + intros (i & -> & Hi). exists i. split; [done|].
      apply lookup_app_Some in Hi as [Hi|[_ Hi]]; [done|].
      apply list_lookup_singleton_Some in Hi as [_ Hi]. congruence.
Qed.

Lemma plain_fields x :
  plain x → ∃ d s, tensor_dtype x = Ok d ∧ tensor_shape x = Ok s.
Proof. destruct x; simpl; try done; eauto. Qed.

Lemma create_qtio_ok uniq t g x :
  plain x → ∃ g', create_qtio uniq t g x = Ok (g', length (g_nodes g)).
Proof.
  intros Hx. destruct (plain_fields x Hx) as (d & s & Hd & Hs). unfold create_qtio.
  destruct (create_node uniq g t (tensor_name x)) as [g1 v1] eqn:Ec.
  apply create_node_spec in Ec as (-> & _ & _ & Hn).
  unfold get_node. rewrite Hn, lookup_snoc, Hs, Hd. simpl. eauto.
Qed.

Lemma NoDup_app_head {A} (l : list A) x l' :
  NoDup (l ++ (x :: l')) → (x ∉ l) ∧ NoDup ((l ++ [x]) ++ l').
Proof.
  intros H. rewrite <- app_assoc. simpl. split; [|done].
  apply NoDup_app in H as (_ & H & _). intros Hin. apply (H x Hin). by left.
Qed.

(** The loop that creates the Input, or the Output, vertices. *)
Lemma create_io_loop uniq t (refs : list gs_ref) g m :
  (∀ used r, r ∈ refs → ref_name r ∉ used → uniq used (ref_name r) = ref_name r) →
  Forall (λ r, plain (otensor r)) refs →
  NoDup (map q_name (g_nodes g) ++ map ref_name refs) →
  names_from m (map q_name (g_nodes g)) 0 →
  ∃ g' m' ns,
    foldM (λ '(g, m) (r : gs_ref),
             '(g', v) ← create_qtio uniq t g (otensor r);
             Ok (g', <[ref_name r := v]> m)) refs (g, m) = Ok (g', m')
    ∧ g_nodes g' = g_nodes g ++ ns
    ∧ g_pipes g' = g_pipes g
    ∧ Forall2 (λ r n, io_created t (otensor r) n) refs ns
    ∧ names_from m' (map q_name (g_nodes g')) 0.
Proof.
  revert g m.
  induction refs as [|r refs IH]; intros g m Huniq Hplain Hnd Hm; simpl.
  - exists g, m, []. by rewrite app_nil_r.
  - apply Forall_cons in Hplain as [Hr Hplain].
    apply NoDup_app_head in Hnd as [Hnew Hnd].
    destruct (create_qtio_ok uniq t g (otensor r) Hr) as [g1 E1].
    rewrite E1. simpl.
    apply create_qtio_spec in E1 as (n & _ & Hn & Hp & _ & Hrec & Hd & Hs).
    assert (q_name n = ref_name r) as Hname.
    { rewrite Hrec. simpl. apply Huniq; [by left|done]. }
    destruct (IH g1 (<[ref_name r := length (g_nodes g)]> m)) as (g' & m' & ns & E & Hn' & Hp' & Hf & Hm').
    + intros used r' Hr'. apply Huniq. by right.
    + done.
    + rewrite Hn, map_app. simpl. by rewrite Hname.
    + rewrite Hn, map_app. simpl. rewrite Hname.
      replace (length (g_nodes g)) with (0 + length (map q_name (g_nodes g)))%nat
        by (by rewrite length_map).
      by apply names_from_snoc.
    + exists g', m', (n :: ns). split; [done|].
      split; [by rewrite Hn', Hn, <- app_assoc|]. split; [congruence|].
      split; [|done]. constructor; [|done].
      unfold io_created. rewrite Hrec. simpl. rewrite Hrec in Hname, Hd, Hs.
      simpl in *. done.
Qed.

Lemma classify_plain t :
  plain t →
  ∃ io, classify_input t = Ok io ∧ classify_output t = Ok io
      ∧ io_name io = tensor_name t.
Proof.
  destruct t as [| n [d|] s | n a |]; simpl; try done; intros _; eexists; done.
Qed.

Lemma mapM_classify (rs : list gs_ref) :
  Forall (λ r, plain (otensor r)) rs →
  ∃ ios, mapM_r (λ r, classify_input (otensor r)) rs = Ok ios
       ∧ mapM_r (λ r, classify_output (otensor r)) rs = Ok ios
       ∧ map io_name ios = map ref_name rs.
Proof.
  induction 1 as [|r rs Hr _ (ios & Hi & Ho & Hn)]; simpl; [by exists []|].
  destruct (classify_plain _ Hr) as (io & Hci & Hco & Hname).
  exists (io :: ios). rewrite Hci, Hco, Hi, Ho. simpl.
  split; [done|]. split; [done|]. by rewrite Hn, Hname.
Qed.

Lemma create_qtnode_ok uniq g nd a :
  Forall (λ r, plain (otensor r)) (gn_inputs nd ++ gn_outputs nd) →
  import_attrs (gn_op nd) (gn_attrs nd) = Ok a →
  ∃ g', create_qtnode uniq g nd = Ok (g', length (g_nodes g)).
Proof.
  intros Hp Ha. apply Forall_app in Hp as [Hpi Hpo].
  destruct (mapM_classify _ Hpi) as (ins & Hi & _ & _).
  destruct (mapM_classify _ Hpo) as (outs & _ & Ho & _).
  unfold create_qtnode.
  destruct (create_node uniq g ONNXNode (gn_name nd)) as [g1 v1] eqn:Ec.
  apply create_node_spec in Ec as (-> & _ & _ & Hn).
  unfold get_node. rewrite Hn, lookup_snoc. simpl. rewrite Hi, Ho, Ha. simpl.
  case_bool_decide; simpl; eauto.
Qed.

(** The loop that creates the Operator vertices. *)
Lemma create_op_loop uniq (nds : list gs_node) (ns0 : list qtnode) g m names0 base :
  Forall2 node_matches ns0 nds →
  NoDup (names0 ++ map gn_name nds) →
  names_from m names0 base →
  (base + length names0)%nat = length (g_nodes g) →
  ∃ g' m' ns,
    foldM (λ '(g, m) (nd : gs_node),
             '(g', v) ← create_qtnode uniq g nd;
             Ok (g', <[gn_name nd := v]> m)) nds (g, m) = Ok (g', m')
    ∧ g_nodes g' = g_nodes g ++ ns
    ∧ g_pipes g' = g_pipes g
    ∧ Forall2 op_created nds ns
    ∧ names_from m' (names0 ++ map gn_name nds) base.
Proof.
  intros Hmatch. revert g m names0.
  induction Hmatch as [|n0 nd ns0 nds Hm0 _ IH]; intros g m names0 Hnd Hm Hlen; simpl.
  - exists g, m, []. by rewrite !app_nil_r.
  - apply NoDup_app_head in Hnd as [Hnew Hnd].
    destruct Hm0 as (_ & _ & _ & _ & Hplain & Hattrs).
    destruct (create_qtnode_ok uniq g nd _ Hplain Hattrs) as [g1 E1].
    rewrite E1. simpl.
    apply create_qtnode_spec in E1
      as (n & _ & Hn & Hp & _ & Ht & _ & Hnn & Hop & Ha & Hi & Ho & Hin & Hout).
    destruct (IH g1 (<[gn_name nd := length (g_nodes g)]> m) (names0 ++ [gn_name nd]))
      as (g' & m' & ns & E & Hn' & Hp' & Hf & Hm').
    + done.
    + rewrite <- Hlen. by apply names_from_snoc.
    + rewrite Hn, !length_app. simpl. lia.
    + exists g', m', (n :: ns). split; [done|].
      split; [by rewrite Hn', Hn, <- app_assoc|]. split; [congruence|].
      split; [|by rewrite <- app_assoc in Hm'].
      constructor; [|done]. apply Forall_app in Hplain as [Hpi Hpo].
      destruct (mapM_classify _ Hpi) as (ins & Hi' & _ & Hni).
      destruct (mapM_classify _ Hpo) as (outs & _ & Ho' & Hno).
      rewrite Hi in Hi'. rewrite Ho in Ho'. injection Hi' as <-. injection Ho' as <-.
      by repeat split.
Qed.

(** ** The round trip: the index of tensor names *)

Lemma od_upsert_elem {V} (d : list (string * V)) k new upd k' v' :
  (k', v') ∈ od_upsert d k new upd →
  (k', v') ∈ d ∨ (k' = k ∧ (v' = new ∨ ∃ v, (k, v) ∈ d ∧ v' = upd v)).
Proof.
  induction d as [|[k0 v0] d IH]; simpl.
  - intros [= -> ->]%list_elem_of_singleton. right. by split; [|left].
  - case_decide as Hk.
    + subst k0. intros [[= -> ->]|Hin]%elem_of_cons.
      * right. split; [done|]. right. exists v0. split; [left|done].
      * left. by right.
    + intros [[= -> ->]|Hin]%elem_of_cons; [left; left|].
      destruct (IH Hin) as [H|(-> & [->|(v & Hv & ->)])].
      * left. by right.
      * right. by split; [|left].
      * right. split; [done|]. right. exists v. split; [by right|done].
Qed.

Lemma od_upsert_keeps {V} (d : list (string * V)) k new upd k' v' :
  (k', v') ∈ d →
  ∃ v'', (k', v'') ∈ od_upsert d k new upd ∧ (v'' = v' ∨ v'' = upd v').
Proof.
  induction d as [|[k0 v0] d IH]; simpl; [by intros ?%not_elem_of_nil|].
  intros [[= -> ->]|Hin]%elem_of_cons.
  - case_decide.
    + exists (upd v0). split; [left|by right].
    + exists v0. split; [left|by left].
  - case_decide.
    + exists v'. split; [by right|by left].
    + destruct (IH Hin) as (v'' & Hv & Hor). exists v''. split; [by right|done].
Qed.

Lemma od_upsert_has {V} (d : list (string * V)) k new upd :
  ∃ v'', (k, v'') ∈ od_upsert d k new upd
       ∧ (v'' = new ∨ ∃ v, v'' = upd v).
Proof.
  induction d as [|[k0 v0] d IH]; simpl.
  - exists new. split; [by left|by left].
  - case_decide as Hk.
    + subst k0. exists (upd v0). split; [left|right; eauto].
    + destruct IH as (v'' & Hv & Hor). exists v''. split; [by right|done].
Qed.

Lemma index_le_refl e : index_le e e.
Proof. intros key I O H. by exists I, O. Qed.

Lemma index_le_trans e1 e2 e3 : index_le e1 e2 → index_le e2 e3 → index_le e1 e3.
Proof.
  intros H12 H23 key I O H.
  destruct (H12 _ _ _ H) as (I2 & O2 & H2 & Hi2 & Ho2).
  destruct (H23 _ _ _ H2) as (I3 & O3 & H3 & Hi3 & Ho3).
  exists I3, O3. split; [done|]. split; by etrans.
Qed.

Lemma foldl_inv_in {A B} (P : A → Prop) (f : A → B → A) l a :
  (∀ a x, x ∈ l → P a → P (f a x)) → P a → P (foldl f a l).
Proof.
  revert a. induction l as [|x l IH]; intros a Hf Ha; simpl; [done|].
  apply IH.
  - intros a' y Hy. apply Hf. by right.
  - apply Hf; [by left|done].
Qed.

Lemma index_node_eq e x :
  index_node e x
  = foldl (add_output (gn_name x)) (foldl (add_input (gn_name x)) e (gn_inputs x))
          (gn_outputs x).
Proof. reflexivity. Qed.

Lemma add_input_sound nodes nd e r :
  nd ∈ nodes → r ∈ gn_inputs nd →
  index_sound nodes e → index_sound nodes (add_input (gn_name nd) e r).
Proof.
  intros Hnd Hr Hs key I O Hin.
  assert (consumer_of nodes (ref_name r) (gn_name nd)) as Hc.
  { exists nd. split; [done|]. split; [done|]. by apply list_elem_of_fmap_2. }
  apply od_upsert_elem in Hin as [Hin|(-> & [[= -> ->]|([I0 O0] & Hin & [= -> ->])])].
  - by apply Hs.
  - split; [|by intros out ?%not_elem_of_nil].
    by intros inp ->%list_elem_of_singleton.
  - destruct (Hs _ _ _ Hin) as [Hi Ho]. split; [|done].
    intros inp [Hinp| ->%list_elem_of_singleton]%elem_of_app; auto.
Qed.

Lemma add_output_sound nodes nd e r :
  nd ∈ nodes → r ∈ gn_outputs nd →
  index_sound nodes e → index_sound nodes (add_output (gn_name nd) e r).
Proof.
  intros Hnd Hr Hs key I O Hin.
  assert (producer_of nodes (ref_name r) (gn_name nd)) as Hc.
  { exists nd. split; [done|]. split; [done|]. by apply list_elem_of_fmap_2. }
  apply od_upsert_elem in Hin as [Hin|(-> & [[= -> ->]|([I0 O0] & Hin & [= -> ->])])].
  - by apply Hs.
  - split; [by intros inp ?%not_elem_of_nil|].
    by intros out ->%list_elem_of_singleton.
  - destruct (Hs _ _ _ Hin) as [Hi Ho]. split; [done|].
    intros out [Hout| ->%list_elem_of_singleton]%elem_of_app; auto.
Qed.

Lemma build_qt_edge_sound nodes : index_sound nodes (build_qt_edge nodes).
Proof.
  unfold build_qt_edge.
  assert (∀ l e, l ⊆ nodes → index_sound nodes e →
                 index_sound nodes (foldl index_node e l)) as H.
  { intros l e Hl He. apply foldl_inv_in; [|done].
    intros e' nd Hnd He'. rewrite index_node_eq.
    apply foldl_inv_in; [intros; apply add_output_sound; auto|].
    apply foldl_inv_in; [intros; apply add_input_sound; auto|done]. }
  apply H; [done|]. intros key I O Hin. by apply not_elem_of_nil in Hin.
Qed.

Lemma add_input_le name e r : index_le e (add_input name e r).
Proof.
  intros key I O Hin.
  destruct (od_upsert_keeps e (ref_name r) ([name], [])
              (λ io, (io.1 ++ [name], io.2)) _ _ Hin) as ([I' O'] & Hin' & [[= -> ->]|[= -> ->]]).
  - by exists I, O.
  - exists (I ++ [name]), O. split; [done|]. split; [|done].
    intros x Hx. apply elem_of_app. by left.
Qed.

Lemma add_output_le name e r : index_le e (add_output name e r).
Proof.
  intros key I O Hin.
  destruct (od_upsert_keeps e (ref_name r) ([], [name])
              (λ io, (io.1, io.2 ++ [name])) _ _ Hin) as ([I' O'] & Hin' & [[= -> ->]|[= -> ->]]).
  - by exists I, O.
  - exists I, (O ++ [name]). split; [done|]. split; [done|].
    intros x Hx. apply elem_of_app. by left.
Qed.

Lemma add_input_has name e r : listed_in (add_input name e r) (ref_name r) name.
Proof.
  destruct (od_upsert_has e (ref_name r) ([name], [])
              (λ io, (io.1 ++ [name], io.2))) as ([I O] & Hin & [[= -> ->]|([I0 O0] & [= -> ->])]).
  - exists [name], []. split; [done|]. by left.
  - exists (I0 ++ [name]), O0. split; [done|]. apply elem_of_app. right. by left.
Qed.

Lemma add_output_has name e r : listed_out (add_output name e r) (ref_name r) name.
Proof.
  destruct (od_upsert_has e (ref_name r) ([], [name])
              (λ io, (io.1, io.2 ++ [name]))) as ([I O] & Hin & [[= -> ->]|([I0 O0] & [= -> ->])]).
  - exists [], [name]. split; [done|]. by left.
  - exists I0, (O0 ++ [name]). split; [done|]. apply elem_of_app. right. by left.
Qed.

Lemma listed_in_le e e' key name : index_le e e' → listed_in e key name → listed_in e' key name.
Proof.
  intros Hle (I & O & Hin & Hn). destruct (Hle _ _ _ Hin) as (I' & O' & Hin' & Hi & _).
  exists I', O'. split; [done|]. by apply Hi.
Qed.

Lemma listed_out_le e e' key name : index_le e e' → listed_out e key name → listed_out e' key name.
Proof.
  intros Hle (I & O & Hin & Hn). destruct (Hle _ _ _ Hin) as (I' & O' & Hin' & _ & Ho).
  exists I', O'. split; [done|]. by apply Ho.
Qed.

Lemma index_node_le e nd : index_le e (index_node e nd).
Proof.
  rewrite index_node_eq.
  apply (foldl_inv (λ e', index_le e e')).
  - intros e' r He'. eapply index_le_trans; [done|apply add_output_le].
  - apply (foldl_inv (λ e', index_le e e')); [|apply index_le_refl].
    intros e' r He'. eapply index_le_trans; [done|apply add_input_le].
Qed.

Lemma index_node_lists e nd :
  (∀ r, r ∈ gn_inputs nd → listed_in (index_node e nd) (ref_name r) (gn_name nd))
  ∧ (∀ r, r ∈ gn_outputs nd → listed_out (index_node e nd) (ref_name r) (gn_name nd)).
Proof.
  rewrite index_node_eq. split; intros r Hr.
  - apply (foldl_inv (λ e', listed_in e' (ref_name r) (gn_name nd))).
    + intros e' r' He'. eapply listed_in_le; [apply add_output_le|done].
    + apply (foldl_achieve (λ r e', listed_in e' (ref_name r) (gn_name nd))); [| |done].
      * intros. apply add_input_has.
      * intros e' r' He'. eapply listed_in_le; [apply add_input_le|done].
  - apply (foldl_achieve (λ r e', listed_out e' (ref_name r) (gn_name nd))); [| |done].
    + intros. apply add_output_has.
    + intros e' r' He'. eapply listed_out_le; [apply add_output_le|done].
Qed.

Lemma build_qt_edge_complete nodes nd :
  nd ∈ nodes →
  (∀ r, r ∈ gn_inputs nd → listed_in (build_qt_edge nodes) (ref_name r) (gn_name nd))
  ∧ (∀ r, r ∈ gn_outputs nd → listed_out (build_qt_edge nodes) (ref_name r) (gn_name nd)).
Proof.
  intros Hnd. unfold build_qt_edge.
  apply (foldl_achieve
           (λ nd e, (∀ r, r ∈ gn_inputs nd → listed_in e (ref_name r) (gn_name nd))
                    ∧ (∀ r, r ∈ gn_outputs nd → listed_out e (ref_name r) (gn_name nd))));
    [| |done].
  - intros e. apply index_node_lists.
  - intros e nd' [Hi Ho]. split; intros r Hr.
    + eapply listed_in_le; [apply index_node_le|auto].
    + eapply listed_out_le; [apply index_node_le|auto].
Qed.

(** ** The round trip: wiring *)

(** A loop whose every step succeeds, keeps [Inv] and adds the pipes [S x]
    succeeds, keeps [Inv] and adds the pipes of all its steps. *)
Lemma foldM_run {A B} (Inv : A → Prop) (pp : A → list pipe) (S : B → pipe → Prop)
    (f : A → B → result A) l a :
  (∀ a x, Inv a → x ∈ l →
     ∃ a1, f a x = Ok a1 ∧ Inv a1 ∧ ∀ p, p ∈ pp a1 ↔ p ∈ pp a ∨ S x p) →
  Inv a →
  ∃ a', foldM f l a = Ok a' ∧ Inv a'
      ∧ ∀ p, p ∈ pp a' ↔ p ∈ pp a ∨ ∃ x, x ∈ l ∧ S x p.
Proof.
  revert a. induction l as [|x l IH]; intros a Hstep Ha; simpl.
  - exists a. split; [done|]. split; [done|]. intros p. split; [by left|].
    intros [H|(x & Hx & _)]; [done|]. by apply not_elem_of_nil in Hx.
  - destruct (Hstep a x Ha) as (a1 & E1 & Ha1 & Hp1); [by left|].
    rewrite E1. simpl.
    destruct (IH a1) as (a' & E & Ha' & Hp'); [|done|].
    { intros a2 y Ha2 Hy. apply Hstep; [done|by right]. }
    exists a'. split; [done|]. split; [done|]. intros p. rewrite Hp', Hp1. split.
    + intros [[H|H]|(y & Hy & H)]; [by left| |].
      * right. exists x. split; [by left|done].
      * right. exists y. split; [by right|done].
    + intros [H|(y & [->|Hy]%elem_of_cons & H)]; [by left; left|by left; right|].
      right. by exists y.
Qed.

Lemma connect_to_run g s d :
  has_out (g_nodes g) s → has_in (g_nodes g) d →
  ∃ g', connect_to g s d = Ok g' ∧ g_nodes g' = g_nodes g
      ∧ ∀ p, p ∈ g_pipes g' ↔ p ∈ g_pipes g ∨ p = ((s, 0%nat), (d, 0%nat)).
Proof.
  intros (sn & Hs & Hso) (dn & Hd & Hdi).
  unfold connect_to, get_node, output, input. rewrite Hs. simpl. rewrite Hso. simpl.
  rewrite Hd. simpl. rewrite Hdi. simpl. case_bool_decide as Hin.
  - eexists. split; [done|]. split; [done|]. intros p. simpl. split; [by left|].
    by intros [H| ->].
  - eexists. split; [done|]. split; [done|]. intros p. simpl.
    rewrite elem_of_app, list_elem_of_singleton. done.
Qed.

Lemma map_get_ok m k v : map_get m k = Ok v ↔ m !! k = Some v.
Proof. unfold map_get. destruct (m !! k); split; congruence. Qed.

(** One of the three connection loops. *)
Lemma connect_loop_run ns (F H : string → result nat) l g :
  g_nodes g = ns →
  (∀ k, k ∈ l → ∃ s d, F k = Ok s ∧ H k = Ok d ∧ has_out ns s ∧ has_in ns d) →
  ∃ g', foldM (λ g0 k, s ← F k; d ← H k; connect_to g0 s d) l g = Ok g'
      ∧ g_nodes g' = ns
      ∧ ∀ p, p ∈ g_pipes g' ↔
             p ∈ g_pipes g
             ∨ ∃ k, k ∈ l ∧ ∃ s d, F k = Ok s ∧ H k = Ok d
                                  ∧ p = ((s, 0%nat), (d, 0%nat)).
Proof.
  intros Hns Hready.
  apply (foldM_run (λ g0, g_nodes g0 = ns) g_pipes
           (λ k p, ∃ s d, F k = Ok s ∧ H k = Ok d ∧ p = ((s, 0%nat), (d, 0%nat))));
    [|done].
  intros g0 k Hg0 Hk. destruct (Hready k Hk) as (s & d & HF & HH & Hs & Hd).
  rewrite HF, HH. simpl. rewrite <- Hg0 in Hs, Hd.
  destruct (connect_to_run g0 s d Hs Hd) as (g1 & E & Hn & Hp).
  exists g1. split; [done|]. split; [congruence|]. intros p. rewrite Hp.
  split; (intros [?|?]; [by left|right]).
  - subst p. by exists s, d.
  - destruct H0 as (s' & d' & ? & ? & ->). congruence.
Qed.

(** The connection loop on one entry of the index, when every vertex it
    names is there with the port it needs. *)
Lemma connect_entry_run ins outs mio mn ns g key I O :
  g_nodes g = ns →
  (key ∈ ins → ∃ s, mio !! key = Some s ∧ has_out ns s) →
  (key ∈ outs → ∃ d, mio !! key = Some d ∧ has_in ns d) →
  (∀ inp, inp ∈ I → ∃ d, mn !! inp = Some d ∧ has_in ns d) →
  (∀ out, out ∈ O → ∃ s, mn !! out = Some s ∧ has_out ns s) →
  ∃ g', connect_entry ins outs mio mn g (key, (I, O)) = Ok g'
      ∧ g_nodes g' = ns
      ∧ ∀ p, p ∈ g_pipes g' ↔
             p ∈ g_pipes g ∨ entry_pipes ins outs mio mn (key, (I, O)) p.
Proof.
  intros Hns R1 R2 R3 R4. unfold connect_entry.
  (* the consumers of a graph input *)
  assert (∃ g1, (if bool_decide (key ∈ ins)
                 then foldM (λ g0 inp, s ← map_get mio key; d ← map_get mn inp;
                                       connect_to g0 s d) I g
                 else Ok g) = Ok g1
              ∧ g_nodes g1 = ns
              ∧ ∀ p, p ∈ g_pipes g1 ↔
                     p ∈ g_pipes g
                     ∨ (key ∈ ins
                        ∧ ∃ inp s d, inp ∈ I ∧ mio !! key = Some s
                                   ∧ mn !! inp = Some d
                                   ∧ p = ((s, 0%nat), (d, 0%nat))))
    as (g1 & E1 & Hn1 & Hp1).
  { destruct (decide (key ∈ ins)) as [Hk|Hk];
      [rewrite bool_decide_eq_true_2 by done|rewrite bool_decide_eq_false_2 by done].
    - destruct (R1 Hk) as (s & Hs & Hso).
      destruct (connect_loop_run ns (λ _, map_get mio key) (λ inp, map_get mn inp) I g)
        as (g1 & E & Hn & Hp); [done| |].
      { intros inp Hinp. destruct (R3 inp Hinp) as (d & Hd & Hdi).
        exists s, d. by rewrite !map_get_ok. }
      exists g1. split; [done|]. split; [done|]. intros p. rewrite Hp.
      split; (intros [?|Hx]; [by left|right]).
      + destruct Hx as (inp & Hinp & s' & d' & Hs' & Hd' & ->).
        apply map_get_ok in Hs', Hd'. split; [done|]. by exists inp, s', d'.
      + destruct Hx as (_ & inp & s' & d' & Hinp & Hs' & Hd' & ->).
        exists inp. split; [done|]. exists s', d'. by rewrite !map_get_ok.
    - exists g. split; [done|]. split; [done|]. intros p. split; [by left|].
      by intros [?|[? _]]. }
  rewrite E1. simpl.
  (* the producers of a graph output *)
  assert (∃ g2, (if bool_decide (key ∈ outs)
                 then foldM (λ g0 out, s ← map_get mn out; d ← map_get mio key;
                                       connect_to g0 s d) O g1
                 else Ok g1) = Ok g2
              ∧ g_nodes g2 = ns
              ∧ ∀ p, p ∈ g_pipes g2 ↔
                     p ∈ g_pipes g1
                     ∨ (key ∈ outs
                        ∧ ∃ out s d, out ∈ O ∧ mn !! out = Some s
                                   ∧ mio !! key = Some d
                                   ∧ p = ((s, 0%nat), (d, 0%nat))))
    as (g2 & E2 & Hn2 & Hp2).
  { destruct (decide (key ∈ outs)) as [Hk|Hk];
      [rewrite bool_decide_eq_true_2 by done|rewrite bool_decide_eq_false_2 by done].
    - destruct (R2 Hk) as (d & Hd & Hdi).
      destruct (connect_loop_run ns (λ out, map_get mn out) (λ _, map_get mio key) O g1)
        as (g2 & E & Hn & Hp); [done| |].
      { intros out Hout. destruct (R4 out Hout) as (s & Hs & Hso).
        exists s, d. by rewrite !map_get_ok. }
      exists g2. split; [done|]. split; [done|]. intros p. rewrite Hp.
      split; (intros [?|Hx]; [by left|right]).
      + destruct Hx as (out & Hout & s' & d' & Hs' & Hd' & ->).
        apply map_get_ok in Hs', Hd'. split; [done|]. by exists out, s', d'.
      + destruct Hx as (_ & out & s' & d' & Hout & Hs' & Hd' & ->).
        exists out. split; [done|]. exists s', d'. by rewrite !map_get_ok.
    - exists g1. split; [done|]. split; [done|]. intros p. split; [by left|].
      by intros [?|[? _]]. }
  rewrite E2. simpl.
  (* producers to consumers *)
  destruct (foldM_run (λ g0, g_nodes g0 = ns) g_pipes
              (λ inp p, ∃ out s d, out ∈ O ∧ mn !! out = Some s ∧ mn !! inp = Some d
                                 ∧ p = ((s, 0%nat), (d, 0%nat)))
              (λ g0 inp, foldM (λ g3 out, s ← map_get mn out; d ← map_get mn inp;
                                          connect_to g3 s d) O g0) I g2)
    as (g3 & E3 & Hn3 & Hp3); [|done|].
  { intros g0 inp Hg0 Hinp. destruct (R3 inp Hinp) as (d & Hd & Hdi).
    destruct (connect_loop_run ns (λ out, map_get mn out) (λ _, map_get mn inp) O g0)
      as (g4 & E & Hn & Hp); [done| |].
    { intros out Hout. destruct (R4 out Hout) as (s & Hs & Hso).
      exists s, d. by rewrite !map_get_ok. }
    exists g4. split; [done|]. split; [done|]. intros p. rewrite Hp.
    split; (intros [?|Hx]; [by left|right]).
    + destruct Hx as (out & Hout & s' & d' & Hs' & Hd' & ->).
      apply map_get_ok in Hs', Hd'. by exists out, s', d'.
    + destruct Hx as (out & s' & d' & Hout & Hs' & Hd' & ->).
      exists out. split; [done|]. exists s', d'. by rewrite !map_get_ok. }
  exists g3. split; [done|]. split; [done|]. intros p.
  rewrite Hp3, Hp2, Hp1. unfold entry_pipes. split.
  - intros [[[?|?]|?]|(inp & Hinp & out & s & d & ?)]; [by left| | |].
    + right. by left.
    + right. right. by left.
    + right. right. right. by exists inp, out, s, d.
  - intros [?|[?|[?|(inp & out & s & d & Hinp & ?)]]];
      [by left; left; left|by left; left; right|by left; right|].
    right. exists inp. split; [done|]. by exists out, s, d.
Qed.

Lemma od_upsert_keys {V} (d : list (string * V)) k new upd :
  map fst (od_upsert d k new upd)
  = if bool_decide (k ∈ map fst d) then map fst d else map fst d ++ [k].
Proof.
  induction d as [|[k0 v0] d IH]; simpl; [done|].
  destruct (decide (k0 = k)) as [->|Hk]; simpl.
  - rewrite bool_decide_eq_true_2; [done|by left].
  - rewrite IH. destruct (decide (k ∈ map fst d)) as [Hin|Hin].
    + rewrite !bool_decide_eq_true_2; [done|by right|done].
    + rewrite !bool_decide_eq_false_2; [done| |done].
      intros [?|?]%elem_of_cons; done.
Qed.

Lemma od_upsert_nodup {V} (d : list (string * V)) k new upd :
  NoDup (map fst d) → NoDup (map fst (od_upsert d k new upd)).
Proof.
  intros H. rewrite od_upsert_keys. case_bool_decide as Hk; [done|].
  apply NoDup_app. split; [done|]. split; [|apply NoDup_singleton].
  by intros x Hx ->%list_elem_of_singleton.
Qed.

Lemma build_qt_edge_nodup nodes : NoDup (map fst (build_qt_edge nodes)).
Proof.
  unfold build_qt_edge. apply foldl_inv; [|constructor].
  intros e nd He. rewrite index_node_eq.
  apply foldl_inv; [intros; by apply od_upsert_nodup|].
  apply foldl_inv; [intros; by apply od_upsert_nodup|done].
Qed.

Lemma nodup_keys_functional {V} (d : list (string * V)) k v1 v2 :
  NoDup (map fst d) → (k, v1) ∈ d → (k, v2) ∈ d → v1 = v2.
Proof.
  intros Hnd [i Hi]%list_elem_of_lookup [j Hj]%list_elem_of_lookup.
  assert (i = j) as ->.
  { eapply NoDup_lookup; [exact Hnd| |]; rewrite list_lookup_fmap.
    - by rewrite Hi.
    - by rewrite Hj. }
  congruence.
Qed.

Lemma map_alter_same {A B} (f : A → B) (h : A → A) i (l : list A) :
  (∀ x, f (h x) = f x) → map f (alter h i l) = map f l.
Proof.
  intros Hf. revert i. induction l as [|x l IH]; intros [|i]; simpl; try done.
  - by rewrite Hf.
  - f_equal. apply IH.
Qed.

(** Locking changes neither the fields of a vertex nor the pipes. *)
Lemma lock_all_fields g :
  map vertex_fields (g_nodes (lock_all g)) = map vertex_fields (g_nodes g)
  ∧ g_pipes (lock_all g) = g_pipes g.
Proof.
  apply (lock_all_inv (λ g', map vertex_fields (g_nodes g') = map vertex_fields (g_nodes g)
                            ∧ g_pipes g' = g_pipes g)); [|done].
  intros ga v b i [Hf Hp]. split; [|done].
  rewrite lock_step_nodes, map_alter_same; [done|]. intros n. by destruct b.
Qed.

Lemma same_vertex_fields n n1 n2 :
  vertex_fields n1 = vertex_fields n2 → same_vertex n n1 → same_vertex n n2.
Proof.
  unfold vertex_fields, same_vertex. intros [= -> -> -> -> -> -> -> -> ->]. done.
Qed.

Lemma Forall2_same_vertex_fields ns l1 l2 :
  map vertex_fields l1 = map vertex_fields l2 →
  Forall2 same_vertex ns l1 → Forall2 same_vertex ns l2.
Proof.
  intros Hf H. revert l2 Hf.
  induction H as [|n n1 ns l1 Hn _ IH]; intros [|n2 l2] Hf; try done.
  rewrite !map_cons in Hf.
  assert (vertex_fields n1 = vertex_fields n2
          ∧ map vertex_fields l1 = map vertex_fields l2) as [Hf1 Hf2]
    by (split; congruence).
  constructor; [by eapply same_vertex_fields|by apply IH].
Qed.

(** ** The round trip: the pipes are the edges by tensor name *)

(** The type of a vertex found in one of the three lists by kind. *)
Ltac by_type H k :=
  let H' := fresh in
  pose proof H as H'; rewrite Forall_forall in H';
  by apply H', (list_elem_of_lookup_2 _ k).

Section Wired.

(** The source vertices by kind, the operator records exported from them,
    the vertices the import created from the exported graph, and the two
    dictionaries of the import. *)
Variables (I O N : list qtnode) (nds : list gs_node).
Variables (ns_i ns_o ns_n : list qtnode) (m2 m3 : gmap string nat).

Hypothesis HI : Forall (λ n, q_type n = ONNXInput) I.
Hypothesis HO : Forall (λ n, q_type n = ONNXOutput) O.
Hypothesis HN : Forall (λ n, q_type n = ONNXNode) N.
Hypothesis Hsup : forallb supported_op N = true.
Hypothesis Hm : Forall2 node_matches N nds.
Hypothesis Hpi : Forall2 (λ n n' : qtnode, q_outputs n' = [mk_port false]) I ns_i.
Hypothesis Hpo : Forall2 (λ n n' : qtnode, q_inputs n' = [mk_port false]) O ns_o.
Hypothesis Hcn : Forall2 op_created nds ns_n.
Hypothesis Hm2 : names_from m2 (map q_name (I ++ O)) 0.
Hypothesis Hm3 : names_from m3 (map gn_name nds) (length (I ++ O)).

Lemma input_vertex i n :
  I !! i = Some n →
  m2 !! q_name n = Some i ∧ has_out (ns_i ++ ns_o ++ ns_n) i.
Proof using HI Hpi Hm2.
  intros Hi. split.
  - apply Hm2. exists i. split; [done|].
    rewrite list_lookup_fmap, (lookup_app_l_Some _ _ _ _ Hi). done.
  - destruct (Forall2_lookup_l _ _ _ _ _ Hpi Hi) as (n' & Hn' & Hout).
    exists n'. split; [|done]. by apply lookup_app_l_Some.
Qed.

Lemma output_vertex j n :
  O !! j = Some n →
  m2 !! q_name n = Some (length I + j)%nat
  ∧ has_in (ns_i ++ ns_o ++ ns_n) (length I + j).
Proof using HO Hpo Hpi Hm2.
  intros Hj. split.
  - apply Hm2. exists (length I + j)%nat. split; [done|].
    rewrite list_lookup_fmap, lookup_app_r by lia.
    replace (length I + j - length I)%nat with j by lia. by rewrite Hj.
  - destruct (Forall2_lookup_l _ _ _ _ _ Hpo Hj) as (n' & Hn' & Hin).
    exists n'. split; [|done].
    rewrite (Forall2_length _ _ _ Hpi), lookup_app_r by lia.
    replace (length ns_i + j - length ns_i)%nat with j by lia.
    by apply lookup_app_l_Some.
Qed.

Lemma operator_vertex k n0 :
  N !! k = Some n0 →
  ∃ nd n', nds !! k = Some nd ∧ node_matches n0 nd
         ∧ m3 !! gn_name nd = Some (length (I ++ O) + k)%nat
         ∧ (ns_i ++ ns_o ++ ns_n) !! (length (I ++ O) + k)%nat = Some n'
         ∧ op_created nd n'.
Proof using Hm Hcn Hm3 Hpi Hpo.
  intros Hk.
  destruct (Forall2_lookup_l _ _ _ _ _ Hm Hk) as (nd & Hnd & Hmatch).
  destruct (Forall2_lookup_l _ _ _ _ _ Hcn Hnd) as (n' & Hn' & Hc).
  exists nd, n'. split; [done|]. split; [done|]. split; [|split; [|done]].
  - apply Hm3. exists k. split; [done|]. by rewrite list_lookup_fmap, Hnd.
  - rewrite length_app, (Forall2_length _ _ _ Hpi), (Forall2_length _ _ _ Hpo).
    rewrite app_assoc, lookup_app_r by (rewrite length_app; lia).
    rewrite length_app.
    replace (length ns_i + length ns_o + k - (length ns_i + length ns_o))%nat
      with k by lia.
    done.
Qed.

(** A vertex that consumes a tensor is not a Constant, so it has its input
    port. *)
Lemma consumer_has_in k n0 nd n' t :
  N !! k = Some n0 → node_matches n0 nd → op_created nd n' →
  t ∈ map io_name (q_onnx_inputs n0) → q_inputs n' = [mk_port false].
Proof using Hsup.
  intros Hk Hmatch Hc Ht.
  destruct Hc as (_ & _ & _ & _ & _ & _ & Hin & _). rewrite Hin.
  rewrite bool_decide_eq_false_2; [done|].
  intros Hop%list_elem_of_singleton.
  destruct Hmatch as (_ & Hop' & _). rewrite Hop in Hop'.
  rewrite forallb_forall in Hsup.
  assert (supported_op n0 = true) as Hs.
  { apply Hsup, list_elem_of_In. by eapply list_elem_of_lookup_2. }
  unfold supported_op in Hs. apply andb_true_iff in Hs as [_ Hs].
  rewrite bool_decide_eq_true_2 in Hs by done.
  apply canonical_constant_spec in Hs as (? & ? & ? & _ & _ & _ & Hnone & _).
  rewrite Hnone in Ht. by apply not_elem_of_nil in Ht.
Qed.

Lemma consumer_vertex key inp :
  consumer_of nds key inp →
  ∃ k n0, N !! k = Some n0
        ∧ key ∈ map io_name (q_onnx_inputs n0)
        ∧ m3 !! inp = Some (length (I ++ O) + k)%nat
        ∧ has_in (ns_i ++ ns_o ++ ns_n) (length (I ++ O) + k).
Proof using Hm Hcn Hm3 Hpi Hpo Hsup.
  intros (nd & [k Hnd]%list_elem_of_lookup & <- & Hkey).
  destruct (Forall2_lookup_r _ _ _ _ _ Hm Hnd) as (n0 & Hk & Hmatch).
  destruct (operator_vertex k n0 Hk) as (nd' & n' & Hnd' & _ & Hm3' & Hn' & Hc).
  rewrite Hnd in Hnd'. injection Hnd' as <-.
  assert (key ∈ map io_name (q_onnx_inputs n0)) as Hkey'.
  { destruct Hmatch as (_ & _ & Hin & _). by rewrite <- Hin. }
  exists k, n0. split; [done|]. split; [done|]. split; [done|].
  exists n'. split; [done|]. by eapply consumer_has_in.
Qed.

Lemma producer_vertex key out :
  producer_of nds key out →
  ∃ k n0, N !! k = Some n0
        ∧ key ∈ map io_name (q_onnx_outputs n0)
        ∧ m3 !! out = Some (length (I ++ O) + k)%nat
        ∧ has_out (ns_i ++ ns_o ++ ns_n) (length (I ++ O) + k).
Proof using Hm Hcn Hm3 Hpi Hpo.
  intros (nd & [k Hnd]%list_elem_of_lookup & <- & Hkey).
  destruct (Forall2_lookup_r _ _ _ _ _ Hm Hnd) as (n0 & Hk & Hmatch).
  destruct (operator_vertex k n0 Hk) as (nd' & n' & Hnd' & _ & Hm3' & Hn' & Hc).
  rewrite Hnd in Hnd'. injection Hnd' as <-.
  exists k, n0. split; [done|]. split.
  { destruct Hmatch as (_ & _ & _ & Hout & _). by rewrite <- Hout. }
  split; [done|]. exists n'. split; [done|].
  by destruct Hc as (_ & _ & _ & _ & _ & _ & _ & Hout).
Qed.

(** The connection loop finds every vertex and port it asks for. *)
Lemma ready_entry key I_ O_ :
  (key, (I_, O_)) ∈ build_qt_edge nds →
  (key ∈ map q_name I →
     ∃ s, m2 !! key = Some s ∧ has_out (ns_i ++ ns_o ++ ns_n) s)
  ∧ (key ∈ map q_name O →
       ∃ d, m2 !! key = Some d ∧ has_in (ns_i ++ ns_o ++ ns_n) d)
  ∧ (∀ inp, inp ∈ I_ → ∃ d, m3 !! inp = Some d ∧ has_in (ns_i ++ ns_o ++ ns_n) d)
  ∧ (∀ out, out ∈ O_ → ∃ s, m3 !! out = Some s ∧ has_out (ns_i ++ ns_o ++ ns_n) s).
Proof using HI HO Hsup Hm Hpi Hpo Hcn Hm2 Hm3.
  intros Hin. destruct (build_qt_edge_sound nds _ _ _ Hin) as [Hsi Hso].
  split; [|split; [|split]].
  - intros (n & -> & [i Hi]%list_elem_of_lookup)%list_elem_of_fmap.
    exists i. by apply input_vertex.
  - intros (n & -> & [j Hj]%list_elem_of_lookup)%list_elem_of_fmap.
    exists (length I + j)%nat. by apply output_vertex.
  - intros inp Hinp.
    destruct (consumer_vertex key inp (Hsi inp Hinp)) as (k & n0 & _ & _ & ? & ?).
    eauto.
  - intros out Hout.
    destruct (producer_vertex key out (Hso out Hout)) as (k & n0 & _ & _ & ? & ?).
    eauto.
Qed.

Lemma lookup_input v n :
  (I ++ O ++ N) !! v = Some n → q_type n = ONNXInput → I !! v = Some n.
Proof using HO HN.
  intros Hv Ht. apply lookup_app_Some in Hv as [Hv|[_ Hv]]; [done|].
  exfalso. apply lookup_app_Some in Hv as [Hv|[_ Hv]].
  - rewrite Forall_forall in HO.
    apply list_elem_of_lookup_2, HO in Hv. congruence.
  - rewrite Forall_forall in HN.
    apply list_elem_of_lookup_2, HN in Hv. congruence.
Qed.

Lemma lookup_output v n :
  (I ++ O ++ N) !! v = Some n → q_type n = ONNXOutput →
  ∃ j, v = (length I + j)%nat ∧ O !! j = Some n.
Proof using HI HN.
  intros Hv Ht. apply lookup_app_Some in Hv as [Hv|[Hle Hv]].
  { rewrite Forall_forall in HI.
    apply list_elem_of_lookup_2, HI in Hv. congruence. }
  apply lookup_app_Some in Hv as [Hv|[_ Hv]].
  - exists (v - length I)%nat. split; [lia|done].
  - rewrite Forall_forall in HN.
    apply list_elem_of_lookup_2, HN in Hv. congruence.
Qed.

Lemma lookup_operator v n :
  (I ++ O ++ N) !! v = Some n → q_type n = ONNXNode →
  ∃ k, v = (length (I ++ O) + k)%nat ∧ N !! k = Some n.
Proof using HI HO.
  intros Hv Ht. apply lookup_app_Some in Hv as [Hv|[Hle Hv]].
  { rewrite Forall_forall in HI.
    apply list_elem_of_lookup_2, HI in Hv. congruence. }
  apply lookup_app_Some in Hv as [Hv|[Hle' Hv]].
  { rewrite Forall_forall in HO.
    apply list_elem_of_lookup_2, HO in Hv. congruence. }
  exists (v - length I - length O)%nat. split; [rewrite length_app; lia|done].
Qed.

Lemma operator_lookup k n0 :
  N !! k = Some n0 → (I ++ O ++ N) !! (length (I ++ O) + k)%nat = Some n0.
Proof.
  intros Hk. rewrite app_assoc, lookup_app_r by lia.
  by replace (length (I ++ O) + k - length (I ++ O))%nat with k by lia.
Qed.

(** The pipes the connection loop asks for, over all entries of the index,
    are the edges by tensor name between the source vertices. *)
Lemma wired_iff p :
  (∃ entry, entry ∈ build_qt_edge nds
          ∧ entry_pipes (map q_name I) (map q_name O) m2 m3 entry p)
  ↔ name_edge (I ++ O ++ N) p.
Proof using HI HO HN Hsup Hm Hpi Hpo Hcn Hm2 Hm3.
  split.
  - intros ([key [I_ O_]] & Hin & Hp).
    destruct (build_qt_edge_sound nds _ _ _ Hin) as [Hsi Hso].
    destruct Hp as [(Hk & inp & s & d & Hinp & Hs & Hd & ->)
                   |[(Hk & out & s & d & Hout & Hs & Hd & ->)
                    |(inp & out & s & d & Hinp & Hout & Hs & Hd & ->)]].
    + apply list_elem_of_fmap in Hk as (n & -> & [i Hi]%list_elem_of_lookup).
      destruct (input_vertex i n Hi) as [Hs' _].
      destruct (consumer_vertex _ inp (Hsi inp Hinp)) as (k & n0 & Hk & Hkey & Hd' & _).
      rewrite Hs in Hs'. rewrite Hd in Hd'. injection Hs' as ->. injection Hd' as ->.
      exists i, (length (I ++ O) + k)%nat, (q_name n). split; [done|]. split.
      * exists n. split; [by apply lookup_app_l_Some|]. left.
        split; [|done]. by_type HI i.
      * exists n0. split; [by apply operator_lookup|]. right.
        split; [|done]. by_type HN k.
    + apply list_elem_of_fmap in Hk as (n & -> & [j Hj]%list_elem_of_lookup).
      destruct (output_vertex j n Hj) as [Hd' _].
      destruct (producer_vertex _ out (Hso out Hout)) as (k & n0 & Hk & Hkey & Hs' & _).
      rewrite Hs in Hs'. rewrite Hd in Hd'. injection Hs' as ->. injection Hd' as ->.
      exists (length (I ++ O) + k)%nat, (length I + j)%nat, (q_name n).
      split; [done|]. split.
      * exists n0. split; [by apply operator_lookup|]. right.
        split; [|done]. by_type HN k.
      * exists n. split.
        { rewrite lookup_app_r by lia.
          replace (length I + j - length I)%nat with j by lia.
          by apply lookup_app_l_Some. }
        left. split; [|done]. by_type HO j.
    + destruct (consumer_vertex _ inp (Hsi inp Hinp)) as (k & n0 & Hk & Hkey & Hd' & _).
      destruct (producer_vertex _ out (Hso out Hout)) as (k' & n1 & Hk' & Hkey' & Hs' & _).
      rewrite Hs in Hs'. rewrite Hd in Hd'. injection Hs' as ->. injection Hd' as ->.
      exists (length (I ++ O) + k')%nat, (length (I ++ O) + k)%nat, key.
      split; [done|]. split.
      * exists n1. split; [by apply operator_lookup|]. right.
        split; [|done]. by_type HN k'.
      * exists n0. split; [by apply operator_lookup|]. right.
        split; [|done]. by_type HN k.
  - intros (s & d & t & -> & (n & Hs & Hprod) & (n' & Hd & Hcons)).
    (* what an operator vertex that consumes, or produces, [t] gives *)
    assert (∀ v n0, (I ++ O ++ N) !! v = Some n0 → q_type n0 = ONNXNode →
                    t ∈ map io_name (q_onnx_inputs n0) →
                    ∃ inp, listed_in (build_qt_edge nds) t inp ∧ m3 !! inp = Some v)
      as Hcons_op.
    { intros v n0 Hv Ht Hin. destruct (lookup_operator v n0 Hv Ht) as (k & -> & Hk).
      destruct (operator_vertex k n0 Hk) as (nd & n1 & Hnd & Hmatch & Hm3' & _).
      exists (gn_name nd). split; [|done].
      destruct Hmatch as (_ & _ & Hi & _). rewrite <- Hi in Hin.
      apply list_elem_of_fmap in Hin as (r & -> & Hr).
      by apply build_qt_edge_complete; [eapply list_elem_of_lookup_2|]. }
    assert (∀ v n0, (I ++ O ++ N) !! v = Some n0 → q_type n0 = ONNXNode →
                    t ∈ map io_name (q_onnx_outputs n0) →
                    ∃ out, listed_out (build_qt_edge nds) t out ∧ m3 !! out = Some v)
      as Hprod_op.
    { intros v n0 Hv Ht Hin. destruct (lookup_operator v n0 Hv Ht) as (k & -> & Hk).
      destruct (operator_vertex k n0 Hk) as (nd & n1 & Hnd & Hmatch & Hm3' & _).
      exists (gn_name nd). split; [|done].
      destruct Hmatch as (_ & _ & _ & Ho & _). rewrite <- Ho in Hin.
      apply list_elem_of_fmap in Hin as (r & -> & Hr).
      by apply build_qt_edge_complete; [eapply list_elem_of_lookup_2|]. }
    destruct Hprod as [[Ht <-]|[Ht Hout]]; destruct Hcons as [[Ht' Hname]|[Ht' Hin]].
    + (* an Input and an Output vertex of the same name: the dictionary
         holds one vertex per name *)
      exfalso. pose proof (lookup_input _ _ Hs Ht) as Hi.
      destruct (lookup_output _ _ Hd Ht') as (j & -> & Hj).
      destruct (input_vertex s n Hi) as [H1 _].
      destruct (output_vertex j n' Hj) as [H2 _].
      rewrite Hname, H1 in H2. injection H2 as ->.
      apply lookup_lt_Some in Hi. lia.
    + pose proof (lookup_input _ _ Hs Ht) as Hi.
      destruct (input_vertex s n Hi) as [H1 _].
      destruct (Hcons_op d n' Hd Ht' Hin) as (inp & (I_ & O_ & He & Hinp) & H3).
      exists (q_name n, (I_, O_)). split; [done|]. left. split.
      * apply list_elem_of_fmap. exists n. split; [done|].
        by eapply list_elem_of_lookup_2.
      * by exists inp, s, d.
    + destruct (lookup_output _ _ Hd Ht') as (j & -> & Hj).
      destruct (output_vertex j n' Hj) as [H2 _].
      destruct (Hprod_op s n Hs Ht Hout) as (out & (I_ & O_ & He & Hout') & H3).
      exists (t, (I_, O_)). split; [done|]. right. left. split.
      * apply list_elem_of_fmap. exists n'. split; [done|].
        by eapply list_elem_of_lookup_2.
      * exists out, s, (length I + j)%nat. by rewrite <- Hname.
    + destruct (Hprod_op s n Hs Ht Hout) as (out & (I1 & O1 & He1 & Hout') & H3).
      destruct (Hcons_op d n' Hd Ht' Hin) as (inp & (I2 & O2 & He2 & Hinp) & H4).
      pose proof (nodup_keys_functional _ _ _ _ (build_qt_edge_nodup nds) He1 He2) as Heq.
      injection Heq as -> ->.
      exists (t, (I2, O2)). split; [done|]. right. right.
      by exists inp, out, s, d.
Qed.

End Wired.

(** ** The round trip *)

Lemma get_nodes_by_type_type g t :
  Forall (λ n, q_type n = t) (get_nodes_by_type g t).
Proof.
  apply Forall_forall. intros n Hn. unfold get_nodes_by_type in Hn.
  by apply list_elem_of_filter in Hn as [Hn _].
Qed.

(** The Input (Output) vertices come back as they were. *)
Lemma io_created_same t (ns : list qtnode) (refs : list gs_ref) (ns' : list qtnode) :
  t ≠ ONNXNode →
  Forall (λ n, q_type n = t) ns →
  map otensor refs = map (λ n, GsVariable (q_name n) (q_dtype n) (q_shape n)) ns →
  Forall2 (λ r n', io_created t (otensor r) n') refs ns' →
  Forall2 (λ n n', same_vertex n n' ∧ q_name n' = q_name n
                   ∧ q_inputs n' = (fresh_ports t).1
                   ∧ q_outputs n' = (fresh_ports t).2) ns ns'.
Proof.
  intros Ht Hty Hmap Hc. revert ns Hty Hmap.
  induction Hc as [|r n' refs ns' Hr _ IH]; intros [|n ns] Hty Hmap; try done.
  rewrite !map_cons in Hmap.
  assert (otensor r = GsVariable (q_name n) (q_dtype n) (q_shape n)
          ∧ map otensor refs
            = map (λ n, GsVariable (q_name n) (q_dtype n) (q_shape n)) ns)
    as [Hr' Hmap'] by (split; congruence).
  apply Forall_cons in Hty as [Hn Hty].
  constructor; [|by apply IH].
  destruct Hr as (Hty' & Hname & Hd & Hs & Hin & Hout). rewrite Hr' in *. simpl in *.
  injection Hd as Hd. injection Hs as Hs.
  split; [|done]. unfold same_vertex. rewrite Hn, Hty'. split; [done|].
  by destruct t.
Qed.

(** The Operator vertices come back as they were. *)
Lemma op_created_same (ns : list qtnode) (nds : list gs_node) (ns' : list qtnode) :
  Forall (λ n, q_type n = ONNXNode) ns →
  Forall2 node_matches ns nds →
  Forall2 op_created nds ns' →
  Forall2 same_vertex ns ns'.
Proof.
  intros Hty Hm. revert ns'.
  induction Hm as [|n nd ns nds Hn _ IH]; intros ns' Hc.
  - apply Forall2_nil_inv_l in Hc as ->. constructor.
  - apply Forall2_cons_inv_l in Hc as (n' & ns'' & Hn' & Hc & ->).
    apply Forall_cons in Hty as [Ht Hty]. constructor; [|by apply IH].
    destruct Hn as (Hname & Hop & Hi & Ho & _ & Ha).
    destruct Hn' as (Ht' & Hname' & Hop' & Ha' & Hi' & Ho' & _).
    unfold same_vertex. rewrite Ht, Ht'. split; [done|].
    rewrite Ha in Ha'. injection Ha' as Ha'.
    repeat split; congruence.
Qed.

Lemma ref_names (refs : list gs_ref) (ns : list qtnode) :
  map otensor refs = map (λ n, GsVariable (q_name n) (q_dtype n) (q_shape n)) ns →
  map ref_name refs = map q_name ns
  ∧ Forall (λ r, plain (otensor r)) refs.
Proof.
  intros H. split.
  - unfold ref_name.
    rewrite <- (map_map otensor tensor_name), H, map_map. done.
  - revert ns H. induction refs as [|r refs IH]; intros [|n ns] H; try done.
    rewrite !map_cons in H.
    assert (otensor r = GsVariable (q_name n) (q_dtype n) (q_shape n)
            ∧ map otensor refs
              = map (λ n, GsVariable (q_name n) (q_dtype n) (q_shape n)) ns)
      as [Hr Hrest] by (split; congruence).
    constructor; [by rewrite Hr|by eapply IH].
Qed.


(** The export does not read the pipes: a graph whose vertices agree on a
    tensor name comes back wired, whether it was or not. *)
Example round_trip_wires_by_name :
  g_pipes unwired_graph = []
  ∧ ∃ x g', NodeGraphtoONNX unwired_graph = Ok x
          ∧ ONNXtoNodeGraph keep_name x (graph_of [] []) = Ok g'
          ∧ g_pipes g' = [((0%nat, 0%nat), (1%nat, 0%nat))].
Proof.
  split; [reflexivity|]. eexists _, _.
  split; [by vm_compute|]. split; [by vm_compute|]. reflexivity.
Qed.



(** * Further properties of the translators *)

(** ** Constant tensor references through import and export *)

(** The values of a well-formed array, listed by the import and read back
    by the export, are the array again. *)
Lemma np_array_reshape_tolist (a : ndarray) :
  length (a_data a) = nprod (a_shape a) →
  np_array_reshape (tolist a) (dtype_name (a_dtype a))
    (Some (shape_of_nats (a_shape a))) = Ok a.
Proof.
  intros Hlen. unfold np_array_reshape. rewrite np_dtype_of_string_name.
  destruct (np_array_tolist (a_shape a)) as [cur Hcur].
  unfold tolist. rewrite (Hcur _ Hlen). cbn -[np_reshape].
  unfold shape_of_nats. rewrite <- (map_map Z.of_nat DimInt).
  rewrite np_reshape_exact.
  2:{ apply Forall_forall. intros z Hz. apply list_elem_of_In in Hz.
      apply in_map_iff in Hz as (n & <- & _). lia. }
  rewrite zprod_of_nats, bool_decide_eq_true_2 by (by rewrite Hlen).
  simpl. rewrite to_nat_of_nats. by destruct a.
Qed.

(** X1: a constant tensor among the inputs or outputs of an operator
    survives the import and the export.  The reference the import stores
    for it (the name, the dtype as a string, the shape, the values as a
    nested list) is resolved by the export, when the name is new, to a
    constant with the same name and the same array, provided the array is
    well-formed and is not the scalar [-1]. *)
Theorem constant_reference_round_trip (st : export_state) (name : string) (a : ndarray) :
  length (a_data a) = nprod (a_shape a) →
  (a_shape a = [] → a_data a ≠ [-1]) →
  gs_variables_all st !! name = None →
  ∃ io, classify_input (GsConstant name a) = Ok io
      ∧ classify_output (GsConstant name a) = Ok io
      ∧ resolve st io = Ok (new_shared st (GsConstant name a)).
Proof.
  intros Hlen Hsent Hnew. eexists. split; [reflexivity|]. split; [reflexivity|].
  unfold resolve. simpl. rewrite Hnew.
  rewrite is_unset_tolist by done. simpl.
  by rewrite np_array_reshape_tolist.
Qed.

Lemma constant_reference_round_trip_witness :
  ∃ io, classify_input (GsConstant "w" (mk_ndarray I64 [2%nat; 3%nat] [1; 2; 3; 4; 5; 6]))
        = Ok io
      ∧ classify_output (GsConstant "w" (mk_ndarray I64 [2%nat; 3%nat] [1; 2; 3; 4; 5; 6]))
        = Ok io
      ∧ resolve (mk_state ∅ 0) io
        = Ok (new_shared (mk_state ∅ 0)
                (GsConstant "w" (mk_ndarray I64 [2%nat; 3%nat] [1; 2; 3; 4; 5; 6]))).
Proof.
  apply (constant_reference_round_trip (mk_state ∅ 0) "w"
           (mk_ndarray I64 [2%nat; 3%nat] [1; 2; 3; 4; 5; 6])).
  - reflexivity.
  - discriminate.
  - reflexivity.
Defined.

(** X2: the sentinel swallows a value.  A scalar constant holding [-1] is
    stored by the import with the values [-1], which the export reads as
    "no values": the name is resolved to a variable, and the value is
    gone. *)
Theorem scalar_minus_one_becomes_variable (st : export_state) (name : string) (d : npdtype) :
  gs_variables_all st !! name = None →
  ∃ io, classify_input (GsConstant name (mk_ndarray d [] [-1])) = Ok io
      ∧ resolve st io
        = Ok (new_shared st (GsVariable name (Some (DStr (dtype_name d))) (Some []))).
Proof.
  intros Hnew. eexists. split; [reflexivity|].
  unfold resolve. simpl. by rewrite Hnew.
Qed.

Lemma scalar_minus_one_becomes_variable_witness :
  ∃ io, classify_input (GsConstant "axis" (mk_ndarray I64 [] [-1])) = Ok io
      ∧ resolve (mk_state ∅ 0) io
        = Ok (new_shared (mk_state ∅ 0)
                (GsVariable "axis" (Some (DStr (dtype_name I64))) (Some []))).
Proof.
  apply (scalar_minus_one_becomes_variable (mk_state ∅ 0) "axis" I64). reflexivity.
Defined.

(** X3: a variable among the inputs or outputs of an operator, through
    the import and the export.  With a dtype, it comes back as a variable
    of the same name and shape whose dtype is the string form of the
    original one; without a dtype it comes back bare, and its shape is
    lost even when it had one. *)
Theorem variable_reference_round_trip (st : export_state) (name : string)
    (d : option pydtype) (s : option shape) :
  gs_variables_all st !! name = None →
  ∃ io, classify_input (GsVariable name d s) = Ok io
      ∧ classify_output (GsVariable name d s) = Ok io
      ∧ resolve st io
        = Ok (new_shared st
                match d with
                | Some _ => GsVariable name (Some (DStr (py_str_dtype d))) s
                | None => GsVariable name None None
                end).
Proof.
  intros Hnew. destruct d as [d|]; eexists; (split; [reflexivity|]);
    (split; [reflexivity|]); unfold resolve; simpl; by rewrite Hnew.
Qed.

Lemma variable_reference_round_trip_witness :
  ∃ io, classify_input (GsVariable "u" None (Some [DimInt 2])) = Ok io
      ∧ classify_output (GsVariable "u" None (Some [DimInt 2])) = Ok io
      ∧ resolve (mk_state ∅ 0) io
        = Ok (new_shared (mk_state ∅ 0) (GsVariable "u" None None)).
Proof.
  apply (variable_reference_round_trip (mk_state ∅ 0) "u" None (Some [DimInt 2])).
  reflexivity.
Defined.

(** ** Import: what is created, and what is kept *)

(** A creation loop appends one vertex per element, and leaves the pipes
    alone. *)
Lemma create_loop_spec {B} (R : B → qtnode → Prop)
    (step : node_graph → B → result (node_graph * nat)) (key : B → string)
    (l : list B) g (m : gmap string nat) g' m' :
  (∀ g b g1 v, step g b = Ok (g1, v) →
     ∃ n, g_nodes g1 = g_nodes g ++ [n] ∧ g_pipes g1 = g_pipes g ∧ R b n) →
  foldM (λ '(g, m) b, '(g', v) ← step g b; Ok (g', <[key b := v]> m)) l (g, m)
  = Ok (g', m') →
  ∃ ns, g_nodes g' = g_nodes g ++ ns ∧ g_pipes g' = g_pipes g ∧ Forall2 R l ns.
Proof.
  intros Hstep. revert g m. induction l as [|b l IH]; intros g m; simpl.
  - intros [= <- <-]. exists []. by rewrite app_nil_r.
  - destruct (step g b) as [[g1 v]|] eqn:E; simpl; [|done].
    apply Hstep in E as (n & Hn & Hp & HR).
    intros H. apply IH in H as (ns & Hns & Hps & HRs).
    exists (n :: ns). rewrite Hns, Hn, <- app_assoc, Hps, Hp.
    split; [done|]. split; [done|]. by constructor.
Qed.

Lemma create_qtio_made uniq t g x g1 v :
  create_qtio uniq t g x = Ok (g1, v) →
  ∃ n, g_nodes g1 = g_nodes g ++ [n] ∧ g_pipes g1 = g_pipes g
     ∧ made_from_tensor t x n.
Proof.
  intros H. apply create_qtio_spec in H as (n & _ & Hn & Hp & _ & Hf & Hd & Hs).
  exists n. split; [done|]. split; [done|].
  unfold made_from_tensor. rewrite Hf. simpl. done.
Qed.

Lemma create_qtnode_made uniq g nd g1 v :
  create_qtnode uniq g nd = Ok (g1, v) →
  ∃ n, g_nodes g1 = g_nodes g ++ [n] ∧ g_pipes g1 = g_pipes g
     ∧ made_from_node nd n.
Proof.
  intros H. apply create_qtnode_spec in H
    as (n & _ & Hn & Hp & _ & Ht & _ & Hnn & Hop & Ha & Hi & Ho & _).
  exists n. split; [done|]. split; [done|]. done.
Qed.

(** The graph an import returns: the vertices that were there, then one
    vertex per graph input, per graph output and per operator record, in
    this order; the locking pass has changed ports only; the pipes that
    were there come first. *)
Lemma import_vertices uniq x g g' :
  ONNXtoNodeGraph uniq x g = Ok g' →
  ∃ ni no nn,
    Forall2 (λ r n, made_from_tensor ONNXInput (otensor r) n) (gg_inputs x) ni
    ∧ Forall2 (λ r n, made_from_tensor ONNXOutput (otensor r) n) (gg_outputs x) no
    ∧ Forall2 made_from_node (gg_nodes x) nn
    ∧ map vertex_fields (g_nodes g') = map vertex_fields (g_nodes g ++ ni ++ no ++ nn)
    ∧ g_pipes g `prefix_of` g_pipes g'.
Proof.
  unfold ONNXtoNodeGraph. intros H. apply bind_ok in H as (g4 & Hw & H).
  injection H as <-. destruct (lock_all_fields g4) as [-> ->].
  unfold import_wire in Hw.
  destruct (foldM _ (gg_inputs x) _) as [[g1 m1]|] eqn:E1; simpl in Hw; [|done].
  destruct (foldM _ (gg_outputs x) _) as [[g2 m2]|] eqn:E2; simpl in Hw; [|done].
  destruct (foldM _ (gg_nodes x) _) as [[g3 m3]|] eqn:E3; simpl in Hw; [|done].
  apply (create_loop_spec (λ r n, made_from_tensor ONNXInput (otensor r) n)
           (λ g r, create_qtinput uniq g (otensor r)) ref_name) in E1
    as (ni & Hn1 & Hp1 & HR1); [|intros; by eapply create_qtio_made].
  apply (create_loop_spec (λ r n, made_from_tensor ONNXOutput (otensor r) n)
           (λ g r, create_qtoutput uniq g (otensor r)) ref_name) in E2
    as (no & Hn2 & Hp2 & HR2); [|intros; by eapply create_qtio_made].
  apply (create_loop_spec made_from_node (create_qtnode uniq) gn_name) in E3
    as (nn & Hn3 & Hp3 & HR3); [|intros; by eapply create_qtnode_made].
  exists ni, no, nn. split; [done|]. split; [done|]. split; [done|].
  assert (g_nodes g4 = g_nodes g3 ∧ g_pipes g3 `prefix_of` g_pipes g4) as [Hn4 Hp4].
  { revert Hw.
    apply (foldM_inv (λ ga, g_nodes ga = g_nodes g3
                            ∧ g_pipes g3 `prefix_of` g_pipes ga)); [|done].
    intros ga entry gb Ha.
    apply (connect_entry_inv (λ ga, g_nodes ga = g_nodes g3
                                    ∧ g_pipes g3 `prefix_of` g_pipes ga)); [|done].
    intros gc s d gd [Hc1 Hc2] H.
    apply connect_to_spec in H as (? & ? & ? & ? & _ & _ & _ & _ & Hn & _ & Hp).
    rewrite Hn. split; [done|]. rewrite Hp. case_bool_decide; [done|].
    etrans; [exact Hc2|]. by apply prefix_app_r. }
  split.
  - by rewrite Hn4, Hn3, Hn2, Hn1, <- !app_assoc.
  - by rewrite Hp3, Hp2, Hp1 in Hp4.
Qed.

Lemma map_fields_take (l1 l2 l : list qtnode) :
  map vertex_fields l = map vertex_fields (l1 ++ l2) →
  map vertex_fields (take (length l1) l) = map vertex_fields l1
  ∧ map vertex_fields (drop (length l1) l) = map vertex_fields l2.
Proof.
  intros H. rewrite map_app in H.
  rewrite <- (firstn_map vertex_fields), <- (skipn_map vertex_fields), H.
  rewrite <- (length_map vertex_fields l1). split.
  - by rewrite take_app_length.
  - by rewrite drop_app_length.
Qed.

Lemma made_kinds {B} (R : B → qtnode → Prop) (tag : B → node_type * string) l ns :
  (∀ b n, R b n → (q_type n, q_node_name n) = tag b) →
  Forall2 R l ns → map (λ n, (q_type n, q_node_name n)) ns = map tag l.
Proof.
  intros HR. induction 1 as [|b n l ns Hb _ IH]; simpl; [done|].
  by rewrite (HR _ _ Hb), IH.
Qed.

(** ** Import: the vertices created are locked after they are wired *)

(** The creation and wiring part appends the vertices it creates, with
    the ports their classes give them. *)
Lemma import_wire_counts uniq x g g' :
  import_wire uniq x g = Ok g' →
  map port_counts (g_nodes g') = map port_counts (g_nodes g) ++ ports_created_by x.
Proof.
  unfold import_wire. intros Hw.
  destruct (foldM _ (gg_inputs x) _) as [[g1 m1]|] eqn:E1; simpl in Hw; [|done].
  destruct (foldM _ (gg_outputs x) _) as [[g2 m2]|] eqn:E2; simpl in Hw; [|done].
  destruct (foldM _ (gg_nodes x) _) as [[g3 m3]|] eqn:E3; simpl in Hw; [|done].
  apply (create_loop_spec (λ (r : gs_ref) n, port_counts n = (0%nat, 1%nat))
           (λ g r, create_qtinput uniq g (otensor r)) ref_name) in E1
    as (ni & Hn1 & _ & HR1).
  2:{ intros ga r gb v H. apply create_qtio_spec in H as (n & _ & Hn & Hp & _ & Hf & _).
      exists n. split; [done|]. split; [done|]. by rewrite Hf. }
  apply (create_loop_spec (λ (r : gs_ref) n, port_counts n = (1%nat, 0%nat))
           (λ g r, create_qtoutput uniq g (otensor r)) ref_name) in E2
    as (no & Hn2 & _ & HR2).
  2:{ intros ga r gb v H. apply create_qtio_spec in H as (n & _ & Hn & Hp & _ & Hf & _).
      exists n. split; [done|]. split; [done|]. by rewrite Hf. }
  apply (create_loop_spec
           (λ nd n, port_counts n
                    = (if bool_decide (gn_op nd ∈ ["Constant"]) then 0%nat else 1%nat,
                       1%nat))
           (create_qtnode uniq) gn_name) in E3
    as (nn & Hn3 & _ & HR3).
  2:{ intros ga nd gb v H. apply create_qtnode_spec in H
        as (n & _ & Hn & Hp & _ & _ & _ & _ & _ & _ & _ & _ & Hqi & Hqo).
      exists n. split; [done|]. split; [done|].
      unfold port_counts. rewrite Hqi, Hqo. by case_bool_decide. }
  assert (g_nodes g' = g_nodes g3) as ->.
  { revert Hw. apply (foldM_inv (λ ga, g_nodes ga = g_nodes g3)); [|done].
    intros ga entry gb Ha.
    apply (connect_entry_inv (λ ga, g_nodes ga = g_nodes g3)); [|done].
    intros gc s d gd Hc H.
    apply connect_to_spec in H as (? & ? & ? & ? & _ & _ & _ & _ & Hn & _).
    by rewrite Hn. }
  assert (∀ {B} (c : B → nat * nat) l ns,
            Forall2 (λ b n, port_counts n = c b) l ns →
            map port_counts ns = map c l) as Hmap.
  { intros B c l ns. induction 1 as [|b n l ns Hb _ IH]; simpl; [done|].
    by rewrite Hb, IH. }
  rewrite Hn3, Hn2, Hn1, !map_app, <- !app_assoc. unfold ports_created_by.
  by rewrite (Hmap _ _ _ _ HR1), (Hmap _ _ _ _ HR2), (Hmap _ _ _ _ HR3).
Qed.

(** C5: when the import completes, the graph holds the vertices it held
    and, after them, one vertex per graph input, graph output and operator
    record, with the ports of its class; every input port and every output
    port of every vertex is locked.  The events the import recorded split
    into a creation-and-wiring part without any lock event, in which every
    pipe the import added was connected, followed by a part made of nothing
    but lock events, among them the locking of every port of every vertex:
    no connection is made once locking has started. *)
Theorem import_locks_after_wiring uniq (x : gs_graph) (g g' : node_graph) :
  ONNXtoNodeGraph uniq x g = Ok g' →
  map port_counts (g_nodes g') = map port_counts (g_nodes g) ++ ports_created_by x
  ∧ map (λ n, (q_type n, q_node_name n)) (drop (node_count g) (g_nodes g'))
    = created_by x
  ∧ all_ports_locked g'
  ∧ ∃ wiring locking,
      g_log g' = g_log g ++ wiring ++ locking
      ∧ Forall (λ e, is_lock_event e = false) wiring
      ∧ Forall (λ e, is_lock_event e = true ∧ is_connect_event e = false) locking
      ∧ (∀ p, p ∈ g_pipes g' → p ∈ g_pipes g ∨ EvConnect p ∈ wiring)
      ∧ (∀ v n b i, g_nodes g' !! v = Some n → (i < length (port_side b n))%nat →
                    EvLock v b i ∈ locking).
Proof.
  intros H. pose proof (import_vertices _ _ _ _ H) as (ni & no & nn & Hi & Ho & Hn & Hf & _).
  unfold ONNXtoNodeGraph in H. apply bind_ok in H as (g1 & Hw & H).
  injection H as <-.
  split; [rewrite lock_all_counts; by apply (import_wire_counts uniq)|].
  split.
  { pose proof (map_fields_take _ _ _ Hf) as [_ Hdrop].
    assert (map (λ n, (q_type n, q_node_name n)) (ni ++ no ++ nn) = created_by x) as Hk.
    { unfold created_by. rewrite !map_app. f_equal; [|f_equal].
      - apply (made_kinds _ _ _ _ (λ r n (H : made_from_tensor ONNXInput (otensor r) n),
                 ltac:(destruct H as (-> & -> & _); reflexivity)) Hi).
      - apply (made_kinds _ _ _ _ (λ r n (H : made_from_tensor ONNXOutput (otensor r) n),
                 ltac:(destruct H as (-> & -> & _); reflexivity)) Ho).
      - apply (made_kinds _ _ _ _ (λ nd n (H : made_from_node nd n),
                 ltac:(destruct H as (-> & -> & _); reflexivity)) Hn). }
    rewrite <- Hk. unfold node_count.
    change (λ n, (q_type n, q_node_name n))
      with (λ n, ((vertex_fields n).1.1.1.1.1.1.1.1, (vertex_fields n).1.1.1.1.1.1.2)).
    rewrite <- !(map_map vertex_fields
                   (λ f : node_type * string * string * string * attrs
                          * list OnnxNodeIO * list OnnxNodeIO * option pydtype
                          * option shape, (f.1.1.1.1.1.1.1.1, f.1.1.1.1.1.1.2))).
    by rewrite Hdrop. }
  split; [apply lock_all_all_locked|].
  apply import_wire_connects in Hw as (wiring & Hl1 & Hf1 & Hp1).
  destruct (lock_all_log g1) as (locking & Hl2 & Hf2).
  exists wiring, locking. rewrite Hl2, Hl1, app_assoc. split; [done|]. split; [done|].
  split; [eapply Forall_impl; [exact Hf2|]; intros [] He; simpl in *; done|].
  split.
  - intros p Hp. apply Hp1. by rewrite (proj2 (lock_all_fields g1)) in Hp.
  - intros v n b i Hv Hlt.
    destruct (counts_lookup g1 _ v n (lock_all_counts g1) Hv) as (n1 & Hn1 & Hc).
    destruct (lock_all_logs g1 v n1 b i Hn1) as (evs & Hl3 & He).
    { unfold port_counts in Hc. injection Hc as H1 H2. destruct b; simpl in *; lia. }
    rewrite Hl2 in Hl3. by apply app_inv_head in Hl3 as ->.
Qed.

Lemma import_locks_after_wiring_witness :
  map port_counts (g_nodes imported_relu)
  = map port_counts (g_nodes (graph_of [] [])) ++ ports_created_by relu_model
  ∧ map (λ n, (q_type n, q_node_name n))
      (drop (node_count (graph_of [] [])) (g_nodes imported_relu))
    = created_by relu_model
  ∧ all_ports_locked imported_relu
  ∧ ∃ wiring locking,
      g_log imported_relu = g_log (graph_of [] []) ++ wiring ++ locking
      ∧ Forall (λ e, is_lock_event e = false) wiring
      ∧ Forall (λ e, is_lock_event e = true ∧ is_connect_event e = false) locking
      ∧ (∀ p, p ∈ g_pipes imported_relu →
              p ∈ g_pipes (graph_of [] []) ∨ EvConnect p ∈ wiring)
      ∧ (∀ v n b i, g_nodes imported_relu !! v = Some n →
                    (i < length (port_side b n))%nat → EvLock v b i ∈ locking).
Proof.
  apply (import_locks_after_wiring keep_name relu_model (graph_of [] []) imported_relu).
  vm_compute. reflexivity.
Defined.

(** The recorded events of the import of [relu_model]: three creations,
    two connections, then the locking of the four ports, each with the port
    at the other end of its pipe. *)
Example imported_relu_log :
  g_log imported_relu
  = [EvCreate 0; EvCreate 1; EvCreate 2;
     EvConnect ((0, 0), (2, 0)); EvConnect ((2, 0), (1, 0));
     EvLock 0 false 0; EvLock 2 true 0;
     EvLock 1 true 0; EvLock 2 false 0;
     EvLock 2 true 0; EvLock 0 false 0;
     EvLock 2 false 0; EvLock 1 true 0]%nat.
Proof. vm_compute. reflexivity. Qed.

(** ** Import: what is appended *)

(** X4: an import adds to the graph, in this order, one Input vertex per
    graph input, one Output vertex per graph output and one Operator
    vertex per operator record, each storing the name of what it was made
    from; so [node_count] grows by the number of inputs, outputs and
    records.  The vertices that were in the graph keep their fields, and
    the pipes that were in the graph stay, in front of the new ones. *)
Theorem import_appends uniq (x : gs_graph) (g g' : node_graph) :
  ONNXtoNodeGraph uniq x g = Ok g' →
  node_count g'
  = (node_count g + length (gg_inputs x) + length (gg_outputs x)
     + length (gg_nodes x))%nat
  ∧ map (λ n, (q_type n, q_node_name n)) (drop (node_count g) (g_nodes g'))
    = created_by x
  ∧ map vertex_fields (take (node_count g) (g_nodes g')) = map vertex_fields (g_nodes g)
  ∧ g_pipes g `prefix_of` g_pipes g'.
Proof.
  intros H. apply import_vertices in H as (ni & no & nn & Hi & Ho & Hn & Hf & Hp).
  pose proof (map_fields_take _ _ _ Hf) as [Htake Hdrop].
  assert (map (λ n, (q_type n, q_node_name n)) (ni ++ no ++ nn) = created_by x) as Hk.
  { unfold created_by. rewrite !map_app. f_equal; [|f_equal].
    - apply (made_kinds _ _ _ _ (λ r n (H : made_from_tensor ONNXInput (otensor r) n),
               ltac:(destruct H as (-> & -> & _); reflexivity)) Hi).
    - apply (made_kinds _ _ _ _ (λ r n (H : made_from_tensor ONNXOutput (otensor r) n),
               ltac:(destruct H as (-> & -> & _); reflexivity)) Ho).
    - apply (made_kinds _ _ _ _ (λ nd n (H : made_from_node nd n),
               ltac:(destruct H as (-> & -> & _); reflexivity)) Hn). }
  split; [|split; [|split]]; try done.
  - unfold node_count. rewrite <- (length_map vertex_fields (g_nodes g')), Hf.
    rewrite length_map, !length_app.
    rewrite <- (Forall2_length _ _ _ Hi), <- (Forall2_length _ _ _ Ho),
      <- (Forall2_length _ _ _ Hn). lia.
  - rewrite <- Hk. unfold node_count.
    change (λ n, (q_type n, q_node_name n))
      with (λ n, ((vertex_fields n).1.1.1.1.1.1.1.1, (vertex_fields n).1.1.1.1.1.1.2)).
    rewrite <- !(map_map vertex_fields
                   (λ f : node_type * string * string * string * attrs
                          * list OnnxNodeIO * list OnnxNodeIO * option pydtype
                          * option shape, (f.1.1.1.1.1.1.1.1, f.1.1.1.1.1.1.2))).
    by rewrite Hdrop.
Qed.

Lemma import_appends_witness :
  node_count imported_relu
  = (node_count (graph_of [] []) + length (gg_inputs relu_model)
     + length (gg_outputs relu_model) + length (gg_nodes relu_model))%nat
  ∧ map (λ n, (q_type n, q_node_name n))
        (drop (node_count (graph_of [] [])) (g_nodes imported_relu))
    = created_by relu_model
  ∧ map vertex_fields (take (node_count (graph_of [] [])) (g_nodes imported_relu))
    = map vertex_fields (g_nodes (graph_of [] []))
  ∧ g_pipes (graph_of [] []) `prefix_of` g_pipes imported_relu.
Proof.
  apply (import_appends keep_name relu_model (graph_of [] []) imported_relu).
  vm_compute. reflexivity.
Defined.

(** What every step of an import keeps, the import keeps, when the locking
    pass keeps it as well. *)
Lemma import_inv (P : node_graph → Prop) uniq x g g' :
  (∀ g t tn g1 v, P g → create_qtio uniq t g tn = Ok (g1, v) → P g1) →
  (∀ g nd g1 v, P g → create_qtnode uniq g nd = Ok (g1, v) → P g1) →
  (∀ g s d g1, P g → connect_to g s d = Ok g1 → P g1) →
  (∀ g v b i, P g → P (lock_step g v b i)) →
  P g → ONNXtoNodeGraph uniq x g = Ok g' → P g'.
Proof.
  intros Hio Hnode Hconn Hlock Hg H. unfold ONNXtoNodeGraph in H.
  apply bind_ok in H as (g1 & Hw & H). injection H as <-.
  apply lock_all_inv; [done|]. by eapply import_wire_inv.
Qed.

(** X5: an import never lays the same pipe twice.  An operator that reads
    one tensor in two of its inputs asks twice for the same connection; the
    second request finds the pipe in place, and the pipes of the graph stay
    pairwise distinct. *)
Theorem import_keeps_pipes_distinct uniq (x : gs_graph) (g g' : node_graph) :
  NoDup (g_pipes g) → ONNXtoNodeGraph uniq x g = Ok g' → NoDup (g_pipes g').
Proof.
  intros Hnd. apply (import_inv (λ ga, NoDup (g_pipes ga))); [| | | |done].
  - intros ga t tn g1 v Ha H.
    apply create_qtio_spec in H as (n & _ & _ & Hp & _). by rewrite Hp.
  - intros ga nd g1 v Ha H.
    apply create_qtnode_spec in H as (n & _ & _ & Hp & _). by rewrite Hp.
  - intros ga s d g1 Ha H.
    apply connect_to_spec in H as (? & ? & ? & ? & _ & _ & _ & _ & _ & _ & Hp).
    rewrite Hp. case_bool_decide as Hin; [done|].
    apply NoDup_app. split; [done|]. split; [|apply NoDup_singleton].
    intros p Hp1 Hp2. apply list_elem_of_singleton in Hp2 as ->. done.
  - intros ga v b i Ha. done.
Qed.

Lemma import_keeps_pipes_distinct_witness : NoDup (g_pipes imported_square).
Proof.
  apply (import_keeps_pipes_distinct keep_name square_model (graph_of [] [])
           imported_square).
  - apply NoDup_nil_2.
  - vm_compute. reflexivity.
Defined.

(** X6: a graph that was imported refuses new wiring.  Whatever two
    vertices are chosen, if the first has an output port, the second an
    input port, and no pipe joins them yet, [connect_to] raises: both ports
    were locked by the import. *)
Theorem imported_graph_refuses_wiring uniq (x : gs_graph) (g g' : node_graph)
    (s d : nat) (sn dn : qtnode) (sp dp : port) :
  ONNXtoNodeGraph uniq x g = Ok g' →
  g_nodes g' !! s = Some sn → q_outputs sn !! 0%nat = Some sp →
  g_nodes g' !! d = Some dn → q_inputs dn !! 0%nat = Some dp →
  ((s, 0%nat), (d, 0%nat)) ∉ g_pipes g' →
  connect_to g' s d = Raise PortError.
Proof.
  intros H Hs Hsp Hd Hdp Hnew. unfold ONNXtoNodeGraph in H.
  apply bind_ok in H as (g1 & _ & H). injection H as <-.
  pose proof (lock_all_all_locked g1 s sn sp Hs) as Hlock.
  unfold connect_to, get_node, output, input.
  rewrite Hs. simpl. rewrite Hsp. simpl. rewrite Hd. simpl. rewrite Hdp. simpl.
  rewrite bool_decide_eq_false_2 by done.
  rewrite Hlock; [done|].
  apply elem_of_app. right. by eapply list_elem_of_lookup_2.
Qed.

Lemma imported_graph_refuses_wiring_witness :
  connect_to imported_relu 0 1 = Raise PortError.
Proof.
  eapply (imported_graph_refuses_wiring keep_name relu_model (graph_of [] [])
            imported_relu 0 1).
  - vm_compute. reflexivity.
  - vm_compute. reflexivity.
  - vm_compute. reflexivity.
  - vm_compute. reflexivity.
  - vm_compute. reflexivity.
  - apply (bool_decide_unpack _). vm_compute. exact I.
Defined.

(** ** Export: what the exchange graph holds *)

Lemma export_loop_records ns acc acc' :
  foldM export_vertex ns acc = Ok acc' →
  map (λ nd, (gn_op nd, gn_name nd)) (x_nodes acc')
  = map (λ nd, (gn_op nd, gn_name nd)) (x_nodes acc)
    ++ map (λ n, (q_op n, q_node_name n)) ns.
Proof.
  revert acc. induction ns as [|n ns IH]; intros acc; simpl.
  - intros [= <-]. by rewrite app_nil_r.
  - intros H. apply bind_ok in H as (acc1 & H1 & H). apply IH in H. rewrite H.
    apply export_vertex_spec in H1 as (ins & outs & st1 & st2 & nd & _ & _ & Hn & _ & Hk).
    rewrite Hn, map_app, <- app_assoc. f_equal. simpl. f_equal.
    destruct (is_constant_op (q_op n)).
    + apply constant_node_spec in Hk
        as (? & ? & ? & ? & ? & ? & _ & _ & _ & _ & _ & -> & _). done.
    + by destruct Hk as [-> _].
Qed.

(** X7: the exchange graph the export returns.  It carries the name, the
    opset, the doc string and the import domains of the visual graph; its
    inputs and outputs are one variable per Input and per Output vertex, in
    order, named by the display name and typed and shaped as the vertex;
    its records are one per Operator vertex, in order, each with the
    operator type and the stored node name of its vertex, whether it is a
    constant or not. *)
Theorem export_records (g : node_graph) (x : gs_graph) :
  NodeGraphtoONNX g = Ok x →
  (gg_name x, gg_opset x, gg_doc_string x, gg_import_domains x)
  = (g_name g, g_opset g, g_doc_string g, g_import_domains g)
  ∧ map otensor (gg_inputs x)
    = map (λ n, GsVariable (q_name n) (q_dtype n) (q_shape n))
          (get_nodes_by_type g ONNXInput)
  ∧ map otensor (gg_outputs x)
    = map (λ n, GsVariable (q_name n) (q_dtype n) (q_shape n))
          (get_nodes_by_type g ONNXOutput)
  ∧ map (λ nd, (gn_op nd, gn_name nd)) (gg_nodes x)
    = map (λ n, (q_op n, q_node_name n)) (get_nodes_by_type g ONNXNode).
Proof.
  intros H. unfold NodeGraphtoONNX in H.
  apply bind_ok in H as ([[ins outs] acc] & Hrun & H). injection H as <-.
  simpl. unfold export_run in Hrun.
  destruct (export_io _ (get_nodes_by_type g ONNXInput)) as [iv st1] eqn:E1.
  destruct (export_io st1 _) as [ov st2] eqn:E2.
  apply bind_ok in Hrun as (acc' & Hfold & H). injection H as <- <- <-.
  apply export_io_spec in E1 as (Hi & _). apply export_io_spec in E2 as (Ho & _).
  split; [done|]. split; [done|]. split; [done|].
  by apply export_loop_records in Hfold.
Qed.

Lemma export_records_witness :
  (gg_name exported_add_graph, gg_opset exported_add_graph,
   gg_doc_string exported_add_graph, gg_import_domains exported_add_graph)
  = (g_name add_graph, g_opset add_graph, g_doc_string add_graph,
     g_import_domains add_graph)
  ∧ map otensor (gg_inputs exported_add_graph)
    = map (λ n, GsVariable (q_name n) (q_dtype n) (q_shape n))
          (get_nodes_by_type add_graph ONNXInput)
  ∧ map otensor (gg_outputs exported_add_graph)
    = map (λ n, GsVariable (q_name n) (q_dtype n) (q_shape n))
          (get_nodes_by_type add_graph ONNXOutput)
  ∧ map (λ nd, (gn_op nd, gn_name nd)) (gg_nodes exported_add_graph)
    = map (λ n, (q_op n, q_node_name n)) (get_nodes_by_type add_graph ONNXNode).
Proof.
  apply (export_records add_graph exported_add_graph). vm_compute. reflexivity.
Defined.

(** ** Export: what the translation reads *)

Lemma fields_filter (t : node_type) (l1 l2 : list qtnode) :
  map vertex_fields l1 = map vertex_fields l2 →
  Forall2 (λ a b, vertex_fields a = vertex_fields b)
    (filter (λ n, q_type n = t) l1) (filter (λ n, q_type n = t) l2).
Proof.
  revert l2. induction l1 as [|a l1 IH]; intros [|b l2] H; try done.
  rewrite !map_cons in H.
  assert (vertex_fields a = vertex_fields b
          ∧ map vertex_fields l1 = map vertex_fields l2) as [Hab Hl]
    by (split; congruence).
  assert (q_type a = q_type b) as Ht by (unfold vertex_fields in Hab; congruence).
  rewrite !filter_cons, Ht. destruct (decide (q_type b = t)); [constructor|]; auto.
Qed.

Lemma export_io_fields st (l1 l2 : list qtnode) :
  Forall2 (λ a b, vertex_fields a = vertex_fields b) l1 l2 →
  export_io st l1 = export_io st l2.
Proof.
  unfold export_io. generalize (@nil gs_ref, st).
  intros acc H. revert acc. induction H as [|a b l1 l2 Hab _ IH]; intros [vs s]; [done|].
  simpl. unfold vertex_fields in Hab.
  assert (q_name a = q_name b ∧ q_dtype a = q_dtype b ∧ q_shape a = q_shape b)
    as (-> & -> & ->) by (repeat split; congruence).
  apply IH.
Qed.

Lemma export_vertex_fields acc (a b : qtnode) :
  vertex_fields a = vertex_fields b → export_vertex acc a = export_vertex acc b.
Proof.
  unfold vertex_fields. intros Hab.
  assert (q_node_name a = q_node_name b ∧ q_op a = q_op b ∧ q_attrs a = q_attrs b
          ∧ q_onnx_inputs a = q_onnx_inputs b ∧ q_onnx_outputs a = q_onnx_outputs b)
    as (Hn & Ho & Ha & Hi & Hu) by (repeat split; congruence).
  unfold export_vertex, constant_node. by rewrite Hn, Ho, Ha, Hi, Hu.
Qed.

Lemma export_loop_fields acc (l1 l2 : list qtnode) :
  Forall2 (λ a b, vertex_fields a = vertex_fields b) l1 l2 →
  foldM export_vertex l1 acc = foldM export_vertex l2 acc.
Proof.
  intros H. revert acc. induction H as [|a b l1 l2 Hab _ IH]; intros acc; [done|].
  simpl. rewrite (export_vertex_fields acc a b Hab).
  destruct (export_vertex acc b); simpl; [apply IH|done].
Qed.

(** X8: the export never looks at the wiring.  Two graphs whose vertices
    store the same fields, and which carry the same name, opset, doc string
    and import domains, export to the same result, whatever their pipes,
    ports, lock flags, positions and histories are: the edges of the
    exchange graph come from the tensor names alone. *)
Theorem export_ignores_wiring (g1 g2 : node_graph) :
  map vertex_fields (g_nodes g1) = map vertex_fields (g_nodes g2) →
  (g_name g1, g_opset g1, g_doc_string g1, g_import_domains g1)
  = (g_name g2, g_opset g2, g_doc_string g2, g_import_domains g2) →
  NodeGraphtoONNX g1 = NodeGraphtoONNX g2.
Proof.
  intros Hf Hm. injection Hm as Hn Ho Hd Hi.
  unfold NodeGraphtoONNX, export_run, get_nodes_by_type.
  rewrite (export_io_fields _ _ _ (fields_filter ONNXInput _ _ Hf)).
  destruct (export_io _ (filter _ (g_nodes g2))) as [iv st1].
  rewrite (export_io_fields _ _ _ (fields_filter ONNXOutput _ _ Hf)).
  destruct (export_io st1 _) as [ov st2].
  rewrite (export_loop_fields _ _ _ (fields_filter ONNXNode _ _ Hf)).
  destruct (foldM export_vertex _ _); simpl; [|done].
  by rewrite Hn, Ho, Hd, Hi.
Qed.

Lemma export_ignores_wiring_witness :
  NodeGraphtoONNX add_graph = NodeGraphtoONNX (lock_all (with_pipes add_graph [])).
Proof.
  apply (export_ignores_wiring add_graph (lock_all (with_pipes add_graph []))).
  - vm_compute. reflexivity.
  - vm_compute. reflexivity.
Defined.

(** ** Export: what a constant-producing vertex must store *)

(** A loop that completes has completed the step of each of its elements. *)
Lemma foldM_elem_ok {A B} (f : A → B → result A) l a a' x :
  foldM f l a = Ok a' → x ∈ l → ∃ b b', f b x = Ok b'.
Proof.
  revert a. induction l as [|y l IH]; intros a H Hin.
  - by apply not_elem_of_nil in Hin.
  - simpl in H. apply bind_ok in H as (a1 & H1 & H).
    apply elem_of_cons in Hin as [->|Hin]; [by eauto|by eapply IH].
Qed.

Lemma resolve_list_length st ios rs st' :
  resolve_list st ios = Ok (rs, st') → length rs = length ios.
Proof.
  revert st rs. induction ios as [|io ios IH]; intros st rs; simpl.
  - by intros [= <- <-].
  - intros H. apply bind_ok in H as ([r st1] & _ & H).
    apply bind_ok in H as ([rs' st2] & Hrs & H). injection H as <- <-.
    simpl. f_equal. by eapply IH.
Qed.

(** When the export succeeds, node generation has succeeded on every
    constant-producing vertex, with as many output variables as the vertex
    has output references. *)
Lemma export_constant_step g x n :
  NodeGraphtoONNX g = Ok x →
  n ∈ get_nodes_by_type g ONNXNode → is_constant_op (q_op n) = true →
  ∃ st outs nd st',
    length outs = length (q_onnx_outputs n)
    ∧ constant_node st n outs = Ok (nd, st').
Proof.
  intros H Hn Hc. unfold NodeGraphtoONNX in H.
  apply bind_ok in H as ([[ins outs] acc] & Hrun & _). unfold export_run in Hrun.
  destruct (export_io _ (get_nodes_by_type g ONNXInput)) as [iv st1].
  destruct (export_io st1 _) as [ov st2].
  apply bind_ok in Hrun as (acc' & Hfold & _).
  destruct (foldM_elem_ok _ _ _ _ _ Hfold Hn) as (b & b' & Hb).
  apply export_vertex_spec in Hb as (ri & ro & s1 & s2 & nd & _ & Ho & _ & _ & Hk).
  rewrite Hc in Hk. exists s2, ro, nd, (x_state b').
  split; [by eapply resolve_list_length|done].
Qed.

Lemma supported_dtypes d :
  is_ok (NUMPY_TYPES_TO_ONNX_DTYPES d) = true → d ∈ [F32; F64; I32; I64].
Proof. destruct d; simpl; try done; set_solver. Qed.

(** X9: what the export demands of a constant-producing vertex.  When
    [NodeGraphtoONNX] returns, every Operator vertex of type Constant or
    ConstantOfShape has an attribute [dtype] that numpy reads as float32,
    float64, int32 or int64, has an attribute [values], and has at least
    one output tensor reference; on any other such vertex the export
    raises. *)
Theorem export_requires_canonical_constants (g : node_graph) (x : gs_graph) (n : qtnode) :
  NodeGraphtoONNX g = Ok x →
  n ∈ get_nodes_by_type g ONNXNode →
  is_constant_op (q_op n) = true →
  (∃ v d, dict_get (q_attrs n) "dtype" = Ok v ∧ np_dtype_of_pyval v = Ok d
          ∧ d ∈ [F32; F64; I32; I64])
  ∧ (∃ vals, dict_get (q_attrs n) "values" = Ok vals)
  ∧ q_onnx_outputs n ≠ [].
Proof.
  intros H Hn Hc.
  destruct (export_constant_step g x n H Hn Hc) as (st & outs & nd & st' & Hlen & Hk).
  apply constant_node_spec in Hk
    as (d & shp & vals & value & c & rest & Hd & Hcode & Hout & _ & (av & Hav & _) & _).
  split; [|split].
  - apply bind_ok in Hd as (v & Hv & Hd). exists v, d.
    split; [done|]. split; [done|]. by apply supported_dtypes.
  - by exists av.
  - intros Hnil. rewrite Hnil in Hlen. destruct outs; done.
Qed.

Lemma export_requires_canonical_constants_witness :
  (∃ v d, dict_get (q_attrs constant_vertex) "dtype" = Ok v ∧ np_dtype_of_pyval v = Ok d
          ∧ d ∈ [F32; F64; I32; I64])
  ∧ (∃ vals, dict_get (q_attrs constant_vertex) "values" = Ok vals)
  ∧ q_onnx_outputs constant_vertex ≠ [].
Proof.
  apply (export_requires_canonical_constants add_graph exported_add_graph constant_vertex).
  - vm_compute. reflexivity.
  - apply (list_elem_of_lookup_2 _ 0%nat). vm_compute. reflexivity.
  - reflexivity.
Defined.

(** ** Import, then export: constants that do not come back *)

Lemma made_from_node_fields nd (n n' : qtnode) :
  vertex_fields n = vertex_fields n' → made_from_node nd n → made_from_node nd n'.
Proof.
  unfold vertex_fields, made_from_node. intros [= Ht _ Hn Hop Ha Hi Ho _ _].
  by rewrite Ht, Hn, Hop, Ha, Hi, Ho.
Qed.

(** Every operator record of an imported graph has its vertex among the
    Operator vertices of the result. *)
Lemma imported_operator uniq x g g' nd :
  ONNXtoNodeGraph uniq x g = Ok g' → nd ∈ gg_nodes x →
  ∃ n, n ∈ get_nodes_by_type g' ONNXNode ∧ made_from_node nd n.
Proof.
  intros H Hnd. apply import_vertices in H as (ni & no & nn & _ & _ & Hn & Hf & _).
  apply list_elem_of_lookup in Hnd as [k Hk].
  destruct (Forall2_lookup_l _ _ _ _ _ Hn Hk) as (n & Hnk & Hmade).
  assert (n ∈ g_nodes g ++ ni ++ no ++ nn) as Hin.
  { rewrite !elem_of_app. do 3 right. by eapply list_elem_of_lookup_2. }
  apply list_elem_of_lookup in Hin as [j Hj].
  assert (map vertex_fields (g_nodes g') !! j = Some (vertex_fields n)) as Hj'.
  { by rewrite Hf, list_lookup_fmap, Hj. }
  rewrite list_lookup_fmap in Hj'.
  destruct (g_nodes g' !! j) as [n'|] eqn:En'; simpl in Hj'; [|done].
  assert (vertex_fields n = vertex_fields n') as Hv by congruence. exists n'.
  assert (made_from_node nd n') as Hmade' by (by eapply made_from_node_fields).
  split; [|done]. unfold get_nodes_by_type. apply list_elem_of_filter.
  split; [by destruct Hmade'|by eapply list_elem_of_lookup_2].
Qed.

Lemma not_ok_false {A} (r : result A) : (∀ a, r ≠ Ok a) → is_ok r = false.
Proof. destruct r as [a|]; [|done]. intros H. by destruct (H a). Qed.

(** X10: a ConstantOfShape operator does not survive a round trip.  The
    import keeps the attributes of such a record as they are, and the
    export asks a constant-producing vertex for the attribute [dtype]: when
    the record has no attribute of that name, as in any ONNX model, the
    export of the imported graph raises. *)
Theorem constant_of_shape_blocks_export uniq (x : gs_graph) (g g' : node_graph)
    (nd : gs_node) :
  ONNXtoNodeGraph uniq x g = Ok g' →
  nd ∈ gg_nodes x →
  gn_op nd = "ConstantOfShape" →
  dict_get (gn_attrs nd) "dtype" = Raise (KeyError "dtype") →
  is_ok (NodeGraphtoONNX g') = false.
Proof.
  intros H Hnd Hop Hno. apply not_ok_false. intros X HX.
  destruct (imported_operator _ _ _ _ _ H Hnd) as (n & Hn & _ & _ & Ho & Ha & _).
  rewrite Hop in Ho, Ha. rewrite import_attrs_other in Ha by done.
  injection Ha as Ha.
  destruct (export_constant_step g' X n HX Hn) as (st & outs & node & st' & _ & Hk).
  { by rewrite Ho. }
  apply constant_node_spec in Hk as (d & ? & ? & ? & ? & ? & Hd & _).
  rewrite <- Ha, Hno in Hd. done.
Qed.

Lemma constant_of_shape_blocks_export_witness :
  is_ok (NodeGraphtoONNX imported_constant_of_shape) = false.
Proof.
  apply (constant_of_shape_blocks_export keep_name constant_of_shape_model
           (graph_of [] []) imported_constant_of_shape
           (mk_gs_node "ConstantOfShape" "fill"
              [("value", PTensor "value" (mk_ndarray F32 [1%nat] [0]))]
              [mk_ref 0 (GsVariable "s" (Some (DNp I64)) (Some [DimInt 1]))]
              [mk_ref 1 (GsVariable "o" (Some (DNp F32)) None)])).
  - vm_compute. reflexivity.
  - apply (list_elem_of_lookup_2 _ 0%nat). reflexivity.
  - reflexivity.
  - reflexivity.
Defined.

(** X11: a Constant whose element type the export table does not list does
    not survive a round trip.  The import stores the name of any element
    type; the export translates float32, float64, int32 and int64 only, and
    raises on the imported graph for every other one. *)
Theorem constant_dtype_blocks_export uniq (x : gs_graph) (g g' : node_graph)
    (nd : gs_node) (name : string) (arr : ndarray) :
  ONNXtoNodeGraph uniq x g = Ok g' →
  nd ∈ gg_nodes x →
  gn_op nd = "Constant" →
  dict_get (gn_attrs nd) "value" = Ok (PTensor name arr) →
  a_dtype arr ∉ [F32; F64; I32; I64] →
  is_ok (NodeGraphtoONNX g') = false.
Proof.
  intros H Hnd Hop Hval Hdt. apply not_ok_false. intros X HX.
  destruct (imported_operator _ _ _ _ _ H Hnd) as (n & Hn & _ & _ & Ho & Ha & _).
  rewrite Hop in Ho, Ha. rewrite (import_attrs_constant _ _ _ Hval) in Ha.
  injection Ha as Ha.
  destruct (export_constant_step g' X n HX Hn) as (st & outs & node & st' & _ & Hk).
  { by rewrite Ho. }
  apply constant_node_spec in Hk as (d & ? & ? & ? & ? & ? & Hd & Hcode & _).
  rewrite <- Ha in Hd. simpl in Hd. rewrite np_dtype_of_string_name in Hd.
  injection Hd as <-. by apply supported_dtypes in Hcode.
Qed.

Lemma constant_dtype_blocks_export_witness :
  is_ok (NodeGraphtoONNX imported_half_model) = false.
Proof.
  apply (constant_dtype_blocks_export keep_name half_model (graph_of [] [])
           imported_half_model constant_half "value"
           (mk_ndarray F16 [3%nat] [1; 2; 3])).
  - vm_compute. reflexivity.
  - apply (list_elem_of_lookup_2 _ 0%nat). reflexivity.
  - reflexivity.
  - reflexivity.
  - apply (bool_decide_unpack _). vm_compute. exact I.
Defined.

(** X12: a Constant whose value is a well-formed array of two or more
    dimensions, those after the first not multiplying to one, does not
    survive a round trip.  The import stores the value as a nested list; the
    export takes the length of the outer list for the shape, and
    [make_tensor] finds more (or fewer) values in the nested list than this
    shape holds: the export of the imported graph raises. *)
Theorem constant_matrix_blocks_export uniq (x : gs_graph) (g g' : node_graph)
    (nd : gs_node) (name : string) (arr : ndarray) (d1 d2 : nat) (ds : list nat) :
  ONNXtoNodeGraph uniq x g = Ok g' →
  nd ∈ gg_nodes x →
  gn_op nd = "Constant" →
  dict_get (gn_attrs nd) "value" = Ok (PTensor name arr) →
  a_shape arr = S d1 :: d2 :: ds →
  length (a_data arr) = nprod (a_shape arr) →
  nprod (d2 :: ds) ≠ 1%nat →
  is_ok (NodeGraphtoONNX g') = false.
Proof.
  intros H Hnd Hop Hval Hshape Hlen Hk1. apply not_ok_false. intros X HX.
  destruct (imported_operator _ _ _ _ _ H Hnd) as (n & Hn & _ & _ & Ho & Ha & _).
  rewrite Hop in Ho, Ha. rewrite (import_attrs_constant _ _ _ Hval) in Ha.
  injection Ha as Ha.
  destruct (export_constant_step g' X n HX Hn) as (st & outs & node & st' & _ & Hk).
  { by rewrite Ho. }
  apply constant_node_spec in Hk
    as (d & shp & vals & value & ? & ? & _ & _ & _ & Hmk & (av & Hav & Hsv) & _).
  rewrite <- Ha in Hav. simpl in Hav. injection Hav as <-.
  destruct (np_array_tolist (a_shape arr)) as [cur Hcur].
  specialize (Hcur _ Hlen). fold (tolist arr) in Hcur.
  unfold make_tensor in Hmk.
  assert (vals = tolist arr ∧ shp = [S d1]) as [-> ->].
  { revert Hsv. unfold tolist. rewrite Hshape. cbn [tolist_aux].
    intros [= -> ->]. by rewrite length_map, chunks_length. }
  rewrite Hcur in Hmk. simpl in Hmk.
  rewrite bool_decide_eq_false_2 in Hmk; [done|].
  rewrite Hlen, Hshape.
  change (nprod (S d1 :: d2 :: ds)) with (S d1 * nprod (d2 :: ds))%nat.
  change (nprod [S d1]) with (S d1 * 1)%nat. nia.
Qed.

Lemma constant_matrix_blocks_export_witness :
  is_ok (NodeGraphtoONNX imported_constant_model) = false.
Proof.
  apply (constant_matrix_blocks_export keep_name constant_model (graph_of [] [])
           imported_constant_model constant_2x2 "value"
           (mk_ndarray I64 [2%nat; 2%nat] [1; 2; 3; 4]) 1 2 []).
  - vm_compute. reflexivity.
  - apply (list_elem_of_lookup_2 _ 0%nat). reflexivity.
  - reflexivity.
  - reflexivity.
  - reflexivity.
  - reflexivity.
  - vm_compute. discriminate.
Defined.

(** ** The edge list of the layout *)

Lemma foldM_ext {A B} (f f' : A → B → result A) l a :
  (∀ a x, f a x = f' a x) → foldM f l a = foldM f' l a.
Proof.
  intros H. revert a. induction l as [|x l IH]; intros a; simpl; [done|].
  rewrite H. destruct (f' a x); simpl; [apply IH|done].
Qed.

Lemma foldM_snoc_each {A B} (F : B → result A) l (ret : list A) :
  foldM (λ ret x, e ← F x; Ok (ret ++ [e])) l ret
  = (es ← mapM_r F l; Ok (ret ++ es)).
Proof.
  revert ret. induction l as [|x l IH]; intros ret; simpl.
  - by rewrite app_nil_r.
  - destruct (F x) as [e|]; simpl; [|done]. rewrite IH.
    destruct (mapM_r F l); simpl; [|done]. by rewrite <- app_assoc.
Qed.

Lemma foldM_app_each {A B} (G : B → result (list A)) l (ret : list A) :
  foldM (λ ret y, es ← G y; Ok (ret ++ es)) l ret
  = (ess ← mapM_r G l; Ok (ret ++ concat ess)).
Proof.
  revert ret. induction l as [|y l IH]; intros ret; simpl.
  - by rewrite app_nil_r.
  - destruct (G y) as [es|]; simpl; [|done]. rewrite IH.
    destruct (mapM_r G l); simpl; [|done]. by rewrite <- app_assoc.
Qed.

(** The two nested loops collect, vertex by vertex, one pair per connected
    input. *)
Lemma NodeGraphToEdges_eq g rev :
  NodeGraphToEdges g rev
  = (ess ← mapM_r (edges_of_vertex g rev) (enumerate (walk g rev)); Ok (concat ess)).
Proof.
  unfold NodeGraphToEdges. fold (walk g rev). fold (walk_names g rev).
  rewrite <- (foldM_app_each (edges_of_vertex g rev) _ []).
  apply foldM_ext. intros ret [i [v n]]. unfold edges_of_vertex. simpl.
  rewrite <- foldM_snoc_each. apply foldM_ext. intros ret' inp.
  unfold edge_of. destruct (get_node g inp); simpl; [|done].
  by destruct (list_index _ _).
Qed.

Lemma mapM_r_Forall2 {A B} (f : A → result B) l ys :
  mapM_r f l = Ok ys → Forall2 (λ x y, f x = Ok y) l ys.
Proof.
  revert ys. induction l as [|x l IH]; intros ys; simpl.
  - intros [= <-]. constructor.
  - intros H. apply bind_ok in H as (y & Hy & H).
    apply bind_ok in H as (ys' & Hys & H). injection H as <-.
    constructor; auto.
Qed.

Lemma mapM_r_total {A B} (f : A → result B) l :
  (∀ x, x ∈ l → ∃ y, f x = Ok y) → ∃ ys, mapM_r f l = Ok ys.
Proof.
  induction l as [|x l IH]; intros H; simpl; [by eexists|].
  destruct (H x) as [y ->]; [by left|].
  destruct IH as [ys ->]; [intros; apply H; by right|]. by eexists.
Qed.

Lemma elem_of_concat {A} (x : A) (ls : list (list A)) :
  x ∈ concat ls ↔ ∃ l, l ∈ ls ∧ x ∈ l.
Proof.
  rewrite list_elem_of_In, in_concat. split.
  - intros (l & Hl & Hx). exists l. by rewrite !list_elem_of_In.
  - intros (l & Hl & Hx). exists l. by rewrite <- !list_elem_of_In.
Qed.

Lemma place_involutive rev n v : (v < n)%nat → place rev n (place rev n v) = v.
Proof. unfold place. destruct rev; lia. Qed.

Lemma place_lt rev n v : (v < n)%nat → (place rev n v < n)%nat.
Proof. unfold place. destruct rev; lia. Qed.

Lemma enumerate_lookup {A} (l : list A) i v x :
  enumerate l !! i = Some (v, x) ↔ v = i ∧ l !! i = Some x.
Proof.
  unfold enumerate. rewrite list_lookup_imap_Some. split.
  - intros (y & Hy & [= -> ->]). done.
  - intros [-> H]. by exists x.
Qed.

Lemma length_enumerate {A} (l : list A) : length (enumerate l) = length l.
Proof. apply length_imap. Qed.

Lemma length_walk g rev : length (walk g rev) = node_count g.
Proof.
  unfold walk, node_count. destruct rev; rewrite ?length_reverse; apply length_enumerate.
Qed.

(** The walk holds, at place [i], the vertex whose place is [i]. *)
Lemma walk_lookup g rev i v n :
  walk g rev !! i = Some (v, n)
  ↔ (i < node_count g)%nat ∧ v = place rev (node_count g) i ∧ g_nodes g !! v = Some n.
Proof.
  unfold walk, place, node_count. destruct rev.
  - rewrite reverse_lookup_Some, length_enumerate, enumerate_lookup. split.
    + intros [[-> H] Hi]. split; [done|]. split; [lia|done].
    + intros (Hi & -> & H). split; [|done]. split; [lia|].
      by replace (length (g_nodes g) - S i)%nat with (length (g_nodes g) - 1 - i)%nat by lia.
  - rewrite enumerate_lookup. split.
    + intros [-> H]. split; [by eapply lookup_lt_Some|done].
    + intros (_ & -> & H). done.
Qed.

Lemma walk_at g rev v n :
  g_nodes g !! v = Some n → walk g rev !! place rev (node_count g) v = Some (v, n).
Proof.
  intros H. pose proof (lookup_lt_Some _ _ _ H) as Hlt. fold (node_count g) in Hlt.
  apply walk_lookup. split; [by apply place_lt|]. by rewrite place_involutive.
Qed.

Lemma length_walk_names g rev : length (walk_names g rev) = node_count g.
Proof. unfold walk_names. by rewrite length_map, length_walk. Qed.

Lemma walk_names_at g rev v n :
  g_nodes g !! v = Some n →
  walk_names g rev !! place rev (node_count g) v = Some (q_name n).
Proof.
  intros H. unfold walk_names. rewrite list_lookup_fmap.
  by rewrite (walk_at g rev v n H).
Qed.

Lemma walk_names_NoDup g rev :
  NoDup (map q_name (g_nodes g)) → NoDup (walk_names g rev).
Proof.
  intros H. unfold walk_names, walk.
  assert (map (λ vn : nat * qtnode, q_name vn.2) (enumerate (g_nodes g))
          = map q_name (g_nodes g)) as He.
  { unfold enumerate.
    assert (∀ (f : nat → nat) l,
              map (λ vn : nat * qtnode, q_name vn.2) (imap (λ i x, (f i, x)) l)
              = map q_name l) as Hg.
    { intros f l. revert f. induction l as [|x l IH]; intros f; simpl; [done|].
      f_equal. apply (IH (f ∘ S)). }
    apply (Hg id). }
  destruct rev; [|by rewrite He].
  change (NoDup ((λ vn : nat * qtnode, q_name vn.2) <$> reverse (enumerate (g_nodes g)))).
  rewrite fmap_reverse. rewrite (reverse_Permutation _).
  change (NoDup (map (λ vn : nat * qtnode, q_name vn.2) (enumerate (g_nodes g)))).
  by rewrite He.
Qed.

Lemma list_index_lookup x l i : list_index x l = Ok i → l !! i = Some x.
Proof.
  revert i. induction l as [|y l IH]; intros i; simpl; [done|].
  destruct (decide (y = x)) as [->|]; [by intros [= <-]|].
  intros H. apply bind_ok in H as (j & Hj & H). injection H as <-. simpl. auto.
Qed.

Lemma list_index_total x l : x ∈ l → ∃ i, list_index x l = Ok i.
Proof.
  induction l as [|y l IH]; intros H; [by apply not_elem_of_nil in H|]. simpl.
  destruct (decide (y = x)); [by eexists|].
  apply elem_of_cons in H as [->|H]; [done|].
  destruct (IH H) as [i ->]. by eexists.
Qed.

Lemma list_index_NoDup x l i :
  NoDup l → l !! i = Some x → list_index x l = Ok i.
Proof.
  intros Hnd Hi. destruct (list_index_total x l) as [j Hj].
  { by eapply list_elem_of_lookup_2. }
  rewrite Hj. f_equal. apply list_index_lookup in Hj.
  by eapply NoDup_lookup.
Qed.

(** The vertices connected to the inputs of a vertex are the sources of the
    pipes that end in one of its input ports. *)
Lemma connected_input_elem g v n s :
  s ∈ concat (connected_input_nodes g v n)
  ↔ ∃ ps pd, (pd < length (q_inputs n))%nat ∧ ((s, ps), (v, pd)) ∈ g_pipes g.
Proof.
  rewrite elem_of_concat. unfold connected_input_nodes, connected_ports. split.
  - intros (l & Hl & Hs).
    apply list_elem_of_In, in_map_iff in Hl as (pd & <- & Hpd).
    apply in_seq in Hpd.
    apply list_elem_of_In, in_map_iff in Hs as ([s' ps] & <- & Hs).
    apply in_map_iff in Hs as ([q1 q2] & Hq & Hp). simpl in Hq. subst q1.
    apply list_elem_of_In, list_elem_of_filter in Hp as [Hq2 Hp]. simpl in Hq2.
    subst q2. exists ps, pd. split; [lia|done].
  - intros (ps & pd & Hpd & Hp).
    exists (map fst (map fst (filter (λ p : pipe, p.2 = (v, pd)) (g_pipes g)))). split.
    + apply list_elem_of_In, in_map_iff. exists pd. split; [done|]. apply in_seq. lia.
    + apply list_elem_of_In, in_map_iff. exists (s, ps). split; [done|].
      apply in_map_iff. exists ((s, ps), (v, pd)). split; [done|].
      apply list_elem_of_In, list_elem_of_filter. done.
Qed.

Lemma edge_of_bounds g rev i inp e :
  (i < node_count g)%nat → edge_of g rev i inp = Ok e →
  (e.1 < node_count g)%nat ∧ (e.2 < node_count g)%nat.
Proof.
  intros Hi H. unfold edge_of in H.
  apply bind_ok in H as (m & _ & H). apply bind_ok in H as (idx & Hidx & H).
  apply list_index_lookup, lookup_lt_Some in Hidx. rewrite length_walk_names in Hidx.
  injection H as <-. destruct rev; simpl; lia.
Qed.

(** The pairs of the edge list come from the walk. *)
Lemma NodeGraphToEdges_elem g rev es e :
  NodeGraphToEdges g rev = Ok es →
  e ∈ es ↔ ∃ i v n inp, walk g rev !! i = Some (v, n)
                        ∧ inp ∈ concat (connected_input_nodes g v n)
                        ∧ edge_of g rev i inp = Ok e.
Proof.
  rewrite NodeGraphToEdges_eq. intros H. apply bind_ok in H as (ess & Hess & H).
  injection H as <-. apply mapM_r_Forall2 in Hess. rewrite elem_of_concat. split.
  - intros (l & Hl & He). apply list_elem_of_lookup in Hl as [k Hk].
    destruct (Forall2_lookup_r _ _ _ _ _ Hess Hk) as ([i [v n]] & Hivn & Hl).
    apply enumerate_lookup in Hivn as [-> Hw].
    unfold edges_of_vertex in Hl. simpl in Hl. apply mapM_r_Forall2 in Hl.
    apply list_elem_of_lookup in He as [j Hj].
    destruct (Forall2_lookup_r _ _ _ _ _ Hl Hj) as (inp & Hinp & He).
    exists k, v, n, inp. split; [done|]. split; [|done].
    by eapply list_elem_of_lookup_2.
  - intros (i & v & n & inp & Hw & Hinp & He).
    assert (enumerate (walk g rev) !! i = Some (i, (v, n))) as Hi
      by (by apply enumerate_lookup).
    destruct (Forall2_lookup_l _ _ _ _ _ Hess Hi) as (l & Hl & Hv).
    exists l. split; [by eapply list_elem_of_lookup_2|].
    unfold edges_of_vertex in Hv. simpl in Hv. apply mapM_r_Forall2 in Hv.
    apply list_elem_of_lookup in Hinp as [j Hj].
    destruct (Forall2_lookup_l _ _ _ _ _ Hv Hj) as (e' & He' & Hee).
    rewrite He in Hee. injection Hee as <-. by eapply list_elem_of_lookup_2.
Qed.

(** X13: every pair of the edge list names two positions of vertices of
    the graph, in the reversed walk as in the plain one: the list can be
    handed to a graph library that takes vertex numbers below
    [node_count]. *)
Theorem NodeGraphToEdges_in_bounds (g : node_graph) (reverse_order : bool)
    (edges : list (nat * nat)) :
  NodeGraphToEdges g reverse_order = Ok edges →
  Forall (λ e, (e.1 < node_count g)%nat ∧ (e.2 < node_count g)%nat) edges.
Proof.
  intros H. apply Forall_forall. intros e He.
  apply (NodeGraphToEdges_elem g reverse_order edges e H) in He
    as (i & v & n & inp & Hw & _ & He).
  apply walk_lookup in Hw as (Hi & _). by eapply edge_of_bounds.
Qed.

Lemma NodeGraphToEdges_in_bounds_witness :
  Forall (λ e, (e.1 < node_count add_graph)%nat ∧ (e.2 < node_count add_graph)%nat)
    add_graph_edges.
Proof.
  apply (NodeGraphToEdges_in_bounds add_graph true add_graph_edges).
  vm_compute. reflexivity.
Defined.

Lemma edge_of_exact g rev i s ps d pd n :
  NoDup (map q_name (g_nodes g)) →
  walk g rev !! i = Some (d, n) → (s < node_count g)%nat →
  edge_of g rev i s = Ok (edge_of_pipe g rev ((s, ps), (d, pd))).
Proof.
  intros Hnd Hw Hs. apply walk_lookup in Hw as (Hi & Hd & Hn).
  destruct (lookup_lt_is_Some_2 (g_nodes g) s Hs) as [m Hm].
  unfold edge_of, get_node. rewrite Hm. simpl.
  rewrite (list_index_NoDup (q_name m) _ (place rev (node_count g) s)).
  2:{ by apply walk_names_NoDup. }
  2:{ by apply walk_names_at. }
  simpl. unfold edge_of_pipe. simpl.
  rewrite Hd, place_involutive by done. done.
Qed.

(** X14: under pairwise distinct display names the edge list is the
    wiring.  A pair is in the list exactly when it stands for a pipe that
    starts at a vertex of the graph and ends in an input port of a vertex
    of the graph: the pair runs from producer to consumer in the plain
    walk, and from the place of the consumer to the place of the producer,
    both counted from the last vertex, in the reversed walk the layout
    uses. *)
Theorem NodeGraphToEdges_exact (g : node_graph) (reverse_order : bool)
    (edges : list (nat * nat)) :
  NoDup (map q_name (g_nodes g)) →
  NodeGraphToEdges g reverse_order = Ok edges →
  ∀ e, e ∈ edges
       ↔ ∃ p, p ∈ g_pipes g ∧ feeds_input g p ∧ e = edge_of_pipe g reverse_order p.
Proof.
  intros Hnd H e. rewrite (NodeGraphToEdges_elem g reverse_order edges e H). split.
  - intros (i & v & n & inp & Hw & Hinp & He).
    apply connected_input_elem in Hinp as (ps & pd & Hpd & Hp).
    assert (inp < node_count g)%nat as Hlt.
    { unfold edge_of, get_node in He.
      destruct (g_nodes g !! inp) eqn:E; [|done]. by eapply lookup_lt_Some. }
    exists ((inp, ps), (v, pd)). split; [done|]. split.
    + split; [done|]. exists n. split; [|done]. by apply walk_lookup in Hw as (_ & _ & Hn).
    + rewrite (edge_of_exact g reverse_order i inp ps v pd n Hnd Hw Hlt) in He.
      by injection He as <-.
  - intros ([[s ps] [d pd]] & Hp & (Hs & n & Hn & Hpd) & ->). simpl in *.
    exists (place reverse_order (node_count g) d), d, n, s.
    pose proof (walk_at g reverse_order d n Hn) as Hw.
    split; [done|]. split.
    + apply connected_input_elem. by exists ps, pd.
    + by apply (edge_of_exact g reverse_order _ s ps d pd n).
Qed.

Lemma NodeGraphToEdges_exact_witness :
  (0%nat, 3%nat) ∈ add_graph_edges
  ↔ ∃ p, p ∈ g_pipes add_graph ∧ feeds_input add_graph p
         ∧ (0%nat, 3%nat) = edge_of_pipe add_graph true p.
Proof.
  apply (NodeGraphToEdges_exact add_graph true add_graph_edges).
  - apply (bool_decide_unpack _). vm_compute. exact I.
  - vm_compute. reflexivity.
Defined.

(** The lookup of a display name in the list of all display names finds
    it. *)
Lemma edges_of_wired_graph (g : node_graph) (reverse_order : bool) :
  pipes_in_graph g → ∃ edges, NodeGraphToEdges g reverse_order = Ok edges.
Proof.
  intros Hwf. rewrite NodeGraphToEdges_eq.
  destruct (mapM_r_total (edges_of_vertex g reverse_order)
              (enumerate (walk g reverse_order))) as [ess ->]; [|by eexists].
  intros [i [v n]] _. unfold edges_of_vertex. simpl. apply mapM_r_total.
  intros inp Hinp. apply connected_input_elem in Hinp as (ps & pd & _ & Hp).
  apply Hwf in Hp as [Hs _]. simpl in Hs.
  destruct (lookup_lt_is_Some_2 (g_nodes g) inp Hs) as [m Hm].
  unfold edge_of, get_node. rewrite Hm. simpl.
  destruct (list_index_total (q_name m) (walk_names g reverse_order)) as [idx ->].
  { eapply list_elem_of_lookup_2. by apply walk_names_at. }
  by eexists.
Qed.

(** X15: the edge list is always there for a graph whose pipes join
    vertices of the graph.  The lookup of a display name in the list of all
    display names finds it, so [NodeGraphToEdges] returns, in the plain and
    in the reversed walk, whether the display names are distinct or not. *)
Theorem NodeGraphToEdges_total (g : node_graph) (reverse_order : bool) :
  pipes_in_graph g → ∃ edges, NodeGraphToEdges g reverse_order = Ok edges.
Proof. apply edges_of_wired_graph. Qed.

Lemma NodeGraphToEdges_total_witness :
  ∃ edges, NodeGraphToEdges add_graph true = Ok edges.
Proof.
  apply (NodeGraphToEdges_total add_graph true).
  intros p Hp. vm_compute in Hp.
  repeat (apply elem_of_cons in Hp as [->|Hp]; [vm_compute; lia|]).
  by apply not_elem_of_nil in Hp.
Defined.

(** X16: the edge list is there for every imported graph.  An import into
    a graph whose pipes join vertices of the graph gives a graph of the
    same kind, so that [NodeGraphToEdges], and with it the first step of
    the automatic layout, returns on it. *)
Theorem imported_graph_has_edges uniq (x : gs_graph) (g g' : node_graph)
    (reverse_order : bool) :
  pipes_in_graph g → ONNXtoNodeGraph uniq x g = Ok g' →
  pipes_in_graph g' ∧ ∃ edges, NodeGraphToEdges g' reverse_order = Ok edges.
Proof.
  intros Hwf H.
  assert (pipes_in_graph g') as Hwf'.
  { revert H. apply (import_inv pipes_in_graph); [| | | |done].
    - intros ga t tn g1 v Ha H.
      apply create_qtio_spec in H as (n & _ & Hn & Hp & _).
      intros p Hin. rewrite Hp in Hin. apply Ha in Hin.
      unfold node_count in *. rewrite Hn, length_app. simpl. lia.
    - intros ga nd g1 v Ha H.
      apply create_qtnode_spec in H as (n & _ & Hn & Hp & _).
      intros p Hin. rewrite Hp in Hin. apply Ha in Hin.
      unfold node_count in *. rewrite Hn, length_app. simpl. lia.
    - intros ga s d g1 Ha H.
      apply connect_to_spec in H
        as (sn & dn & sp & dp & Hs & _ & Hd & _ & Hn & _ & Hp).
      intros p Hin. unfold node_count. rewrite Hn. fold (node_count ga).
      rewrite Hp in Hin. case_bool_decide; [by apply Ha|].
      apply elem_of_app in Hin as [Hin|Hin]; [by apply Ha|].
      apply list_elem_of_singleton in Hin as ->. simpl.
      apply lookup_lt_Some in Hs, Hd. done.
    - intros ga v b i Ha p Hin. unfold node_count.
      rewrite lock_step_nodes, length_alter. by apply Ha. }
  split; [done|]. by apply edges_of_wired_graph.
Qed.

Lemma imported_graph_has_edges_witness :
  pipes_in_graph imported_relu
  ∧ ∃ edges, NodeGraphToEdges imported_relu true = Ok edges.
Proof.
  apply (imported_graph_has_edges keep_name relu_model (graph_of [] []) imported_relu true).
  - intros p Hp. by apply not_elem_of_nil in Hp.
  - vm_compute. reflexivity.
Defined.

(** ** Layout: what [auto_layout_nodes] changes *)

Lemma place_vertex_spec coords g i v n g' :
  place_vertex coords g (i, (v, n)) = Ok g' →
  ∃ x y, coords !! i = Some (x, y)
       ∧ g_nodes g' = alter (λ n, set_pos n ((- x * 240)%Q, (- y * 120)%Q)) v (g_nodes g)
       ∧ g_pipes g' = g_pipes g
       ∧ g_log g'
         = g_log g
           ++ (if match g_nodes g !! v with
                  | Some m => negb (same_pos (q_pos m) ((- x * 240)%Q, (- y * 120)%Q))
                  | None => false
                  end
               then [EvSetPos v] else []).
Proof.
  unfold place_vertex. destruct (coords !! i) as [[x y]|]; [|done].
  intros [= <-]. exists x, y. unfold set_property_pos.
  destruct (g_nodes g !! v) as [m|]; [|by rewrite app_nil_r].
  destruct (same_pos _ _); simpl; [by rewrite app_nil_r|done].
Qed.

(** The layout path of [auto_layout_nodes], once the edge list is known
    and not empty. *)
Lemma auto_layout_nodes_path layout g push_undo edges coords :
  NodeGraphToEdges g true = Ok edges → edges ≠ [] → layout edges = Ok coords →
  auto_layout_nodes layout g push_undo
  = (g2 ← foldM (place_vertex coords) (enumerate (walk g true))
            (if push_undo then emit g (EvBeginUndo "Auto Layout Nodes") else g);
     Ok (if push_undo then emit g2 EvEndUndo else g2)).
Proof.
  intros He Hne Hl. unfold auto_layout_nodes.
  assert (NodeGraphToEdges
            (if push_undo then emit g (EvBeginUndo "Auto Layout Nodes") else g) true
          = Ok edges) as ->.
  { by destruct push_undo. }
  simpl. rewrite bool_decide_eq_false_2 by (by destruct edges).
  rewrite Hl. simpl. by destruct push_undo.
Qed.

Lemma foldM_inv_in {A B} (P : A → Prop) (f : A → B → result A) l a a' :
  (∀ a x a', x ∈ l → P a → f a x = Ok a' → P a') →
  P a → foldM f l a = Ok a' → P a'.
Proof.
  revert a. induction l as [|x l IH]; intros a Hstep Ha H; simpl in H.
  - by injection H as <-.
  - apply bind_ok in H as (a1 & H1 & H). eapply IH; [| |exact H].
    + intros b y b' Hy. apply Hstep. by right.
    + eapply Hstep; [by left|done|done].
Qed.

(** What the step of one element achieves, and the steps of the elements
    keep, holds when the loop completes. *)
Lemma foldM_achieve {A B} (Q : A → Prop) (f : A → B → result A) l a a' x :
  x ∈ l →
  (∀ a a', f a x = Ok a' → Q a') →
  (∀ a y a', y ∈ l → Q a → f a y = Ok a' → Q a') →
  foldM f l a = Ok a' → Q a'.
Proof.
  intros Hin Hach. revert a Hin.
  induction l as [|y l IH]; intros a Hin Hkeep H.
  - by apply not_elem_of_nil in Hin.
  - simpl in H. apply bind_ok in H as (a1 & H1 & H).
    apply elem_of_cons in Hin as [<-|Hin].
    + revert H. apply foldM_inv_in; [|by eapply Hach].
      intros b z b' Hz. apply Hkeep. by right.
    + eapply IH; [done| |exact H]. intros b z b' Hz. apply Hkeep. by right.
Qed.

Lemma enumerate_walk_elem g i v n :
  (i, (v, n)) ∈ enumerate (walk g true)
  ↔ (i < node_count g)%nat ∧ v = (node_count g - 1 - i)%nat ∧ g_nodes g !! v = Some n.
Proof.
  rewrite list_elem_of_lookup. split.
  - intros [k Hk]. apply enumerate_lookup in Hk as [-> Hk]. by apply walk_lookup in Hk.
  - intros H. exists i. apply enumerate_lookup. split; [done|]. by apply walk_lookup.
Qed.

Lemma alter_set_pos_but_pos p v (l : list qtnode) :
  map vertex_but_pos (alter (λ n, set_pos n p) v l) = map vertex_but_pos l.
Proof. by apply map_alter_same. Qed.

(** X17: what the automatic layout does to the graph.  When the edge list
    is not empty and the layout library answers, [auto_layout_nodes]
    returns only if the library gave a coordinate pair for every vertex;
    then the pipes are as before, every vertex is as before except for its
    position, and the vertex at position [v] of [all_nodes()] sits at
    [(-240 x, -120 y)], where [(x, y)] is the pair the library gave for the
    place of [v] counted from the last vertex. *)
Theorem auto_layout_nodes_places
    (layout_sugiyama : list (nat * nat) → result (list (Q * Q)))
    (g g' : node_graph) (push_undo : bool)
    (edges : list (nat * nat)) (coords : list (Q * Q)) :
  NodeGraphToEdges g true = Ok edges → edges ≠ [] →
  layout_sugiyama edges = Ok coords →
  auto_layout_nodes layout_sugiyama g push_undo = Ok g' →
  (node_count g ≤ length coords)%nat
  ∧ g_pipes g' = g_pipes g
  ∧ map vertex_but_pos (g_nodes g') = map vertex_but_pos (g_nodes g)
  ∧ ∀ v n', g_nodes g' !! v = Some n' →
      ∃ x y, coords !! (node_count g - 1 - v)%nat = Some (x, y)
           ∧ q_pos n' = ((- x * 240)%Q, (- y * 120)%Q).
Proof.
  intros He Hne Hl H.
  rewrite (auto_layout_nodes_path _ _ _ _ _ He Hne Hl) in H.
  apply bind_ok in H as (g2 & Hfold & H).
  set (g1 := if push_undo then emit g (EvBeginUndo "Auto Layout Nodes") else g) in *.
  assert (g_nodes g1 = g_nodes g ∧ g_pipes g1 = g_pipes g) as [Hn1 Hp1]
    by (by destruct push_undo).
  assert (g_nodes g' = g_nodes g2 ∧ g_pipes g' = g_pipes g2) as [Hn' Hp'].
  { injection H as <-. by destruct push_undo. }
  clear H. rewrite Hn', Hp'. clear Hn' Hp' g'.
  assert (g_pipes g2 = g_pipes g
          ∧ map vertex_but_pos (g_nodes g2) = map vertex_but_pos (g_nodes g)) as [Hp2 Hf2].
  { rewrite <- Hn1, <- Hp1. revert Hfold.
    apply (foldM_inv (λ ga, g_pipes ga = g_pipes g1
                            ∧ map vertex_but_pos (g_nodes ga)
                              = map vertex_but_pos (g_nodes g1))); [|done].
    intros ga [i [v n]] gb [Hpa Hfa] Hs.
    apply place_vertex_spec in Hs as (x & y & _ & Hn & Hp & _).
    rewrite Hp, Hn, alter_set_pos_but_pos. done. }
  assert (∀ v n', g_nodes g2 !! v = Some n' →
            ∃ x y, coords !! (node_count g - 1 - v)%nat = Some (x, y)
                 ∧ q_pos n' = ((- x * 240)%Q, (- y * 120)%Q)) as Hpos.
  { intros v n' Hv.
    assert (v < node_count g)%nat as Hlt.
    { apply lookup_lt_Some in Hv. unfold node_count.
      by rewrite <- (length_map vertex_but_pos (g_nodes g)), <- Hf2, length_map. }
    destruct (lookup_lt_is_Some_2 (g_nodes g) v Hlt) as [n Hn].
    revert n' Hv.
    refine (foldM_achieve
              (λ ga, ∀ n', g_nodes ga !! v = Some n' →
                 ∃ x y, coords !! (node_count g - 1 - v)%nat = Some (x, y)
                      ∧ q_pos n' = ((- x * 240)%Q, (- y * 120)%Q))
              (place_vertex coords) _ g1 g2
              ((node_count g - 1 - v)%nat, (v, n)) _ _ _ Hfold).
    - apply enumerate_walk_elem. split; [lia|]. split; [lia|done].
    - intros ga gb Hs n' Hv.
      apply place_vertex_spec in Hs as (x & y & Hc & Hnb & _).
      exists x, y. split; [done|]. rewrite Hnb in Hv.
      rewrite list_lookup_alter_eq in Hv.
      destruct (g_nodes ga !! v); simpl in Hv; [|done]. by injection Hv as <-.
    - intros ga [i [w m]] gb Hin Hq Hs n' Hv.
      apply enumerate_walk_elem in Hin as (Hi & Hw & _).
      apply place_vertex_spec in Hs as (x & y & Hc & Hnb & _).
      rewrite Hnb in Hv. destruct (decide (w = v)) as [->|Hne'].
      + assert (i = (node_count g - 1 - v)%nat) as -> by lia.
        exists x, y. split; [done|]. rewrite list_lookup_alter_eq in Hv.
        destruct (g_nodes ga !! v); simpl in Hv; [|done]. by injection Hv as <-.
      + rewrite list_lookup_alter_ne in Hv by done. by apply Hq. }
  split; [|done].
  destruct (decide (node_count g = 0%nat)) as [->|Hpos0]; [lia|].
  destruct (lookup_lt_is_Some_2 (g_nodes g2) 0%nat) as [n0 Hn0].
  { rewrite <- (length_map vertex_but_pos), Hf2, length_map. fold (node_count g). lia. }
  destruct (Hpos 0%nat n0 Hn0) as (x & y & Hc & _).
  apply lookup_lt_Some in Hc. lia.
Qed.

Lemma auto_layout_nodes_places_witness :
  (node_count add_graph ≤ length sample_coords)%nat
  ∧ g_pipes laid_out_add_graph = g_pipes add_graph
  ∧ map vertex_but_pos (g_nodes laid_out_add_graph)
    = map vertex_but_pos (g_nodes add_graph)
  ∧ ∀ v n', g_nodes laid_out_add_graph !! v = Some n' →
      ∃ x y, sample_coords !! (node_count add_graph - 1 - v)%nat = Some (x, y)
           ∧ q_pos n' = ((- x * 240)%Q, (- y * 120)%Q).
Proof.
  apply (auto_layout_nodes_places sample_layout add_graph laid_out_add_graph true
           add_graph_edges sample_coords).
  - vm_compute. reflexivity.
  - vm_compute. discriminate.
  - reflexivity.
  - vm_compute. reflexivity.
Defined.

Lemma imap_snd {A} (f : nat → nat) (l : list A) :
  map snd (imap (λ i x, (f i, x)) l) = l.
Proof.
  revert f. induction l as [|x l IH]; intros f; simpl; [done|].
  f_equal. apply (IH (f ∘ S)).
Qed.

Lemma imap_fst {A} (f : nat → nat) (l : list A) :
  map fst (imap (λ i x, (f i, x)) l) = map f (seq 0 (length l)).
Proof.
  revert f. induction l as [|x l IH]; intros f; simpl; [done|].
  f_equal. rewrite <- seq_shift, map_map. apply (IH (f ∘ S)).
Qed.

Lemma walk_vertices g :
  map (λ ivn : nat * (nat * qtnode), ivn.2.1) (enumerate (walk g true))
  = reverse (seq 0 (node_count g)).
Proof.
  rewrite <- (map_map snd fst). unfold enumerate at 1.
  rewrite (imap_snd id). unfold walk.
  change (fst <$> reverse (enumerate (g_nodes g)) = reverse (seq 0 (node_count g))).
  rewrite fmap_reverse. f_equal. unfold enumerate.
  change (map fst (imap (λ i x, (id i, x)) (g_nodes g)) = seq 0 (node_count g)).
  rewrite imap_fst. apply map_id.
Qed.

(** The loop records a position change for the vertices it moves, and
    for no others: a vertex is visited once, so its position is still the
    one it had when the loop started. *)
Lemma place_loop_log coords g0 l : ∀ g g',
  NoDup (map (λ ivn : nat * (nat * qtnode), ivn.2.1) l) →
  Forall (λ ivn : nat * (nat * qtnode),
            ivn.1 = (node_count g0 - 1 - ivn.2.1)%nat
            ∧ q_pos <$> g_nodes g !! ivn.2.1 = q_pos <$> g_nodes g0 !! ivn.2.1) l →
  foldM (place_vertex coords) l g = Ok g' →
  g_log g'
  = g_log g
    ++ map EvSetPos
         (filter (λ v, moves g0 coords v)
            (map (λ ivn : nat * (nat * qtnode), ivn.2.1) l)).
Proof.
  induction l as [|[i [v n]] l IH]; intros g g' Hnd Hall H.
  - injection H as <-. by rewrite app_nil_r.
  - cbn [foldM] in H. apply bind_ok in H as (g1 & H1 & H).
    rewrite map_cons in Hnd |- *. cbn [fst snd] in Hnd |- *.
    apply NoDup_cons in Hnd as [Hv Hnd].
    apply Forall_cons in Hall as [[Hi Hpos] Hall]. simpl in Hi, Hpos.
    apply (place_vertex_spec coords g i v n) in H1 as (x & y & Hc & Hn1 & _ & Hl).
    rewrite (IH g1 g' Hnd); [|clear IH|done].
    2:{ apply Forall_forall. intros [j [w m]] Hin. simpl.
        rewrite Forall_forall in Hall. specialize (Hall _ Hin) as [Hj Hw].
        split; [done|]. simpl in Hw. rewrite <- Hw, Hn1.
        rewrite list_lookup_alter_ne; [done|]. intros ->. apply Hv.
        apply list_elem_of_fmap. by exists (j, (w, m)). }
    rewrite Hl, <- app_assoc. f_equal.
    assert (moves g0 coords v
            = match g_nodes g !! v with
              | Some m => negb (same_pos (q_pos m) ((- x * 240)%Q, (- y * 120)%Q))
              | None => false
              end) as Hm.
    { unfold moves. rewrite <- Hi, Hc.
      destruct (g_nodes g !! v) as [m|], (g_nodes g0 !! v) as [m0|];
        simpl in Hpos; try done. by injection Hpos as ->. }
    rewrite <- Hm. destruct (moves g0 coords v) eqn:Em.
    + rewrite filter_cons_True; [done|]. simpl. by rewrite Em.
    + rewrite filter_cons_False; [done|]. simpl. rewrite Em. by intros [].
Qed.

(** X18: what the automatic layout records.  On the path that lays
    vertices out, the graph changes the position of the vertices that are
    not yet where the layout puts them, from the last vertex of
    [all_nodes()] to the first, and of no others; these changes are enclosed
    in one undo group when undo recording is on, and nothing else is
    recorded; with undo recording off no undo group is opened or closed.
    On a graph that is already laid out no position is changed. *)
Theorem auto_layout_nodes_history
    (layout_sugiyama : list (nat * nat) → result (list (Q * Q)))
    (g g' : node_graph) (push_undo : bool)
    (edges : list (nat * nat)) (coords : list (Q * Q)) :
  NodeGraphToEdges g true = Ok edges → edges ≠ [] →
  layout_sugiyama edges = Ok coords →
  auto_layout_nodes layout_sugiyama g push_undo = Ok g' →
  g_log g'
  = g_log g
    ++ (if push_undo then [EvBeginUndo "Auto Layout Nodes"] else [])
    ++ map EvSetPos (filter (λ v, moves g coords v) (reverse (seq 0 (node_count g))))
    ++ (if push_undo then [EvEndUndo] else []).
Proof.
  intros He Hne Hl H.
  rewrite (auto_layout_nodes_path _ _ _ _ _ He Hne Hl) in H.
  apply bind_ok in H as (g2 & Hfold & H). injection H as <-.
  apply (place_loop_log coords g) in Hfold.
  - rewrite walk_vertices in Hfold.
    destruct push_undo; simpl; rewrite Hfold; simpl.
    + by rewrite <- !app_assoc.
    + by rewrite app_nil_r.
  - rewrite walk_vertices, reverse_Permutation. apply NoDup_seq.
  - apply Forall_forall. intros [i [v n]] Hin.
    apply enumerate_walk_elem in Hin as (Hi & Hv & Hn). simpl.
    split; [lia|]. by destruct push_undo.
Qed.

Lemma auto_layout_nodes_history_witness :
  g_log laid_out_add_graph
  = g_log add_graph
    ++ [EvBeginUndo "Auto Layout Nodes"]
    ++ map EvSetPos
         (filter (λ v, moves add_graph sample_coords v)
            (reverse (seq 0 (node_count add_graph))))
    ++ [EvEndUndo].
Proof.
  apply (auto_layout_nodes_history sample_layout add_graph laid_out_add_graph true
           add_graph_edges sample_coords).
  - vm_compute. reflexivity.
  - vm_compute. discriminate.
  - reflexivity.
  - vm_compute. reflexivity.
Defined.

(** ** Serialisation: what leaves [to_onnx] and what reaches the file *)

(** X19: the exceptions that leave [to_onnx] are those of the translation
    to the exchange graph, which runs before the [try] block, and no
    others. *)
Theorem to_onnx_raises_iff
    (export_onnx : gs_graph → result ModelProto)
    (check_model : ModelProto → result unit) (g : node_graph) (e : exn) :
  to_onnx export_onnx check_model g = Raise e ↔ NodeGraphtoONNX g = Raise e.
Proof.
  unfold to_onnx, to_onnx_gs.
  destruct (NodeGraphtoONNX g) as [graph|e']; simpl.
  - destruct (to_onnx_try export_onnx check_model g graph None). by split.
  - split; intros [= ->]; reflexivity.
Qed.

(** X20: what [export] writes.  An exception of the translation leaves
    [export] before anything is saved.  Otherwise [onnx.save] is called,
    and [export] ends as it ends: with a null model when the serialisation
    raised, and with the model when it did not, whatever the model check
    said, so a model that fails the check is written all the same.  The
    model written carries the four producer and version fields when
    [ir_version] and [model_version] are int64 numbers; when the assignment
    of [ir_version] raises it carries the producer fields only, and when
    that of [model_version] raises, the producer fields and [ir_version]. *)
Theorem export_saves_unchecked
    (export_onnx : gs_graph → result ModelProto)
    (check_model : ModelProto → result unit)
    (save : option ModelProto → string → result unit)
    (g : node_graph) (file_path : string) :
  (∀ e, NodeGraphtoONNX g = Raise e →
        export export_onnx check_model save g file_path = Raise e)
  ∧ (∀ graph e, NodeGraphtoONNX g = Ok graph → export_onnx graph = Raise e →
        export export_onnx check_model save g file_path = save None file_path)
  ∧ (∀ graph m, NodeGraphtoONNX g = Ok graph → export_onnx graph = Ok m →
        export export_onnx check_model save g file_path
        = save (Some (if negb (int64_range (g_ir_version g))
                      then stamp_producer g m
                      else if negb (int64_range (g_model_version g))
                           then stamp_ir_version g m
                           else stamp g m))
               file_path).
Proof.
  unfold export, to_onnx, to_onnx_try, to_onnx_gs. split; [|split].
  - by intros e ->.
  - intros graph e Hg He. rewrite Hg. simpl. rewrite He. simpl.
    by destruct (save None file_path).
  - intros graph m Hg Hm. rewrite Hg. simpl. rewrite Hm.
    destruct (negb (int64_range (g_ir_version g)));
      [|destruct (negb (int64_range (g_model_version g)))];
      simpl; by destruct (save _ file_path).
Qed.

(** ** The index of producers and consumers *)

(** X21: the index [qt_edge] the import wires from.  It has one entry per
    tensor name; the names listed under ["inputs"] for a tensor are the
    names of the operator records that read it, and the names listed under
    ["outputs"] those of the records that write it. *)
Theorem qt_edge_indexes_exactly (nodes : list gs_node) :
  NoDup (map fst (build_qt_edge nodes))
  ∧ ∀ key name,
      (listed_in (build_qt_edge nodes) key name ↔ consumer_of nodes key name)
      ∧ (listed_out (build_qt_edge nodes) key name ↔ producer_of nodes key name).
Proof.
  split; [apply build_qt_edge_nodup|]. intros key name.
  pose proof (build_qt_edge_sound nodes) as Hsound. split; split.
  - intros (I & O & Hin & Hname). by destruct (Hsound key I O Hin) as [H _]; apply H.
  - intros (nd & Hnd & <- & Hkey).
    apply list_elem_of_In, in_map_iff in Hkey as (r & <- & Hr).
    apply list_elem_of_In in Hr.
    by destruct (build_qt_edge_complete nodes nd Hnd) as [H _]; apply H.
  - intros (I & O & Hin & Hname). by destruct (Hsound key I O Hin) as [_ H]; apply H.
  - intros (nd & Hnd & <- & Hkey).
    apply list_elem_of_In, in_map_iff in Hkey as (r & <- & Hr).
    apply list_elem_of_In in Hr.
    by destruct (build_qt_edge_complete nodes nd Hnd) as [_ H]; apply H.
Qed.

(** ** Lookup by name *)

Lemma get_node_by_name_from_elem k ns name i :
  i ∈ get_node_by_name_from k ns name
  ↔ ∃ j n, i = (k + j)%nat ∧ ns !! j = Some n
           ∧ ((q_type n = ONNXNode ∧ q_node_name n = name) ∨ q_name n = name).
Proof.
  revert k. induction ns as [|m ns IH]; intros k; simpl.
  - split; [by intros H%not_elem_of_nil|]. by intros (j & n & _ & H & _).
  - rewrite elem_of_app, IH. split.
    + intros [H|(j & n & -> & Hj & Hn)].
      * exists 0%nat, m. unfold name_hits in H.
        apply elem_of_app in H as [H|H].
        -- case_bool_decide as Ht; [|by apply not_elem_of_nil in H].
           case_bool_decide as Hn; [|by apply not_elem_of_nil in H].
           apply list_elem_of_singleton in H as ->.
           split; [lia|]. split; [done|]. by left.
        -- case_bool_decide as Hn; [|by apply not_elem_of_nil in H].
           apply list_elem_of_singleton in H as ->.
           split; [lia|]. split; [done|]. by right.
      * exists (S j), n. split; [lia|]. done.
    + intros ([|j] & n & -> & Hj & Hn).
      * left. simpl in Hj. injection Hj as ->. unfold name_hits.
        rewrite Nat.add_0_r. apply elem_of_app. destruct Hn as [[Ht Hn]|Hn].
        -- left. rewrite !bool_decide_eq_true_2 by done. by left.
        -- right. rewrite bool_decide_eq_true_2 by done. by left.
      * right. exists j, n. split; [lia|]. done.
Qed.

(** X22: what [get_node_by_name] finds.  A vertex is in the result exactly
    when it is a vertex of the graph whose display name is the name asked
    for, or an Operator vertex whose stored node name is; Input and Output
    vertices are found by display name only, and an unknown name gives the
    empty list. *)
Theorem get_node_by_name_finds (g : node_graph) (name : string) (i : nat) :
  i ∈ get_node_by_name g name
  ↔ ∃ n, g_nodes g !! i = Some n
         ∧ ((q_type n = ONNXNode ∧ q_node_name n = name) ∨ q_name n = name).
Proof.
  unfold get_node_by_name. rewrite get_node_by_name_from_elem. split.
  - intros (j & n & -> & Hj & Hn). by exists n.
  - intros (n & Hi & Hn). by exists i, n.
Qed.

(** ** [to_data] *)

Lemma enumerate_snoc {A} (l : list A) (x : A) :
  enumerate (l ++ [x]) = enumerate l ++ [(length l, x)].
Proof.
  unfold enumerate. rewrite imap_app. simpl. by rewrite Nat.add_0_r.
Qed.

Lemma to_data_step_lookup d k x t s :
  og_of t (to_data_step d (k, x)) !! s
  = if decide (q_type x = t ∧ q_name x = s) then Some k else og_of t d !! s.
Proof.
  unfold to_data_step.
  destruct (decide (q_type x = t ∧ q_name x = s)) as [[<- <-]|Hne].
  - destruct (q_type x); simpl; apply lookup_insert_eq.
  - destruct (q_type x) eqn:Et, t; simpl; try done;
      apply lookup_insert_ne; intros Hs; apply Hne; done.
Qed.

Lemma last_named_snoc_hit l x t s v :
  q_type x = t → q_name x = s →
  last_named (l ++ [x]) t s v ↔ v = length l.
Proof.
  intros Ht Hs. split.
  - intros [(n & Hv & _) Hlast].
    destruct (decide (v = length l)) as [|Hne]; [done|].
    pose proof (lookup_lt_Some _ _ _ Hv) as Hlt. rewrite length_app in Hlt. simpl in Hlt.
    destruct (Hlast (length l) x); [lia|apply lookup_snoc|done].
  - intros ->. split.
    + exists x. split; [apply lookup_snoc|done].
    + intros w m Hw Hm. apply lookup_lt_Some in Hm. rewrite length_app in Hm.
      simpl in Hm. lia.
Qed.

Lemma last_named_snoc_miss l x t s v :
  ¬ (q_type x = t ∧ q_name x = s) →
  last_named (l ++ [x]) t s v ↔ last_named l t s v.
Proof.
  intros Hmiss. split.
  - intros [(n & Hv & Ht & Hs) Hlast].
    apply lookup_app_Some in Hv as [Hv|[_ Hv]].
    + split; [by exists n|]. intros w m Hw Hm. apply (Hlast w m Hw).
      by apply lookup_app_l_Some.
    + apply list_lookup_singleton_Some in Hv as [_ <-]. by destruct Hmiss.
  - intros [(n & Hv & Ht & Hs) Hlast]. split.
    + exists n. split; [by apply lookup_app_l_Some|done].
    + intros w m Hw Hm. apply lookup_app_Some in Hm as [Hm|[_ Hm]].
      * by apply (Hlast w m).
      * by apply list_lookup_singleton_Some in Hm as [_ <-].
Qed.

(** X23: where [to_data] files a vertex.  Each of the dictionaries
    [inputs], [outputs] and [nodes] holds, under a display name, the last
    vertex of its class that carries this display name, and holds nothing
    under a name no vertex of its class carries: a vertex is overwritten
    by a later one of the same class and name, never by one of another
    class. *)
Theorem to_data_files_by_class (g : node_graph) (t : node_type) (s : string) (v : nat) :
  og_of t (to_data g) !! s = Some v ↔ last_named (g_nodes g) t s v.
Proof.
  unfold to_data. generalize (g_nodes g) as l. clear g. intros l.
  induction l as [|x l IH] using rev_ind.
  - simpl. split.
    + destruct t; simpl; by rewrite lookup_empty.
    + by intros [(n & Hn & _) _].
  - rewrite enumerate_snoc, foldl_app. cbn [foldl]. rewrite to_data_step_lookup.
    destruct (decide (q_type x = t ∧ q_name x = s)) as [[Ht Hs]|Hmiss].
    + rewrite (last_named_snoc_hit l x t s v Ht Hs). split; [by intros [= <-]|by intros ->].
    + by rewrite IH, last_named_snoc_miss.
Qed.

Lemma insert_all_lookup (m : gmap string OnnxNodeIO) ios s io :
  foldl (λ m inp, <[io_name inp := inp]> m) m ios !! s = Some io →
  m !! s = Some io ∨ (io ∈ ios ∧ io_name io = s).
Proof.
  revert m. induction ios as [|a ios IH]; intros m; simpl; [by left|].
  intros H. apply IH in H as [H|[H1 H2]].
  - apply lookup_insert_Some in H as [[<- <-]|[_ H]]; [right|by left].
    split; [by left|done].
  - right. split; [by right|done].
Qed.

Lemma insert_all_keeps (m : gmap string OnnxNodeIO) ios s :
  is_Some (m !! s) → is_Some (foldl (λ m inp, <[io_name inp := inp]> m) m ios !! s).
Proof.
  revert m. induction ios as [|a ios IH]; intros m; simpl; [done|].
  intros H. apply IH. destruct (decide (io_name a = s)) as [<-|Hne].
  - rewrite lookup_insert_eq. by eexists.
  - by rewrite lookup_insert_ne.
Qed.

Lemma insert_all_has (m : gmap string OnnxNodeIO) ios io :
  io ∈ ios →
  is_Some (foldl (λ m inp, <[io_name inp := inp]> m) m ios !! io_name io).
Proof.
  revert m. induction ios as [|a ios IH]; intros m Hin; simpl.
  - by apply not_elem_of_nil in Hin.
  - apply elem_of_cons in Hin as [<-|Hin]; [|by apply IH].
    apply insert_all_keeps. rewrite lookup_insert_eq. by eexists.
Qed.

(** X24: what [to_data] files under [node_inputs].  An entry is an input
    tensor reference of an Operator vertex, filed under its own tensor
    name; and every input tensor reference of every Operator vertex has an
    entry under its name.  Tensors that are written only, and the tensors
    of Input and Output vertices, are not filed. *)
Theorem to_data_node_inputs (g : node_graph) :
  (∀ s io, og_node_inputs (to_data g) !! s = Some io →
     io_name io = s
     ∧ ∃ n, n ∈ g_nodes g ∧ q_type n = ONNXNode ∧ io ∈ q_onnx_inputs n)
  ∧ (∀ n io, n ∈ g_nodes g → q_type n = ONNXNode → io ∈ q_onnx_inputs n →
       is_Some (og_node_inputs (to_data g) !! io_name io)).
Proof.
  unfold to_data. split.
  - apply (foldl_inv_in
             (λ d, ∀ s io, og_node_inputs d !! s = Some io →
                io_name io = s
                ∧ ∃ n, n ∈ g_nodes g ∧ q_type n = ONNXNode ∧ io ∈ q_onnx_inputs n)).
    + intros d [v n] Hin Hd s io. unfold to_data_step.
      apply elem_of_lookup_imap in Hin as (i & y & [= -> ->] & Hy).
      apply list_elem_of_lookup_2 in Hy.
      destruct (q_type y) eqn:Et; simpl; try apply Hd.
      intros H. apply insert_all_lookup in H as [H|[H1 H2]]; [by apply Hd|].
      split; [done|]. by exists y.
    + intros s io. simpl. by rewrite lookup_empty.
  - intros n io Hn Ht Hio. apply list_elem_of_lookup in Hn as [v Hv].
    apply (foldl_achieve
             (λ (x : nat * qtnode) d, is_Some (og_node_inputs d !! io_name io))
             to_data_step _ _ (v, n)).
    + intros d. unfold to_data_step. rewrite Ht. simpl. by apply insert_all_has.
    + intros d [w m] Hd. unfold to_data_step.
      destruct (q_type m); simpl; try done. by apply insert_all_keeps.
    + by apply (elem_of_lookup_imap_2 (λ i x, (i, x))).
Qed.

(** ** Export: the graph inputs and outputs are wired by name *)

Lemma export_io_registers ns : ∀ vs0 st0 vs st',
  foldl (λ '(vs, st) n,
           let '(v, st') := new_shared st (GsVariable (q_name n) (q_dtype n) (q_shape n)) in
           (vs ++ [v], st'))
        (vs0, st0) ns = (vs, st') →
  NoDup (map q_name ns) →
  ∃ new, vs = vs0 ++ new
       ∧ (∀ v, v ∈ new → ref_name v ∈ map q_name ns
                         ∧ gs_variables_all st' !! ref_name v = Some v)
       ∧ (∀ k r, gs_variables_all st0 !! k = Some r → k ∉ map q_name ns →
                 gs_variables_all st' !! k = Some r).
Proof.
  induction ns as [|n ns IH]; intros vs0 st0 vs st'; simpl.
  - intros [= <- <-] _. exists []. rewrite app_nil_r. split; [done|].
    split; [|done]. intros v Hv. by apply not_elem_of_nil in Hv.
  - intros H Hnd. apply NoDup_cons in Hnd as [Hn Hnd].
    apply IH in H as (new & -> & Hnew & Hkeep); [|done].
    set (v := mk_ref (next_oid st0) (GsVariable (q_name n) (q_dtype n) (q_shape n))).
    exists (v :: new). rewrite <- app_assoc. split; [done|]. split.
    + intros w Hw. apply elem_of_cons in Hw as [->|Hw].
      * split; [by left|]. apply Hkeep; [|done]. simpl. apply lookup_insert_eq.
      * destruct (Hnew w Hw) as [H1 H2]. split; [by right|done].
    + intros k r Hk Hnot. apply not_elem_of_cons in Hnot as [Hne Hnot].
      apply Hkeep; [|done]. simpl. by rewrite lookup_insert_ne.
Qed.

(** X25: the exchange graph is wired to its inputs and outputs by name.
    When the display names of the Input and Output vertices are pairwise
    distinct, a tensor reference of an operator record that is not of a
    constant kind, and that carries the name of a graph input or graph
    output, is that very variable of the graph: the same object, not a
    second one of the same name. *)
Theorem export_wires_graph_io (g : node_graph) (x : gs_graph) :
  NoDup (map q_name (get_nodes_by_type g ONNXInput ++ get_nodes_by_type g ONNXOutput)) →
  NodeGraphtoONNX g = Ok x →
  ∀ nd r io,
    nd ∈ gg_nodes x → is_constant_op (gn_op nd) = false →
    r ∈ gn_inputs nd ++ gn_outputs nd →
    io ∈ gg_inputs x ++ gg_outputs x →
    ref_name r = ref_name io → r = io.
Proof.
  intros Hnd H. unfold NodeGraphtoONNX in H.
  apply bind_ok in H as ([[ins outs] acc] & Hrun & H). injection H as <-.
  simpl. unfold export_run in Hrun.
  destruct (export_io _ (get_nodes_by_type g ONNXInput)) as [iv st1] eqn:E1.
  destruct (export_io st1 _) as [ov st2] eqn:E2.
  apply bind_ok in Hrun as (acc' & Hfold & H). injection H as <- <- <-.
  rewrite map_app in Hnd. apply NoDup_app in Hnd as (Hnd1 & Hdisj & Hnd2).
  assert (wf_state (mk_state ∅ 0)) as Hwf0
    by (intros k r; simpl; by rewrite lookup_empty).
  pose proof (export_io_wf _ _ _ _ Hwf0 E1) as Hwf1.
  pose proof (export_io_wf _ _ _ _ Hwf1 E2) as Hwf2.
  unfold export_io in E1, E2.
  apply export_io_registers in E1 as (new1 & Hv1 & Hreg1 & _); [|done].
  apply export_io_registers in E2 as (new2 & Hv2 & Hreg2 & Hkeep2); [|done].
  simpl in Hv1, Hv2. subst iv ov.
  assert (∀ io, io ∈ new1 ++ new2 → gs_variables_all st2 !! ref_name io = Some io) as Hio.
  { intros io Hin. apply elem_of_app in Hin as [Hin|Hin].
    - destruct (Hreg1 io Hin) as [Hname Hl]. apply Hkeep2; [done|].
      intros Hout. by apply (Hdisj (ref_name io)).
    - by destruct (Hreg2 io Hin). }
  assert (wf_state (x_state acc')
          ∧ gs_variables_all st2 ⊆ gs_variables_all (x_state acc')
          ∧ ∀ nd r, nd ∈ x_nodes acc' → is_constant_op (gn_op nd) = false →
                    r ∈ gn_inputs nd ++ gn_outputs nd →
                    gs_variables_all (x_state acc') !! ref_name r = Some r)
    as (_ & Hsub & Hrec).
  { revert Hfold.
    apply (foldM_inv (λ a, wf_state (x_state a)
             ∧ gs_variables_all st2 ⊆ gs_variables_all (x_state a)
             ∧ ∀ nd r, nd ∈ x_nodes a → is_constant_op (gn_op nd) = false →
                       r ∈ gn_inputs nd ++ gn_outputs nd →
                       gs_variables_all (x_state a) !! ref_name r = Some r)).
    - intros a n a' (Hwfa & Hsuba & Hreca) Hs.
      apply export_vertex_spec in Hs
        as (ri & ro & s1 & s2 & node & Hi & Ho & Hn & _ & Hk).
      apply resolve_list_spec in Hi as (Hwfi & Hsubi & Hli); [|done].
      apply resolve_list_spec in Ho as (Hwfo & Hsubo & Hlo); [|done].
      assert (gs_variables_all (x_state a') = gs_variables_all s2) as Hmap.
      { destruct (is_constant_op (q_op n)).
        - by apply constant_node_spec in Hk
            as (? & ? & ? & ? & ? & ? & _ & _ & _ & _ & _ & _ & ->).
        - by destruct Hk as [_ ->]. }
      split; [intros k r; rewrite Hmap; apply Hwfo|].
      rewrite Hmap. split; [by do 2 (etrans; [|done])|].
      intros nd r Hnd' Hc Hr. rewrite Hn in Hnd'.
      apply elem_of_app in Hnd' as [Hnd'|Hnd'].
      + eapply lookup_weaken; [|exact Hsubo]. eapply lookup_weaken; [|exact Hsubi].
        by eapply Hreca.
      + apply list_elem_of_singleton in Hnd' as ->.
        destruct (is_constant_op (q_op n)) eqn:Ec.
        { apply constant_node_spec in Hk
            as (? & ? & ? & ? & ? & ? & _ & _ & _ & _ & _ & -> & _).
          simpl in Hc. congruence. }
        destruct Hk as [-> _]. simpl in Hr.
        apply (Forall2_weaken_map _ _ _ _ Hsubo) in Hli.
        apply elem_of_app in Hr as [Hr|Hr];
          apply list_elem_of_lookup in Hr as [i Hi'].
        * destruct (Forall2_lookup_r _ _ _ _ _ Hli Hi') as (io & _ & Hlk).
          by rewrite (Hwfo _ _ Hlk).
        * destruct (Forall2_lookup_r _ _ _ _ _ Hlo Hi') as (io & _ & Hlk).
          by rewrite (Hwfo _ _ Hlk).
    - split; [done|]. split; [done|]. intros nd r Hnd'. by apply not_elem_of_nil in Hnd'. }
  intros nd r io Hnd' Hc Hr Hin Hname.
  pose proof (Hrec nd r Hnd' Hc Hr) as H1.
  pose proof (lookup_weaken _ _ _ _ (Hio io Hin) Hsub) as H2.
  rewrite Hname in H1. congruence.
Qed.

Lemma export_wires_graph_io_witness : add_first_input = graph_input_x.
Proof.
  apply (export_wires_graph_io add_graph exported_add_graph
           ltac:(apply (bool_decide_unpack _); vm_compute; exact I)
           ltac:(vm_compute; reflexivity)
           add_record add_first_input graph_input_x).
  - apply (list_elem_of_lookup_2 _ 1%nat). vm_compute. reflexivity.
  - vm_compute. reflexivity.
  - apply (list_elem_of_lookup_2 _ 0%nat). vm_compute. reflexivity.
  - apply (list_elem_of_lookup_2 _ 0%nat). vm_compute. reflexivity.
  - vm_compute. reflexivity.
Defined.

(** ** Import: what a Constant record must carry *)

(** X26: the import demands a tensor under [value] from every Constant
    record.  When [ONNXtoNodeGraph] returns, every record of type Constant
    has an attribute named [value] that holds a tensor; on a Constant
    record that gives its value in another attribute the import raises. *)
Theorem import_requires_constant_value uniq (x : gs_graph) (g g' : node_graph)
    (nd : gs_node) :
  ONNXtoNodeGraph uniq x g = Ok g' →
  nd ∈ gg_nodes x →
  gn_op nd = "Constant" →
  ∃ name arr, dict_get (gn_attrs nd) "value" = Ok (PTensor name arr).
Proof.
  intros H Hnd Hop.
  destruct (imported_operator _ _ _ _ _ H Hnd) as (n & _ & _ & _ & _ & Ha & _).
  rewrite Hop in Ha. unfold import_attrs in Ha. simpl in Ha.
  destruct (dict_get (gn_attrs nd) "value") as [[| | | | | |name arr]|]; try done.
  by exists name, arr.
Qed.

Lemma import_requires_constant_value_witness :
  ∃ name arr, dict_get (gn_attrs constant_2x2) "value" = Ok (PTensor name arr).
Proof.
  apply (import_requires_constant_value keep_name constant_model (graph_of [] [])
           imported_constant_model constant_2x2).
  - vm_compute. reflexivity.
  - apply (list_elem_of_lookup_2 _ 0%nat). reflexivity.
  - reflexivity.
Defined.

(** ** Selection *)

Lemma reset_selection_prefix (ns : list selectable) (k : nat) :
  (k ≤ length ns)%nat →
  foldl (λ ns v, alter (set_selected false) v ns) ns (seq 0 k)
  = map (set_selected false) (take k ns) ++ drop k ns.
Proof.
  induction k as [|k IH]; intros Hk.
  - by rewrite take_0, drop_0.
  - rewrite seq_S, foldl_app, IH by lia. simpl.
    destruct (lookup_lt_is_Some_2 ns k) as [n Hn]; [lia|].
    rewrite (take_S_r _ _ _ Hn), (drop_S _ _ _ Hn), map_app. simpl.
    rewrite alter_app_r_alt by (rewrite length_map, length_take; lia).
    rewrite length_map, length_take, Nat.min_l, Nat.sub_diag by lia.
    simpl. by rewrite <- app_assoc.
Qed.

Lemma reset_selection_map (ns : list selectable) :
  reset_selection ns = map (set_selected false) ns.
Proof.
  unfold reset_selection. rewrite reset_selection_prefix by done.
  by rewrite firstn_all, drop_all, app_nil_r.
Qed.

Lemma filter_selected_reset (l : list selectable) :
  filter (λ n, s_selected n = true) (map (set_selected false) l) = [].
Proof.
  induction l as [|n l IH]; [done|]. simpl. by rewrite filter_cons_False.
Qed.

(** X27: [fit_to_selection_node] leaves exactly one vertex selected.
    Whatever was selected before, after the call on a vertex of the graph
    [get_selected_node_names] returns the display name of that vertex and
    nothing else, and no vertex has changed otherwise. *)
Theorem fit_to_selection_node_selects_one (ns : list selectable) (v : nat)
    (n : selectable) :
  ns !! v = Some n →
  get_selected_node_names (fit_to_selection_node ns v) = [q_name (s_node n)]
  ∧ map s_node (fit_to_selection_node ns v) = map s_node ns.
Proof.
  intros Hv. unfold fit_to_selection_node. rewrite reset_selection_map. split.
  - unfold get_selected_node_names.
    rewrite <- (take_drop_middle _ _ _ Hv), map_app. simpl.
    pose proof (lookup_lt_Some _ _ _ Hv) as Hlt.
    rewrite alter_app_r_alt by (rewrite length_map, length_take; lia).
    rewrite length_map, length_take, Nat.min_l, Nat.sub_diag by lia. simpl.
    rewrite filter_app, filter_selected_reset, app_nil_l.
    rewrite filter_cons_True by done.
    by rewrite filter_selected_reset.
  - rewrite (map_alter_same s_node (set_selected true)) by done.
    rewrite map_map. simpl. done.
Qed.

Lemma fit_to_selection_node_selects_one_witness :
  get_selected_node_names
    (fit_to_selection_node [mk_sel input_x true; mk_sel relu_vertex true] 1)
  = [q_name (s_node (mk_sel relu_vertex true))]
  ∧ map s_node (fit_to_selection_node [mk_sel input_x true; mk_sel relu_vertex true] 1)
    = map s_node [mk_sel input_x true; mk_sel relu_vertex true].
Proof.
  apply (fit_to_selection_node_selects_one
           [mk_sel input_x true; mk_sel relu_vertex true] 1 (mk_sel relu_vertex true)).
  reflexivity.
Defined.
